(** * dot.cpp: a naive dense matrix multiplication benchmark

    Shallow embedding of [src/dot.cpp] and the properties its specification
    states about it.

    - [float] is IEEE 754 binary32 and [double] is binary64: the operations
      of the Standard Library's [SpecFloat] at precision 24 and 53 (round to
      nearest, ties to even).  Every operation of the source rounds once, to
      its own type: no fused multiply-add and no excess precision.
    - [size_t] is a 64-bit unsigned integer: a [Z] with the wrap-around
      written out.
    - The heap is a finite map from addresses to float arrays; an access
      outside an array is undefined behaviour and makes the computation
      fault.  A fault ends the run: the world that comes with it records
      where the run stopped.
    - [rand], [RAND_MAX], the clocks and the contents of fresh storage come
      from the C and C++ libraries, not from this repository, and are taken
      as a [Platform].

    The file has four parts: the definitions (the program, then the
    vocabulary of its specification), the lemmas, the properties the
    specification claims, and further properties of the code: its
    behaviour on shapes that do not fit and on empty matrices, the order
    of its accesses, what it leaves behind, and when its arithmetic is
    exact or bounded. *)

From Stdlib Require Import ZArith Lia Bool List String QArith.
From Stdlib Require Import Floats.SpecFloat.
From stdpp Require Import gmap list.

Local Open Scope Z_scope.

(* ===================================================================== *)
(** * Part I: definitions *)

(** ** Machine integers *)

Module Size.
(** [size_t] on an LP64 platform. *)
Definition bits : Z := 64.
Definition modulus : Z := 2 ^ bits.
Definition SIZE_MAX : Z := modulus - 1.

Definition wrap (z : Z) : Z := z mod modulus.
Definition add (x y : Z) : Z := wrap (x + y).
Definition mul (x y : Z) : Z := wrap (x * y).
End Size.

(** ** Floating point *)

(** [float]: binary32. *)
Module F32.
Definition prec : Z := 24.
Definition emax : Z := 128.

Definition add : spec_float -> spec_float -> spec_float := SFadd prec emax.
Definition sub : spec_float -> spec_float -> spec_float := SFsub prec emax.
Definition mul : spec_float -> spec_float -> spec_float := SFmul prec emax.
Definition div : spec_float -> spec_float -> spec_float := SFdiv prec emax.

(** Conversion of an integer, as in [static_cast<float>(z)] and in the
    usual arithmetic conversions. *)
Definition of_int (z : Z) : spec_float := binary_normalize prec emax z 0 false.

Definition zero : spec_float := S754_zero false.
Definition one : spec_float := of_int 1.
Definition two : spec_float := of_int 2.


Definition is_finite (x : spec_float) : bool :=
  match x with
  | S754_zero _ | S754_finite _ _ _ => true
  | _ => false
  end.


(** The real number that a finite float stands for. *)
Definition value (x : spec_float) : option Q :=
  match x with
  | S754_zero _ => Some 0%Q
  | S754_finite s m e =>
      let sm := if s then Z.neg m else Z.pos m in
      Some (if 0 <=? e then inject_Z (sm * 2 ^ e)
            else Qmake sm (Z.to_pos (2 ^ (- e))))
  | _ => None
  end.


End F32.

(** [double]: binary64. *)
Module F64.
Definition prec : Z := 53.
Definition emax : Z := 1024.

Definition mul : spec_float -> spec_float -> spec_float := SFmul prec emax.
Definition div : spec_float -> spec_float -> spec_float := SFdiv prec emax.
Definition of_int (z : Z) : spec_float := binary_normalize prec emax z 0 false.
End F64.

Abbreviation float := spec_float (only parsing).
Abbreviation double := spec_float (only parsing).

(** The vocabulary of the rounding lemmas, for binary32. *)
Module Round.
(** A zero of sign [s], or a finite float of sign [s] and of magnitude
    at most [2^K]. *)
Definition below (s : bool) (K : Z) (x : spec_float) : Prop :=
  match x with
  | S754_zero s' => s' = s
  | S754_finite s' m e => s' = s /\ e <= K /\ Z.pos m <= 2 ^ (K - e)
  | _ => False
  end.

(** A float of magnitude at most one. *)
Definition unit_range (x : spec_float) : Prop :=
  match x with
  | S754_zero _ => True
  | S754_finite _ m e => e <= 0 /\ Z.pos m <= 2 ^ (- e)
  | _ => False
  end.

(** A float of magnitude at most the integer [N]. *)
Definition bounded_by (N : Z) (x : spec_float) : Prop :=
  match x with
  | S754_zero _ => True
  | S754_finite _ m e => e <= 0 /\ Z.pos m <= N * 2 ^ (- e)
  | _ => False
  end.

(** [z / 2^p] rounded to nearest, ties to even. *)
Definition rne (z p : Z) : Z :=
  let q := z / 2 ^ p in
  let rem := z mod 2 ^ p in
  let half := 2 ^ (p - 1) in
  if rem <? half then q
  else if half <? rem then q + 1
  else if Z.even q then q else q + 1.

(** The integer that [static_cast<float>(z)] stands for. *)
Definition rnd_int (z : Z) : Z :=
  let d := Zdigits2 z in
  if d <=? 24 then z else rne z (d - 24) * 2 ^ (d - 24).
End Round.

(** ** The platform *)

(** An address of the heap. *)
Abbreviation loc := positive (only parsing).

(** What [<cstdlib>], [<ctime>] and [<chrono>] provide. *)
Class Platform := {
  (** [RAND_MAX]: the C standard asks for at least 32767, and [rand]
      returns an [int]. *)
  RAND_MAX : Z;
  RAND_MAX_range : 32767 <= RAND_MAX <= 2147483647;
  (** the state of the process-wide generator, [srand] and [rand] *)
  rng_state : Type;
  srand : Z -> rng_state;
  rand : rng_state -> Z * rng_state;
  rand_range : forall g, 0 <= fst (rand g) <= RAND_MAX;
  (** [time(NULL)] *)
  time_null : Z;
  (** the successive readings of [std::chrono::system_clock::now()], in
      ticks, and the number of ticks in a second *)
  system_clock_now : nat -> Z;
  system_clock_den : Z;
  (** the indeterminate contents of the storage that [new float[k]]
      returns *)
  uninit : loc -> nat -> float
}.

(** ** Program state *)

(** [class Matrix]: the pointer [data] and the public fields [n], [m]. *)
Record Matrix := { data : loc; n : Z; m : Z }.

Inductive stream := cout | cerr.

(** What is inserted into an output stream with [<<]. *)
Inductive item :=
| IFloat (x : float)
| IDouble (x : double)
| IInt (z : Z)
| IStr (s : string)
| IEndl.

(** The observable steps of an execution. *)
Inductive event :=
| Load (M : Matrix) (off : Z)
| Store (M : Matrix) (off : Z)
| Call_dot (a b : Matrix)
| Out (ch : stream) (it : item).

Section Program.
Context `{Platform}.

Record world := {
  mem : gmap loc (list float);
  rng : rng_state;
  clock_reads : nat;
  log : list event
}.

Definition set_mem (f : gmap loc (list float) -> gmap loc (list float)) (w : world) : world :=
  {| mem := f (mem w); rng := rng w; clock_reads := clock_reads w; log := log w |}.

(** Appending to the log. *)
Definition add_log (evs : list event) (w : world) : world :=
  {| mem := mem w; rng := rng w; clock_reads := clock_reads w; log := log w ++ evs |}.

Definition emit (e : event) (w : world) : world := add_log [e] w.

(** A computation either returns a value or faults (undefined behaviour);
    either way it leaves a world behind. *)
Definition Comp (A : Type) : Type := world -> option A * world.

Definition ret {A} (a : A) : Comp A := fun w => (Some a, w).

Definition bind {A B} (c : Comp A) (f : A -> Comp B) : Comp B :=
  fun w =>
    match c w with
    | (Some a, w') => f a w'
    | (None, w') => (None, w')
    end.

End Program.

Declare Scope comp_scope.
Delimit Scope comp_scope with comp.
Notation "x <- c ;; k" := (bind c (fun x => k))
  (at level 100, c at next level, right associativity) : comp_scope.
Notation "c ;;; k" := (bind c (fun _ => k))
  (at level 100, right associativity) : comp_scope.
(** ** The program *)

Section Code.
Context `{Platform}.
Local Open Scope comp_scope.

(** [for (size_t i = 0; i < hi; ++i) body]: [count] iterations from [i],
    threading the locals [s] that the body updates. *)
Fixpoint for_loop {S} (count : nat) (i : Z) (body : Z -> S -> Comp S) (s : S) : Comp S :=
  match count with
  | O => ret s
  | Datatypes.S k => s' <- body i s ;; for_loop k (i + 1) body s'
  end.

Definition for_size {S} (hi : Z) (body : Z -> S -> Comp S) (s : S) : Comp S :=
  for_loop (Z.to_nat hi) 0 body s.

(** *** Storage *)

(** [new float[k]]: fresh storage of [k] floats with indeterminate
    contents.  Storage is taken to be available ([std::bad_alloc] is not
    modelled). *)
Definition new_array (k : Z) : Comp loc :=
  fun w =>
    let l := fresh (dom (mem w)) in
    (Some l, set_mem (insert l (map (uninit l) (seq 0 (Z.to_nat k)))) w).

(** [delete[] p] *)
Definition delete_array (l : loc) : Comp unit :=
  fun w =>
    match mem w !! l with
    | Some _ => (Some tt, set_mem (delete l) w)
    | None => (None, w)
    end.

(** *** class Matrix *)

(** [Matrix(size_t r, size_t c): data(new float[r*c]), n(r), m(c) {}] *)
Definition Matrix_new (r c : Z) : Comp Matrix :=
  l <- new_array (Size.mul r c) ;;
  ret {| data := l; n := r; m := c |}.

(** [~Matrix() { delete[] data; }] *)
Definition Matrix_delete (M : Matrix) : Comp unit := delete_array (data M).

(** The index expression [x*m+y] of both [operator()]. *)
Definition index (M : Matrix) (x y : Z) : Z := Size.add (Size.mul x (m M)) y.

(** Reading [data[off]]; the access is total, with an out-of-bounds
    branch that faults. *)
Definition load (M : Matrix) (off : Z) : Comp float :=
  fun w =>
    let w' := emit (Load M off) w in
    match mem w !! data M with
    | Some buf =>
        match buf !! Z.to_nat off with
        | Some v => (Some v, w')
        | None => (None, w')
        end
    | None => (None, w')
    end.

(** Writing [data[off]].  Outside the array the write is undefined
    behaviour: the run faults at this point, and what such a write would
    do to the heap is not modelled. *)
Definition store (M : Matrix) (off : Z) (v : float) : Comp unit :=
  fun w =>
    let w' := emit (Store M off) w in
    match mem w !! data M with
    | Some buf =>
        if decide (Z.to_nat off < length buf)%nat
        then (Some tt, set_mem (insert (data M) (<[Z.to_nat off := v]> buf)) w')
        else (None, w')
    | None => (None, w')
    end.

(** [float operator() (size_t x, size_t y) const { return data[x*m+y]; }],
    and a read through the reference that the other [operator()] returns. *)
Definition Matrix_get (M : Matrix) (x y : Z) : Comp float := load M (index M x y).

(** [float& operator() (size_t x, size_t y) { return data[x*m+y]; }]
    assigned to. *)
Definition Matrix_set (M : Matrix) (x y : Z) (v : float) : Comp unit :=
  store M (index M x y) v.

(** *** dot *)

(** The loop nest of [dot]: lines 19 to 25. *)
Definition dot_loops (a b c : Matrix) : Comp unit :=
  for_size (n a) (fun i _ =>
    for_size (m b) (fun j _ =>
      s <- for_size (m a) (fun k s =>
             x <- Matrix_get a i k ;;
             y <- Matrix_get b k j ;;
             ret (F32.add s (F32.mul x y))) F32.zero ;;
      Matrix_set c i j s) tt) tt.

(** Lines 18 to 25: the local matrix [c] once the loops have run. *)
Definition dot_result (a b : Matrix) : Comp Matrix :=
  c <- Matrix_new (n a) (m b) ;;
  dot_loops a b c ;;;
  ret c.

(** [float dot(const Matrix &a, const Matrix& b)]; the call is logged, and
    [c] is destroyed when the function returns. *)
Definition dot (a b : Matrix) : Comp float :=
  (fun w => (Some tt, emit (Call_dot a b) w)) ;;;
  c <- dot_result a b ;;
  r <- Matrix_get c 0 0 ;;
  Matrix_delete c ;;;
  ret r.

(** *** fill_rand *)

Definition call_srand (seed : Z) : Comp unit :=
  fun w => (Some tt, {| mem := mem w; rng := srand seed;
                        clock_reads := clock_reads w; log := log w |}).

Definition call_rand : Comp Z :=
  fun w =>
    let (r, g) := rand (rng w) in
    (Some r, {| mem := mem w; rng := g;
                clock_reads := clock_reads w; log := log w |}).

(** [r / static_cast<float>(RAND_MAX) * 2 - 1] for an [int r]: the
    operands are converted to [float] and every operation is a [float]
    operation. *)
Definition rand_value (r : Z) : float :=
  F32.sub (F32.mul (F32.div (F32.of_int r) (F32.of_int RAND_MAX)) (F32.of_int 2))
          (F32.of_int 1).

(** [void fill_rand(Matrix &a)] *)
Definition fill_rand (a : Matrix) : Comp unit :=
  for_size (n a) (fun i _ =>
    for_size (m a) (fun j _ =>
      r <- call_rand ;;
      Matrix_set a i j (rand_value r)) tt) tt.

(** *** main *)

Definition now : Comp Z :=
  fun w => (Some (system_clock_now (clock_reads w)),
            {| mem := mem w; rng := rng w;
               clock_reads := Datatypes.S (clock_reads w); log := log w |}).

(** [stream << it] *)
Definition put (ch : stream) (it : item) : Comp unit :=
  fun w => (Some tt, emit (Out ch it) w).

(** [std::chrono::duration<double> diff = ed-st]: a duration in ticks
    converted to seconds. *)
Definition duration_seconds (st ed : Z) : double :=
  F64.div (F64.of_int (ed - st)) (F64.of_int system_clock_den).

(** [diff.count() * 1e6 / T] *)
Definition average_us (diff : double) (T : Z) : double :=
  F64.div (F64.mul diff (F64.of_int 1000000)) (F64.of_int T).

(** [(unsigned)t] *)
Definition to_unsigned (t : Z) : Z := t mod 2 ^ 32.

(** [int main()] *)
Definition main : Comp Z :=
  call_srand (to_unsigned time_null) ;;;
  let n := 100 in let p := 200 in let m := 50 in let T := 100 in
  a <- Matrix_new n p ;;
  b <- Matrix_new p m ;;
  fill_rand a ;;;
  fill_rand b ;;;
  st <- now ;;
  s <- for_loop (Z.to_nat T) 0 (fun _ s =>
         r <- dot a b ;;
         ret (F32.add s r)) F32.zero ;;
  ed <- now ;;
  let diff := duration_seconds st ed in
  put cerr (IFloat s) ;;; put cerr IEndl ;;;
  put cout (IInt T) ;;; put cout (IStr " loops. average ") ;;;
  put cout (IDouble (average_us diff T)) ;;; put cout (IStr "us") ;;;
  put cout IEndl ;;;
  Matrix_delete b ;;;
  Matrix_delete a ;;;
  ret 0.

End Code.


(** ** A concrete platform *)

(** The generator that the C standard gives as an example
    ([RAND_MAX] = 32767), a clock in nanoseconds and zeroed fresh
    storage. *)
Module StdC.
Definition rand_step (next : Z) : Z * Z :=
  let next' := Size.wrap (next * 1103515245 + 12345) in
  ((next' / 65536) mod 32768, next').

#[refine] Instance platform : Platform := {|
  RAND_MAX := 32767;
  rng_state := Z;
  srand := fun seed => seed;
  rand := rand_step;
  time_null := 1700000000;
  system_clock_now := fun k => 1700000000000000000 + Z.of_nat k * 250000000;
  system_clock_den := 1000000000;
  uninit := fun _ _ => S754_zero false
|}.
Proof.
  - lia.
  - intros g. unfold rand_step. cbn [fst].
    pose proof (Z.mod_pos_bound (Size.wrap (g * 1103515245 + 12345) / 65536) 32768).
    lia.
Defined.

(** The same platform with a clock too coarse to see a run: every
    reading is the same. *)
Definition coarse_clock : Platform := {|
  RAND_MAX := 32767;
  RAND_MAX_range := @RAND_MAX_range platform;
  rng_state := Z;
  srand := fun seed => seed;
  rand := rand_step;
  rand_range := @rand_range platform;
  time_null := 1700000000;
  system_clock_now := fun _ => 1700000000000000000;
  system_clock_den := 1000000000;
  uninit := fun _ _ => S754_zero false
|}.
End StdC.

(** ** The vocabulary of the specification *)

Section Views.
Context `{Platform}.
Local Open Scope comp_scope.

(** The array a matrix points to. *)
Definition buffer (w : world) (M : Matrix) : option (list float) := mem w !! data M.

(** The data model's invariant: positive dimensions whose product is a
    [size_t], and a live array of exactly [rows * cols] floats. *)
Definition matrix_ok (w : world) (M : Matrix) : Prop :=
  0 < n M /\ 0 < m M /\ n M * m M <= Size.SIZE_MAX /\
  length <$> buffer w M = Some (Z.to_nat (n M * m M)).

(** The same with dimensions that may be zero: what the constructor
    gives for [Matrix(r, 0)] and [Matrix(0, c)]. *)
Definition matrix_live (w : world) (M : Matrix) : Prop :=
  0 <= n M /\ 0 <= m M /\ n M * m M <= Size.SIZE_MAX /\
  length <$> buffer w M = Some (Z.to_nat (n M * m M)).

Definition in_range (M : Matrix) (i j : Z) : Prop :=
  0 <= i < n M /\ 0 <= j < m M.

(** The element in row [i], column [j] of a row-major array. *)
Definition elem (w : world) (M : Matrix) (i j : Z) : option float :=
  buffer w M ≫= fun buf => buf !! Z.to_nat (i * m M + j).

Definition entry (w : world) (M : Matrix) (i j : Z) : float :=
  default F32.zero (elem w M i j).

(** [0, 1, ..., p-1] *)
Definition upto (p : Z) : list Z := map Z.of_nat (seq 0 (Z.to_nat p)).

(** The single-precision accumulation, over [k] ascending from [0] to
    [p-1] and starting from [0], of [A(i,k) * B(k,j)]. *)
Definition dot_sum (w : world) (a b : Matrix) (i j : Z) : float :=
  fold_left (fun s k => F32.add s (F32.mul (entry w a i k) (entry w b k j)))
            (upto (m a)) F32.zero.

(** An element access of the kernel that stays inside the accessed
    matrix: a read of [a], [b] or [c], or a write of [c], at an offset
    below [rows * cols]. *)
Definition kernel_access (a b c : Matrix) (e : event) : Prop :=
  match e with
  | Load M off => (M = a \/ M = b \/ M = c) /\ 0 <= off < n M * m M
  | Store M off => M = c /\ 0 <= off < n M * m M
  | _ => False
  end.

(** [i, i+1, ..., i+count-1] *)
Definition from (i : Z) (count : nat) : list Z :=
  map (fun k => i + Z.of_nat k) (seq 0 count).

(** The element accesses of [dot] in the order in which they happen:
    for each cell of [c], the reads of a row of [a] and of a column of
    [b], interleaved, and then the write of the cell; at the end the read
    of [c(0, 0)]. *)
Definition cell_trace (a b c : Matrix) (i j : Z) : list event :=
  flat_map (fun k => [Load a (i * m a + k); Load b (k * m b + j)]) (upto (m a)) ++
  [Store c (i * m c + j)].

Definition loops_trace (a b c : Matrix) : list event :=
  flat_map (fun i => flat_map (cell_trace a b c i) (upto (m b))) (upto (n a)).

Definition dot_trace (a b c : Matrix) : list event :=
  loops_trace a b c ++ [Load c 0].

(** The cells that come before [(i, j)] in the order of the loops. *)
Definition before (i j i' j' : Z) : Prop := i' < i \/ (i' = i /\ j' < j).

(** What holds when the loops of [dot], started in [w0], reach cell
    [(i, j)]. *)
Definition dot_inv (w0 : world) (a b c : Matrix) (i j : Z) (w : world) : Prop :=
  (forall l, l <> data c -> mem w !! l = mem w0 !! l) /\
  rng w = rng w0 /\ clock_reads w = clock_reads w0 /\
  matrix_ok w c /\
  (forall i' j', in_range c i' j' -> before i j i' j' ->
                 elem w c i' j' = Some (dot_sum w0 a b i' j')) /\
  (exists evs, log w = log w0 ++ evs /\ Forall (kernel_access a b c) evs).

(** The generator after [k] calls of [rand], and the value that call
    number [k] (from 0) returns. *)
Definition rand_state (g : rng_state) (k : nat) : rng_state :=
  Nat.iter k (fun g => snd (rand g)) g.

Definition rand_nth (g : rng_state) (k : nat) : Z := fst (rand (rand_state g k)).

Definition is_store_to (M : Matrix) (e : event) : Prop :=
  exists off, e = Store M off.

Definition is_fill_store (a b : Matrix) (e : event) : Prop :=
  is_store_to a e \/ is_store_to b e.

(** What holds when the loops of [fill_rand], started in [w0], reach
    cell [(i, j)]. *)
Definition fill_inv (w0 : world) (M : Matrix) (i j : Z) (w : world) : Prop :=
  (forall l, l <> data M -> mem w !! l = mem w0 !! l) /\
  rng w = rand_state (rng w0) (Z.to_nat (i * m M + j)) /\
  clock_reads w = clock_reads w0 /\
  matrix_ok w M /\
  (forall i' j', in_range M i' j' -> before i j i' j' ->
     elem w M i' j' = Some (rand_value (rand_nth (rng w0) (Z.to_nat (i' * m M + j'))))) /\
  (exists evs, log w = log w0 ++ evs /\ Forall (is_store_to M) evs).

(** The kernel invocations and the output of a run, in order. *)
Definition dot_calls (evs : list event) : list (Matrix * Matrix) :=
  omap (fun e => match e with Call_dot a b => Some (a, b) | _ => None end) evs.

Definition outputs (evs : list event) : list (stream * item) :=
  omap (fun e => match e with Out ch it => Some (ch, it) | _ => None end) evs.

(** What [main] writes: the accumulated sum on [cerr], then the report
    on [cout]. *)
Definition report (s : float) (X : double) : list (stream * item) :=
  [ (cerr, IFloat s); (cerr, IEndl);
    (cout, IInt 100); (cout, IStr " loops. average ");
    (cout, IDouble X); (cout, IStr "us"); (cout, IEndl) ].

(** *** The numbers of the report, in the words of the specification

    They are written with the operations of IEEE 754 alone, and not with
    the definitions of the program. *)










(** The arrays at the addresses in [L] are the same in both worlds. *)
Definition same_on (L : loc -> Prop) (w w' : world) : Prop :=
  forall l, L l -> mem w' !! l = mem w !! l.

(** Every array that is live in [w] is live in [w'], with its length. *)
Definition keeps_len (w w' : world) : Prop :=
  forall l buf, mem w !! l = Some buf ->
    exists buf', mem w' !! l = Some buf' /\ length buf' = length buf.

(** A relation between the world before and the world after that a
    computation respects, whether it returns or faults. *)
Definition stable (R : world -> world -> Prop) {A} (c : Comp A) : Prop :=
  forall w, R w (snd (c w)).

(** What the program does with matrices between their construction and
    their destruction. *)
Inductive operation :=
| Op_get (M : Matrix) (i j : Z)
| Op_set (M : Matrix) (i j : Z) (v : float)
| Op_fill (M : Matrix)
| Op_dot (a b : Matrix)
| Op_new (r c : Z).

Definition run_op (o : operation) : Comp unit :=
  match o with
  | Op_get M i j => Matrix_get M i j ;;; ret tt
  | Op_set M i j v => Matrix_set M i j v
  | Op_fill M => fill_rand M
  | Op_dot a b => dot a b ;;; ret tt
  | Op_new r c => Matrix_new r c ;;; ret tt
  end.

Fixpoint run_ops (os : list operation) : Comp unit :=
  match os with
  | [] => ret tt
  | o :: os' => run_op o ;;; run_ops os'
  end.



(** The product of two integer matrices with [p] terms, cell
    [(i, j)]. *)
Definition int_dot (A B : Z -> Z -> Z) (p i j : Z) : Z :=
  fold_left (fun s k => s + A i k * B k j) (upto p) 0.

(** The entries of [M] are the floats of the integers [A], which have
    magnitude at most [bound]. *)
Definition holds_integers (w : world) (M : Matrix) (A : Z -> Z -> Z) (bound : Z) : Prop :=
  forall i j, in_range M i j ->
    elem w M i j = Some (F32.of_int (A i j)) /\ Z.abs (A i j) <= bound.

(** [T] is the transpose of [M]. *)
Definition transposed (w : world) (M T : Matrix) : Prop :=
  n T = m M /\ m T = n M /\
  forall i j, in_range M i j -> elem w T j i = elem w M i j.

(** Every entry has magnitude at most one. *)
Definition within_unit (w : world) (M : Matrix) : Prop :=
  forall i j, in_range M i j ->
    exists x, elem w M i j = Some x /\ Round.unit_range x.

End Views.

(** ** Concrete inputs *)

Module Examples.
Local Existing Instance StdC.platform.

Definition lit (z : Z) : float := F32.of_int z.

Definition world_of (h : gmap loc (list float)) (g : Z) : world :=
  {| mem := h; rng := g; clock_reads := 0%nat; log := [] |}.

Definition w_init : world := world_of ∅ 1.

(** [A = [[1,2],[3,4]]], [B = [[5,6],[7,8]]] and the identity. *)
Definition w22 : world :=
  world_of {[ 1%positive := map lit [1; 2; 3; 4];
              2%positive := map lit [5; 6; 7; 8];
              3%positive := map lit [1; 0; 0; 1] ]} 1.
Definition A22 : Matrix := {| data := 1; n := 2; m := 2 |}.
Definition B22 : Matrix := {| data := 2; n := 2; m := 2 |}.
Definition I22 : Matrix := {| data := 3; n := 2; m := 2 |}.



(** A column of [2^32] floats and a row of [2^32] floats: their product
    would have [2^64] elements. *)
Definition big : Z := 4294967296.
Definition w_big : world :=
  world_of {[ 1%positive := replicate (Z.to_nat big) F32.zero;
              2%positive := replicate (Z.to_nat big) F32.zero ]} 1.
Definition a_big : Matrix := {| data := 1; n := big; m := 1 |}.
Definition b_big : Matrix := {| data := 2; n := 1; m := big |}.

(** A row [[1, 2]], a matrix of three rows [[5, 6], [7, 8], [9, 10]] and
    a matrix of one row [[5, 6]]. *)
Definition w_shapes : world :=
  world_of {[ 1%positive := map lit [1; 2];
              2%positive := map lit [5; 6; 7; 8; 9; 10];
              3%positive := map lit [5; 6] ]} 1.
Definition A12 : Matrix := {| data := 1; n := 1; m := 2 |}.
Definition B32 : Matrix := {| data := 2; n := 3; m := 2 |}.
Definition B12 : Matrix := {| data := 3; n := 1; m := 2 |}.

(** Matrices without elements: two rows of no column, and no row of
    three columns. *)
Definition w_empty : world := world_of {[ 1%positive := []; 2%positive := [] ]} 1.
Definition A20 : Matrix := {| data := 1; n := 2; m := 0 |}.
Definition B03 : Matrix := {| data := 2; n := 0; m := 3 |}.

(** [A], [B] and their transposes. *)
Definition w_transposes : world :=
  world_of {[ 1%positive := map lit [1; 2; 3; 4];
              2%positive := map lit [5; 6; 7; 8];
              3%positive := map lit [1; 3; 2; 4];
              4%positive := map lit [5; 7; 6; 8] ]} 1.
Definition TA22 : Matrix := {| data := 3; n := 2; m := 2 |}.
Definition TB22 : Matrix := {| data := 4; n := 2; m := 2 |}.

(** The start of a run under the coarse clock. *)
Definition w_coarse : @world StdC.coarse_clock :=
  @Build_world StdC.coarse_clock ∅ 1 0%nat [].
End Examples.

(** ** Tactics *)

(** Conjunctions of closed arithmetic facts and lookups. *)
Ltac by_computation :=
  repeat split; try reflexivity; try (vm_compute; discriminate).

(** The cells of a matrix with two rows or columns at most. *)
Ltac small_cells :=
  repeat match goal with
         | H : in_range _ _ _ |- _ => unfold in_range in H; simpl in H; destruct H as [? ?]
         end;
  repeat match goal with
         | H : 0 <= ?k < 1 |- _ => assert (k = 0) by lia; clear H; subst k
         | H : 0 <= ?k < 2 |- _ =>
             let E := fresh in assert (E : k = 0 \/ k = 1) by lia; clear H;
             destruct E; subst k
         end.

(* ===================================================================== *)
(** * Part II: lemmas *)

(** ** Rounding in binary32 *)

Section RoundFacts.
Lemma iter_pos_nat {A} (f : A -> A) p x : SpecFloat.iter_pos f p x = Nat.iter (Pos.to_nat p) f x.
Proof.
  revert x. induction p as [p IH | p IH |]; intros x.
  - change (SpecFloat.iter_pos f p~1 x) with (SpecFloat.iter_pos f p (SpecFloat.iter_pos f p (f x))).
    rewrite !IH, Pos2Nat.inj_xI.
    rewrite <- Nat.iter_succ_r, <- Nat.iter_add. f_equal. lia.
  - change (SpecFloat.iter_pos f p~0 x) with (SpecFloat.iter_pos f p (SpecFloat.iter_pos f p x)).
    rewrite !IH, Pos2Nat.inj_xO, <- Nat.iter_add. f_equal. lia.
  - reflexivity.
Qed.

Lemma digits2_size p : digits2_pos p = Pos.size p.
Proof. induction p; simpl; congruence. Qed.

(** [2^(d-1) <= m < 2^d] for the number of digits [d] of [m > 0]. *)
Lemma Zdigits2_bounds m :
  0 < m -> 2 ^ (Zdigits2 m - 1) <= m < 2 ^ Zdigits2 m.
Proof.
  intros Hm. destruct m as [|p|p]; try lia.
  change (Zdigits2 (Z.pos p)) with (Z.pos (digits2_pos p)).
  rewrite digits2_size.
  pose proof (Pos.size_gt p) as Hgt. pose proof (Pos.size_le p) as Hle.
  apply Pos2Z.pos_lt_pos in Hgt. apply Pos2Z.pos_le_pos in Hle.
  rewrite Pos2Z.inj_pow in Hgt, Hle.
  change (Z.pos p~0) with (2 * Z.pos p) in Hle.
  replace (Z.pos (Pos.size p)) with (Z.succ (Z.pos (Pos.size p) - 1)) in Hle at 1 by lia.
  rewrite Z.pow_succ_r in Hle by lia.
  change (Z.pos 2) with 2 in *. lia.
Qed.

Lemma Zdigits2_nonneg m : 0 <= Zdigits2 m.
Proof. destruct m; simpl; lia. Qed.

Lemma Zdigits2_le_pow m k :
  0 <= m -> 0 <= k -> m <= 2 ^ k -> Zdigits2 m <= k + 1.
Proof.
  intros Hm Hk Hle. destruct (Z.eq_dec m 0) as [-> | Hne]; [simpl; lia |].
  destruct (Zdigits2_bounds m) as [Hlo _]; [lia |].
  destruct (Z.le_gt_cases (Zdigits2 m) (k + 1)) as [|Hgt]; [assumption | exfalso].
  assert (2 ^ (k + 1) <= 2 ^ (Zdigits2 m - 1)) by (apply Z.pow_le_mono_r; lia).
  assert (2 ^ k < 2 ^ (k + 1)) by (apply Z.pow_lt_mono_r; lia).
  lia.
Qed.

Lemma Zdigits2_lt_pow m k :
  0 <= m -> 0 <= k -> m < 2 ^ k -> Zdigits2 m <= k.
Proof.
  intros Hm Hk Hlt. destruct (Z.eq_dec m 0) as [-> | Hne]; [simpl; lia |].
  destruct (Zdigits2_bounds m) as [Hlo _]; [lia |].
  destruct (Z.le_gt_cases (Zdigits2 m) k) as [|Hgt]; [assumption | exfalso].
  assert (2 ^ k <= 2 ^ (Zdigits2 m - 1)) by (apply Z.pow_le_mono_r; lia).
  lia.
Qed.

(** One step of [shr_1] halves the mantissa. *)
Lemma shr_1_m mrs : 0 <= shr_m mrs -> shr_m (shr_1 mrs) = shr_m mrs / 2.
Proof.
  destruct mrs as [m r s]. simpl. intros Hm.
  rewrite <- Z.div2_div.
  destruct m as [|[p|p|]|p]; try reflexivity; lia.
Qed.

Lemma shr_1_r mrs : 0 <= shr_m mrs -> shr_r (shr_1 mrs) = Z.odd (shr_m mrs).
Proof.
  destruct mrs as [m r s]. simpl. intros Hm.
  destruct m as [|[p|p|]|p]; try reflexivity; lia.
Qed.

Lemma shr_1_s mrs : shr_s (shr_1 mrs) = shr_r mrs || shr_s mrs.
Proof.
  destruct mrs as [m r s]. simpl.
  destruct m as [|[p|p|]|[p|p|]]; reflexivity.
Qed.

Lemma shr_iter_m k mrs :
  0 <= shr_m mrs -> shr_m (Nat.iter k shr_1 mrs) = shr_m mrs / 2 ^ Z.of_nat k.
Proof.
  intros Hm. induction k as [|k IH].
  - simpl. now rewrite Z.div_1_r.
  - rewrite Nat.iter_succ, shr_1_m.
    + rewrite IH, Nat2Z.inj_succ, Z.pow_succ_r by lia.
      rewrite Z.div_div by lia. f_equal. lia.
    + rewrite IH. apply Z.div_pos; lia.
Qed.

Lemma shr_1_eq q r s :
  0 <= q ->
  shr_1 (Build_shr_record q r s) = Build_shr_record (q / 2) (Z.odd q) (r || s).
Proof.
  intros Hq.
  pose proof (shr_1_m (Build_shr_record q r s) Hq) as E1.
  pose proof (shr_1_r (Build_shr_record q r s) Hq) as E2.
  pose proof (shr_1_s (Build_shr_record q r s)) as E3.
  destruct (shr_1 (Build_shr_record q r s)). simpl in *. congruence.
Qed.

(** After [k+1] steps from an exact record: the quotient, the bit below
    it and whether anything lies further down. *)
Lemma shr_iter_exact k m :
  0 <= m ->
  Nat.iter (S k) shr_1 (Build_shr_record m false false) =
  Build_shr_record (m / 2 ^ Z.of_nat (S k)) (Z.testbit m (Z.of_nat k))
                   (negb (m mod 2 ^ Z.of_nat k =? 0)).
Proof.
  intros Hm. induction k as [|k IH].
  - change (Nat.iter 1 shr_1 ?x) with (shr_1 x). rewrite shr_1_eq by assumption.
    change (Z.of_nat 1) with 1. change (Z.of_nat 0) with 0.
    rewrite Z.pow_1_r, Z.pow_0_r, Z.mod_1_r, Z.bit0_odd. reflexivity.
  - rewrite Nat.iter_succ, IH.
    set (q := m / 2 ^ Z.of_nat (S k)).
    assert (Hq : 0 <= q) by (apply Z.div_pos; lia).
    rewrite shr_1_eq by assumption. f_equal.
    + unfold q. rewrite Z.div_div by lia.
      f_equal. rewrite (Nat2Z.inj_succ (S k)), Z.pow_succ_r by lia. lia.
    + unfold q. rewrite Z.testbit_odd, Z.shiftr_div_pow2 by lia. reflexivity.
    + rewrite (Nat2Z.inj_succ k).
      pose proof (Z.testbit_spec' m (Z.of_nat k) ltac:(lia)) as Hb.
      set (P := 2 ^ Z.of_nat k) in *.
      assert (HP : 0 < P) by (apply Z.pow_pos_nonneg; lia).
      rewrite Z.pow_succ_r by lia. fold P.
      assert (Hdm : m mod (2 * P) = P * ((m / P) mod 2) + m mod P).
      { rewrite (Z.mul_comm 2 P). rewrite Z.rem_mul_r by lia. lia. }
      rewrite Hdm, <- Hb.
      pose proof (Z.mod_pos_bound m P HP).
      clear IH Hb.
      destruct (Z.testbit m (Z.of_nat k)); cbn [Z.b2z];
        destruct (Z.eqb_spec (m mod P) 0) as [E2 | E2];
        match goal with |- context [?x =? 0] => destruct (Z.eqb_spec x 0) as [E3 | E3] end;
        simpl; try reflexivity; exfalso; nia.
Qed.

Lemma shr_record_of_loc_m m l : shr_m (shr_record_of_loc m l) = m.
Proof. now destruct l as [|[]]. Qed.

Lemma round_nearest_even_bounds x l :
  x <= round_nearest_even x l <= x + 1.
Proof.
  unfold round_nearest_even. destruct l as [|[]]; try lia.
  destruct (Z.even x); lia.
Qed.

Lemma pow2_split a b : 0 <= b <= a -> 2 ^ a = 2 ^ b * 2 ^ (a - b).
Proof. intros H. rewrite <- Z.pow_add_r by lia. f_equal. lia. Qed.

(** The right shift that brings a mantissa to its format exponent keeps
    it under a power of two. *)
Lemma shr_fexp_bound m e l K :
  0 <= m -> -149 <= K -> e <= K -> m <= 2 ^ (K - e) ->
  exists mrs e',
    shr_fexp 24 128 m e l = (mrs, e') /\
    e <= e' <= K /\
    shr_m mrs = m / 2 ^ (e' - e) /\
    0 <= shr_m mrs <= 2 ^ (K - e') /\
    (m < 2 ^ (K - e) -> shr_m mrs < 2 ^ (K - e')) /\
    (l = loc_Exact -> m mod 2 ^ (e' - e) = 0 -> loc_of_shr_record mrs = loc_Exact).
Proof.
  intros Hm HK He Hle.
  assert (Hd : Zdigits2 m <= K - e + 1) by (apply Zdigits2_le_pow; lia).
  pose proof (Zdigits2_nonneg m) as Hd0.
  unfold shr_fexp, shr.
  set (nn := fexp 24 128 (Zdigits2 m + e) - e).
  assert (Hnn : nn <= K - e).
  { unfold nn, fexp, emin. lia. }
  destruct nn as [|p|p] eqn:En.
  - eexists _, _. split; [reflexivity |].
    rewrite shr_record_of_loc_m, Z.sub_diag, Z.pow_0_r, Z.div_1_r.
    repeat split; try lia.
    intros -> _. reflexivity.
  - eexists _, _. split; [reflexivity |].
    rewrite iter_pos_nat.
    replace (e + Z.pos p - e) with (Z.pos p) by lia.
    assert (Hm' : shr_m (Nat.iter (Pos.to_nat p) shr_1 (shr_record_of_loc m l)) = m / 2 ^ Z.pos p).
    { rewrite shr_iter_m by (rewrite shr_record_of_loc_m; lia).
      now rewrite shr_record_of_loc_m, positive_nat_Z. }
    rewrite Hm'.
    assert (HP : 0 < 2 ^ Z.pos p) by (apply Z.pow_pos_nonneg; lia).
    assert (Hsplit : 2 ^ (K - e) = 2 ^ Z.pos p * 2 ^ (K - (e + Z.pos p))).
    { rewrite (pow2_split (K - e) (Z.pos p)) by lia. do 2 f_equal. lia. }
    assert (HQ : 0 < 2 ^ (K - (e + Z.pos p))) by (apply Z.pow_pos_nonneg; lia).
    repeat split; try lia.
    + apply Z.div_pos; lia.
    + apply Z.div_le_upper_bound; lia.
    + intros Hlt. apply Z.div_lt_upper_bound; lia.
    + intros -> Hmod.
      destruct (Pos2Nat.is_succ p) as [k Ek]. rewrite Ek.
      change (shr_record_of_loc m loc_Exact) with (Build_shr_record m false false).
      rewrite shr_iter_exact by assumption.
      assert (Ep : Z.pos p = Z.succ (Z.of_nat k)) by lia.
      rewrite Ep, Z.pow_succ_r in Hmod by lia.
      set (P := 2 ^ Z.of_nat k) in *.
      assert (HPk : 0 < P) by (apply Z.pow_pos_nonneg; lia).
      assert (Hdm : m mod (2 * P) = P * ((m / P) mod 2) + m mod P).
      { rewrite (Z.mul_comm 2 P). rewrite Z.rem_mul_r by lia. lia. }
      pose proof (Z.mod_pos_bound m P HPk).
      pose proof (Z.mod_pos_bound (m / P) 2 ltac:(lia)).
      assert (E1 : m mod P = 0) by nia.
      assert (E2 : (m / P) mod 2 = 0) by nia.
      pose proof (Z.testbit_spec' m (Z.of_nat k) ltac:(lia)) as Hb. fold P in Hb.
      rewrite E2 in Hb. destruct (Z.testbit m (Z.of_nat k)); [discriminate |].
      rewrite E1. reflexivity.
  - eexists _, _. split; [reflexivity |].
    rewrite shr_record_of_loc_m, Z.sub_diag, Z.pow_0_r, Z.div_1_r.
    repeat split; try lia.
    intros -> _. reflexivity.
Qed.

(** Rounding does not cross a power of two. *)
Lemma binary_round_aux_below s m e l K :
  0 <= m -> -149 <= K <= 104 -> e <= K ->
  m < 2 ^ (K - e) \/ (m = 2 ^ (K - e) /\ l = loc_Exact) ->
  Round.below s K (binary_round_aux 24 128 s m e l).
Proof.
  intros Hm HK He Hcase.
  assert (Hle : m <= 2 ^ (K - e)) by (destruct Hcase as [? | [? _]]; lia).
  destruct (shr_fexp_bound m e l K) as (mrs1 & e1 & E1 & He1 & Hm1 & Hb1 & Hlt1 & Hex1);
    try lia.
  unfold binary_round_aux. rewrite E1.
  set (m1 := round_nearest_even (shr_m mrs1) (loc_of_shr_record mrs1)).
  assert (Hm1b : 0 <= m1 <= 2 ^ (K - e1)).
  { pose proof (round_nearest_even_bounds (shr_m mrs1) (loc_of_shr_record mrs1)) as Hr.
    fold m1 in Hr. destruct Hcase as [Hlt | [Heq ->]].
    - specialize (Hlt1 Hlt). lia.
    - unfold m1. rewrite Hex1; [simpl; lia | reflexivity |].
      rewrite Heq, (pow2_split (K - e) (e1 - e)) by lia.
      rewrite Z.mul_comm. apply Z.mod_mul.
      apply Z.pow_nonzero; lia. }
  destruct (shr_fexp_bound m1 e1 loc_Exact K) as (mrs2 & e2 & E2 & He2 & Hm2 & Hb2 & _);
    try lia.
  rewrite E2.
  destruct (shr_m mrs2) as [|p|p] eqn:Ep.
  - reflexivity.
  - destruct (Z.leb_spec e2 (128 - 24)) as [_ | Hgt]; [| lia].
    simpl. repeat split; lia.
  - lia.
Qed.

Lemma Zdigits2_unique m d :
  0 < m -> 2 ^ (d - 1) <= m < 2 ^ d -> Zdigits2 m = d.
Proof.
  intros Hm [Hlo Hhi]. destruct (Zdigits2_bounds m Hm) as [Hlo' Hhi'].
  pose proof (Zdigits2_nonneg m) as Hn.
  assert (Hd : 0 < d).
  { destruct (Z.lt_ge_cases 0 d) as [|Hle]; [assumption | exfalso].
    assert (2 ^ d <= 2 ^ 0) by (apply Z.pow_le_mono_r; lia).
    change (2 ^ 0) with 1 in *. lia. }
  destruct (Z.lt_trichotomy (Zdigits2 m) d) as [Hlt | [E | Hgt]]; [exfalso | assumption | exfalso].
  - assert (2 ^ Zdigits2 m <= 2 ^ (d - 1)) by (apply Z.pow_le_mono_r; lia). lia.
  - assert (2 ^ d <= 2 ^ (Zdigits2 m - 1)) by (apply Z.pow_le_mono_r; lia). lia.
Qed.

Lemma Zdigits2_mul_pow2 m k :
  0 < m -> 0 <= k -> Zdigits2 (m * 2 ^ k) = Zdigits2 m + k.
Proof.
  intros Hm Hk. destruct (Zdigits2_bounds m Hm) as [Hlo Hhi].
  assert (HP : 0 < 2 ^ k) by (apply Z.pow_pos_nonneg; lia).
  assert (Hd : 0 < Zdigits2 m).
  { destruct m; simpl; lia. }
  apply Zdigits2_unique; [nia |].
  replace (Zdigits2 m + k - 1) with (Zdigits2 m - 1 + k) by lia.
  rewrite !Z.pow_add_r by lia. nia.
Qed.

Lemma Zdigits2_mono a b : 0 < a <= b -> Zdigits2 a <= Zdigits2 b.
Proof.
  intros [Ha Hab].
  destruct (Zdigits2_bounds a Ha) as [Hlo _].
  destruct (Zdigits2_bounds b ltac:(lia)) as [_ Hhi].
  destruct (Z.le_gt_cases (Zdigits2 a) (Zdigits2 b)) as [|Hgt]; [assumption | exfalso].
  assert (2 ^ Zdigits2 b <= 2 ^ (Zdigits2 a - 1)) by (apply Z.pow_le_mono_r; [lia |]; lia).
  lia.
Qed.

Lemma pos_iter_xO m d : Z.pos (Pos.iter xO m d) = Z.pos m * 2 ^ Z.pos d.
Proof.
  induction d as [|d IH] using Pos.peano_ind.
  - simpl. lia.
  - rewrite Pos.iter_succ, Pos2Z.inj_xO, IH, Pos2Z.inj_succ, Z.pow_succ_r by lia. lia.
Qed.

(** [shl_align] keeps the value and reaches the asked exponent when it
    is below the given one. *)
Lemma shl_align_spec m e e' :
  e' <= e ->
  exists m', shl_align m e e' = (m', e') /\ Z.pos m' = Z.pos m * 2 ^ (e - e').
Proof.
  intros Hle. unfold shl_align.
  destruct (e' - e) as [|d|d] eqn:Ed; try lia.
  - exists m. assert (e' = e) as -> by lia. split; [reflexivity |].
    rewrite Z.sub_diag. simpl. lia.
  - eexists. split; [reflexivity |]. rewrite pos_iter_xO. do 2 f_equal. lia.
Qed.

Lemma shl_align_above m e e' : e <= e' -> shl_align m e e' = (m, e).
Proof.
  intros Hle. unfold shl_align. destruct (e' - e) as [|d|d] eqn:Ed; try reflexivity; lia.
Qed.

(** A mantissa of 24 digits with an exponent in range is its own
    rounding. *)
Lemma binary_round_aux_canonical s m e :
  Zdigits2 (Z.pos m) = 24 -> -149 <= e <= 104 ->
  binary_round_aux 24 128 s (Z.pos m) e loc_Exact = S754_finite s m e.
Proof.
  intros Hd He.
  assert (E : shr_fexp 24 128 (Z.pos m) e loc_Exact = (Build_shr_record (Z.pos m) false false, e)).
  { unfold shr_fexp. rewrite Hd.
    replace (fexp 24 128 (24 + e) - e) with 0 by (unfold fexp, emin; lia).
    reflexivity. }
  unfold binary_round_aux. rewrite E.
  cbn [shr_m loc_of_shr_record round_nearest_even]. rewrite E. cbn [shr_m].
  destruct (Z.leb_spec e (128 - 24)); [reflexivity | lia].
Qed.

Lemma rne_bounds z p : z / 2 ^ p <= Round.rne z p <= z / 2 ^ p + 1.
Proof.
  unfold Round.rne. cbv zeta.
  destruct (_ <? _); [lia |]. destruct (_ <? _); [lia |]. destruct (Z.even _); lia.
Qed.

Lemma rne_mono r M p : 0 < p -> 0 <= r <= M -> Round.rne r p <= Round.rne M p.
Proof.
  intros Hp [Hr HrM].
  assert (HP : 0 < 2 ^ p) by (apply Z.pow_pos_nonneg; lia).
  pose proof (Z.div_le_mono r M (2 ^ p) HP HrM) as Hq.
  pose proof (rne_bounds r p) as Br. pose proof (rne_bounds M p) as BM.
  destruct (Z.eq_dec (r / 2 ^ p) (M / 2 ^ p)) as [Eq | Hne]; [| lia].
  assert (Hrem : r mod 2 ^ p <= M mod 2 ^ p).
  { pose proof (Z.div_mod r (2 ^ p) ltac:(lia)).
    pose proof (Z.div_mod M (2 ^ p) ltac:(lia)). nia. }
  unfold Round.rne in *. cbv zeta in *. rewrite <- Eq in *.
  destruct (Z.ltb_spec (r mod 2 ^ p) (2 ^ (p - 1)));
  destruct (Z.ltb_spec (M mod 2 ^ p) (2 ^ (p - 1)));
  destruct (Z.ltb_spec (2 ^ (p - 1)) (r mod 2 ^ p));
  destruct (Z.ltb_spec (2 ^ (p - 1)) (M mod 2 ^ p));
  destruct (Z.even (r / 2 ^ p)); lia.
Qed.

(** The rounding that the shifted record asks for is [rne]. *)
Lemma round_shr_rne k m :
  0 <= m ->
  let R := Nat.iter (S k) shr_1 (Build_shr_record m false false) in
  round_nearest_even (shr_m R) (loc_of_shr_record R) = Round.rne m (Z.of_nat (S k)).
Proof.
  intros Hm R. unfold R. rewrite shr_iter_exact by assumption.
  unfold Round.rne. cbv zeta.
  replace (Z.of_nat (S k) - 1) with (Z.of_nat k) by lia.
  rewrite (Nat2Z.inj_succ k), Z.pow_succ_r by lia.
  pose proof (Z.testbit_spec' m (Z.of_nat k) ltac:(lia)) as Hb.
  set (P := 2 ^ Z.of_nat k) in *.
  assert (HP : 0 < P) by (apply Z.pow_pos_nonneg; lia).
  assert (Hdm : m mod (2 * P) = P * ((m / P) mod 2) + m mod P).
  { rewrite (Z.mul_comm 2 P). rewrite Z.rem_mul_r by lia. lia. }
  rewrite Hdm, <- Hb.
  pose proof (Z.mod_pos_bound m P HP).
  cbn [shr_m loc_of_shr_record].
  destruct (Z.testbit m (Z.of_nat k)); cbn [Z.b2z];
    destruct (Z.eqb_spec (m mod P) 0) as [E2 | E2]; cbn [negb round_nearest_even];
    repeat match goal with
           | |- context [?x <? ?y] => destruct (Z.ltb_spec x y)
           end; try reflexivity; try lia.
Qed.

Lemma quotient_24_digits z :
  0 < z -> 24 < Zdigits2 z ->
  2 ^ 23 <= z / 2 ^ (Zdigits2 z - 24) < 2 ^ 24.
Proof.
  intros Hz Hd. destruct (Zdigits2_bounds z Hz) as [Hlo Hhi].
  set (p := Zdigits2 z - 24) in *.
  assert (HP : 0 < 2 ^ p) by (apply Z.pow_pos_nonneg; lia).
  assert (E1 : 2 ^ (Zdigits2 z - 1) = 2 ^ p * 2 ^ 23).
  { rewrite <- Z.pow_add_r by lia. f_equal. lia. }
  assert (E2 : 2 ^ Zdigits2 z = 2 ^ p * 2 ^ 24).
  { rewrite <- Z.pow_add_r by lia. f_equal. lia. }
  split.
  - apply Z.div_le_lower_bound; lia.
  - apply Z.div_lt_upper_bound; lia.
Qed.

Lemma rnd_int_mono r M : 0 < r <= M -> Round.rnd_int r <= Round.rnd_int M.
Proof.
  intros [Hr HrM]. assert (HM : 0 < M) by lia.
  pose proof (Zdigits2_mono r M ltac:(lia)) as Hd.
  unfold Round.rnd_int. cbv zeta.
  destruct (Z.leb_spec (Zdigits2 r) 24) as [Hr24 | Hr24];
  destruct (Z.leb_spec (Zdigits2 M) 24) as [HM24 | HM24]; try lia.
  - (* r under 2^24, M above *)
    destruct (Zdigits2_bounds r Hr) as [_ Hhi].
    assert (2 ^ Zdigits2 r <= 2 ^ 24) by (apply Z.pow_le_mono_r; lia).
    pose proof (quotient_24_digits M HM HM24) as [Hq _].
    pose proof (rne_bounds M (Zdigits2 M - 24)) as [Hb _].
    assert (2 ^ 1 <= 2 ^ (Zdigits2 M - 24)) by (apply Z.pow_le_mono_r; lia).
    change (2 ^ 1) with 2 in *. change (2 ^ 24) with (2 * 2 ^ 23) in *. nia.
  - destruct (Z.eq_dec (Zdigits2 r) (Zdigits2 M)) as [E | Hne].
    + rewrite E. apply Z.mul_le_mono_nonneg_r; [apply Z.pow_nonneg; lia |].
      apply rne_mono; lia.
    + pose proof (quotient_24_digits r Hr Hr24) as [_ Hqr].
      pose proof (quotient_24_digits M HM HM24) as [HqM _].
      pose proof (rne_bounds r (Zdigits2 r - 24)) as [_ Hbr].
      pose proof (rne_bounds M (Zdigits2 M - 24)) as [HbM _].
      set (pr := Zdigits2 r - 24) in *. set (pM := Zdigits2 M - 24) in *.
      assert (HpM : 2 ^ pM = 2 ^ pr * 2 ^ (pM - pr)) by (apply pow2_split; lia).
      assert (0 < 2 ^ pr) by (apply Z.pow_pos_nonneg; lia).
      assert (2 ^ 1 <= 2 ^ (pM - pr)) by (apply Z.pow_le_mono_r; lia).
      change (2 ^ 1) with 2 in *. change (2 ^ 24) with (2 * 2 ^ 23) in *.
      assert (0 < 2 ^ 23) by lia.
      rewrite HpM. nia.
Qed.

(** The conversion of a positive [int]. *)
Lemma of_int_spec z :
  0 < z < 2 ^ 31 ->
  exists mz ez,
    binary_normalize 24 128 z 0 false = S754_finite false mz ez /\
    -23 <= ez <= 8 /\
    Z.pos mz * 2 ^ (ez + 23) = Round.rnd_int z * 2 ^ 23.
Proof.
  intros [Hz Hz31].
  destruct z as [|pz|pz]; try lia.
  pose proof (Zdigits2_lt_pow (Z.pos pz) 31 ltac:(lia) ltac:(lia) Hz31) as Hd31.
  assert (Hd1 : 0 < Zdigits2 (Z.pos pz)) by (simpl; lia).
  unfold binary_normalize, binary_round, Round.rnd_int. cbv zeta.
  change (Z.pos (digits2_pos pz)) with (Zdigits2 (Z.pos pz)).
  rewrite Z.add_0_r.
  set (d := Zdigits2 (Z.pos pz)) in *.
  assert (Hfexp : fexp 24 128 d = d - 24) by (unfold fexp, emin; lia).
  rewrite Hfexp.
  destruct (Z.leb_spec d 24) as [H24 | H24].
  - destruct (shl_align_spec pz 0 (d - 24) ltac:(lia)) as (m' & -> & Hm').
    replace (0 - (d - 24)) with (24 - d) in Hm' by lia.
    rewrite binary_round_aux_canonical; [| | lia].
    + exists m', (d - 24). split; [reflexivity |]. split; [lia |].
      rewrite Hm', <- Z.mul_assoc, <- Z.pow_add_r by lia.
      do 2 f_equal. lia.
    + rewrite Hm', Zdigits2_mul_pow2 by lia. fold d. lia.
  - rewrite shl_align_above by lia.
    pose proof (quotient_24_digits (Z.pos pz) Hz H24) as Hq. fold d in Hq.
    pose proof (rne_bounds (Z.pos pz) (d - 24)) as Hb.
    unfold binary_round_aux.
    assert (E1 : exists k, d - 24 = Z.of_nat (S k) /\
                 shr_fexp 24 128 (Z.pos pz) 0 loc_Exact =
                 (Nat.iter (S k) shr_1 (Build_shr_record (Z.pos pz) false false), d - 24)).
    { unfold shr_fexp, shr. fold d. rewrite Z.add_0_r, Hfexp, Z.sub_0_r.
      destruct (d - 24) as [|p|p] eqn:Ep; try lia.
      destruct (Pos2Nat.is_succ p) as [k Ek]. exists k.
      split; [lia |]. rewrite iter_pos_nat, Ek. reflexivity. }
    destruct E1 as (k & Ek & ->).
    rewrite round_shr_rne by lia. rewrite <- Ek.
    set (m1 := Round.rne (Z.pos pz) (d - 24)) in *.
    destruct (Z.eq_dec m1 (2 ^ 24)) as [E24 | N24].
    + rewrite E24.
      assert (E2 : shr_fexp 24 128 (2 ^ 24) (d - 24) loc_Exact =
                   (Build_shr_record (2 ^ 23) false false, d - 24 + 1)).
      { unfold shr_fexp, shr. change (Zdigits2 (2 ^ 24)) with 25.
        replace (fexp 24 128 (25 + (d - 24)) - (d - 24)) with 1
          by (unfold fexp, emin; lia).
        reflexivity. }
      rewrite E2. cbn [shr_m]. change (2 ^ 23) with (Z.pos 8388608).
      cbv iota beta.
      destruct (Z.leb_spec (d - 24 + 1) (128 - 24)); [| lia].
      eexists _, _. split; [reflexivity |]. split; [lia |].
      replace (d - 24 + 1 + 23) with (d - 24 + 24) by lia.
      rewrite !Z.pow_add_r by lia. lia.
    + assert (Hm1 : 2 ^ 23 <= m1 < 2 ^ 24) by lia.
      assert (Hd1' : Zdigits2 m1 = 24) by (apply Zdigits2_unique; lia).
      assert (E2 : shr_fexp 24 128 m1 (d - 24) loc_Exact =
                   (Build_shr_record m1 false false, d - 24)).
      { unfold shr_fexp, shr. rewrite Hd1'.
        replace (fexp 24 128 (24 + (d - 24)) - (d - 24)) with 0
          by (unfold fexp, emin; lia).
        reflexivity. }
      rewrite E2. cbn [shr_m].
      destruct m1 as [|p1|p1]; try lia.
      destruct (Z.leb_spec (d - 24) (128 - 24)); [| lia].
      eexists _, _. split; [reflexivity |]. split; [lia |].
      rewrite Z.pow_add_r by lia. lia.
Qed.

Lemma new_location_0 nb : new_location nb 0 = loc_Exact.
Proof. unfold new_location, new_location_even, new_location_odd. now destruct (Z.even nb). Qed.

(** The quotient of two positive floats, the smaller one first, is at
    most one. *)
Lemma div_below mx ex my ey :
  -23 <= ex -> -23 <= ey ->
  Z.pos mx * 2 ^ (ex + 23) <= Z.pos my * 2 ^ (ey + 23) ->
  Round.below false 0 (SFdiv 24 128 (S754_finite false mx ex) (S754_finite false my ey)).
Proof.
  intros Hex Hey Hle.
  unfold SFdiv, SFdiv_core_binary. cbv zeta.
  set (d1 := Zdigits2 (Z.pos mx)). set (d2 := Zdigits2 (Z.pos my)).
  set (e' := Z.min (fexp 24 128 (d1 + ex - (d2 + ey))) (ex - ey)).
  set (s := ex - ey - e').
  destruct (Zdigits2_bounds (Z.pos mx) ltac:(lia)) as [Hlo1 Hhi1].
  destruct (Zdigits2_bounds (Z.pos my) ltac:(lia)) as [Hlo2 Hhi2].
  fold d1 in Hlo1, Hhi1. fold d2 in Hlo2, Hhi2.
  assert (Hd1 : 0 < d1) by (unfold d1; simpl; lia).
  assert (Hd2 : 0 < d2) by (unfold d2; simpl; lia).
  assert (Hdd : d1 + ex <= d2 + ey).
  { destruct (Z.le_gt_cases (d1 + ex) (d2 + ey)) as [|Hgt]; [assumption | exfalso].
    assert (P1 : 2 ^ (d1 - 1 + (ex + 23)) <= Z.pos mx * 2 ^ (ex + 23)).
    { rewrite (Z.pow_add_r 2 (d1 - 1)) by lia.
      apply Z.mul_le_mono_nonneg_r; [apply Z.pow_nonneg |]; lia. }
    assert (P2 : Z.pos my * 2 ^ (ey + 23) < 2 ^ (d2 + (ey + 23))).
    { rewrite (Z.pow_add_r 2 d2) by lia.
      apply Z.mul_lt_mono_pos_r; [apply Z.pow_pos_nonneg |]; lia. }
    assert (2 ^ (d2 + (ey + 23)) <= 2 ^ (d1 - 1 + (ex + 23))) by (apply Z.pow_le_mono_r; lia).
    lia. }
  assert (He' : e' <= -24) by (unfold e', fexp, emin; lia).
  assert (Hs : 0 <= s) by (unfold s, e'; lia).
  set (m' := match s with
             | 0 => Z.pos mx
             | Z.pos _ => Z.shiftl (Z.pos mx) s
             | Z.neg _ => 0
             end).
  assert (Hm' : m' = Z.pos mx * 2 ^ s).
  { unfold m'. clearbody s. destruct s as [|p|p]; try lia.
    apply Z.shiftl_mul_pow2. lia. }
  assert (Hbound : m' <= Z.pos my * 2 ^ (- e')).
  { rewrite Hm'.
    assert (HA : 0 < 2 ^ (ex + 23)) by (apply Z.pow_pos_nonneg; lia).
    assert (HS : 0 < 2 ^ s) by (apply Z.pow_pos_nonneg; lia).
    assert (HSB : 2 ^ s * 2 ^ (ey + 23) = 2 ^ (- e') * 2 ^ (ex + 23)).
    { rewrite <- !Z.pow_add_r by lia. f_equal. unfold s. lia. }
    apply (Z.mul_le_mono_pos_r _ _ (2 ^ (ex + 23)) HA).
    set (A := 2 ^ (ex + 23)) in *. set (B := 2 ^ (ey + 23)) in *.
    set (S := 2 ^ s) in *. set (E := 2 ^ (- e')) in *.
    replace (Z.pos my * E * A) with (S * (Z.pos my * B)) by (rewrite <- Z.mul_assoc, <- HSB; ring).
    replace (Z.pos mx * S * A) with (S * (Z.pos mx * A)) by ring.
    apply Z.mul_le_mono_nonneg_l; lia. }
  destruct (Z.div_eucl m' (Z.pos my)) as [q r] eqn:Ediv.
  assert (Hq : q = m' / Z.pos my) by (unfold Z.div; now rewrite Ediv).
  assert (Hr : r = m' mod Z.pos my) by (unfold Z.modulo; now rewrite Ediv).
  assert (Hm'0 : 0 <= m') by (rewrite Hm'; apply Z.mul_nonneg_nonneg; [lia | apply Z.pow_nonneg; lia]).
  cbn [xorb].
  apply binary_round_aux_below; try lia.
  - rewrite Hq. apply Z.div_pos; lia.
  - rewrite Z.sub_0_l.
    assert (Hqle : q <= 2 ^ (- e')).
    { rewrite Hq. apply Z.div_le_upper_bound; lia. }
    destruct (Z.eq_dec q (2 ^ (- e'))) as [Eq | Hne]; [right | left; lia].
    split; [assumption |].
    pose proof (Z.div_mod m' (Z.pos my) ltac:(lia)) as Hdm.
    pose proof (Z.mod_pos_bound m' (Z.pos my) ltac:(lia)) as Hmb.
    rewrite <- Hq, <- Hr in Hdm. rewrite <- Hr in Hmb.
    assert (E0 : r = 0) by nia. rewrite E0. apply new_location_0.
Qed.



(** Doubling a float of [[0, 1]] gives a float of [[0, 2]]. *)
Lemma mul_two_below q :
  Round.below false 0 q -> Round.below false 1 (SFmul 24 128 q F32.two).
Proof.
  change F32.two with (S754_finite false 8388608 (-22)).
  destruct q as [s | | | s m e]; simpl; try contradiction.
  - intros ->. reflexivity.
  - intros (-> & He & Hm). cbn [xorb].
    apply binary_round_aux_below; try lia.
    rewrite Pos2Z.inj_mul. change (Z.pos 8388608) with (2 ^ 23).
    replace (1 - (e + -22)) with (- e + 23) by lia.
    rewrite Z.pow_add_r by lia. rewrite ?Z.sub_0_l in Hm.
    assert (0 < 2 ^ 23) by lia.
    destruct (Z.eq_dec (Z.pos m) (2 ^ (- e))) as [E | N].
    + right. split; [now rewrite E | reflexivity].
    + left. apply Z.mul_lt_mono_pos_r; lia.
Qed.

Lemma below_unit_range s x : Round.below s 0 x -> Round.unit_range x.
Proof. destruct x; simpl; try tauto. Qed.

Lemma binary_round_below s m e :
  e <= 0 -> Z.pos m <= 2 ^ (- e) -> Round.below s 0 (binary_round 24 128 s m e).
Proof.
  intros He Hm. unfold binary_round.
  set (t := fexp 24 128 (Z.pos (digits2_pos m) + e)).
  destruct (Z.le_gt_cases t e) as [Hte | Hte].
  - destruct (shl_align_spec m e t Hte) as (m' & -> & Hm').
    apply binary_round_aux_below; try lia.
    rewrite Hm', Z.sub_0_l.
    replace (- t) with (- e + (e - t)) by lia.
    rewrite Z.pow_add_r by lia.
    assert (0 < 2 ^ (e - t)) by (apply Z.pow_pos_nonneg; lia).
    destruct (Z.eq_dec (Z.pos m) (2 ^ (- e))) as [E | N].
    + right. split; [now rewrite E | reflexivity].
    + left. apply Z.mul_lt_mono_pos_r; lia.
  - rewrite shl_align_above by lia.
    apply binary_round_aux_below; try lia.
    rewrite Z.sub_0_l.
    destruct (Z.eq_dec (Z.pos m) (2 ^ (- e))) as [E | N]; [right | left; lia].
    split; [assumption | reflexivity].
Qed.

(** Taking one from a float of [[0, 2]] gives a float of [[-1, 1]]. *)
Lemma sub_one_unit_range t :
  Round.below false 1 t -> Round.unit_range (SFsub 24 128 t F32.one).
Proof.
  change F32.one with (S754_finite false 8388608 (-23)).
  destruct t as [s | | | s m e]; simpl; try contradiction.
  - intros _. split; [lia |]. simpl. lia.
  - intros (-> & He & Hm).
    set (ez := Z.min e (-23)).
    destruct (shl_align_spec m e ez ltac:(unfold ez; lia)) as (mt & -> & Hmt).
    destruct (shl_align_spec 8388608 (-23) ez ltac:(unfold ez; lia)) as (m1 & -> & Hm1).
    cbn [fst cond_Zopp].
    assert (Hez : ez <= -23) by (unfold ez; lia).
    assert (E1 : Z.pos m1 = 2 ^ (- ez)).
    { rewrite Hm1. change (Z.pos 8388608) with (2 ^ 23).
      rewrite <- Z.pow_add_r by lia. f_equal. lia. }
    assert (Et : Z.pos mt <= 2 * 2 ^ (- ez)).
    { rewrite Hmt.
      replace (2 * 2 ^ (- ez)) with (2 ^ (1 - e) * 2 ^ (e - ez)).
      - apply Z.mul_le_mono_nonneg_r; [apply Z.pow_nonneg; lia | assumption].
      - rewrite <- Z.pow_add_r by lia.
        replace (1 - e + (e - ez)) with (Z.succ (- ez)) by lia.
        rewrite Z.pow_succ_r by lia. reflexivity. }
    unfold binary_normalize.
    destruct (Z.pos mt - Z.pos m1) as [|D|D] eqn:ED.
    + exact I.
    + apply (below_unit_range false), binary_round_below; lia.
    + apply (below_unit_range true), binary_round_below; lia.
Qed.

(** [r / (float)RM * 2 - 1] has magnitude at most one. *)
Lemma scaled_unit_range RM r :
  0 < RM < 2 ^ 31 -> 0 <= r <= RM ->
  Round.unit_range (SFsub 24 128 (SFmul 24 128 (SFdiv 24 128 (F32.of_int r) (F32.of_int RM)) (F32.of_int 2))
                           (F32.of_int 1)).
Proof.
  intros HRM Hr.
  change (F32.of_int 2) with F32.two. change (F32.of_int 1) with F32.one.
  change (SFdiv 24 128 (F32.of_int r) (F32.of_int RM))
    with (SFdiv 24 128 (binary_normalize 24 128 r 0 false) (binary_normalize 24 128 RM 0 false)).
  apply sub_one_unit_range, mul_two_below.
  destruct (of_int_spec RM HRM) as (my & ey & EM & Hey & HvM).
  rewrite EM.
  destruct (Z.eq_dec r 0) as [-> | Hr0].
  - reflexivity.
  - destruct (of_int_spec r ltac:(lia)) as (mx & ex & Er & Hex & Hvr).
    rewrite Er. apply div_below; try lia.
    rewrite Hvr, HvM. apply Z.mul_le_mono_nonneg_r; [lia |].
    apply rnd_int_mono. lia.
Qed.




(** The exponent that the right shift stops at. *)
Lemma shr_fexp_exponent m e l :
  snd (shr_fexp 24 128 m e l) = Z.max e (fexp 24 128 (Zdigits2 m + e)).
Proof.
  unfold shr_fexp, shr.
  destruct (fexp 24 128 (Zdigits2 m + e) - e) as [|p|p] eqn:En; cbn [snd]; lia.
Qed.

(** Rounding does not cross an integer below [2^24]. *)
Lemma binary_round_aux_int s m e l N :
  0 <= m -> e <= 0 -> 0 <= N < 2 ^ 24 ->
  m < N * 2 ^ (- e) \/ (m = N * 2 ^ (- e) /\ l = loc_Exact) ->
  Round.bounded_by N (binary_round_aux 24 128 s m e l).
Proof.
  intros Hm He HN Hcase.
  assert (HPe : 0 < 2 ^ (- e)) by (apply Z.pow_pos_nonneg; lia).
  assert (Hle : m <= N * 2 ^ (- e)) by (destruct Hcase as [? | [? _]]; lia).
  assert (Hlt24 : m < 2 ^ (24 - e)).
  { replace (24 - e) with (24 + - e) by lia. rewrite Z.pow_add_r by lia. nia. }
  destruct (shr_fexp_bound m e l 24) as (mrs1 & e1 & E1 & He1 & Hm1 & Hb1 & _ & Hex1);
    try lia.
  assert (He1' : e1 <= 0).
  { pose proof (shr_fexp_exponent m e l) as Hs. rewrite E1 in Hs. cbn [snd] in Hs.
    assert (Zdigits2 m <= 24 - e) by (apply Zdigits2_lt_pow; lia).
    unfold fexp, emin in Hs. lia. }
  unfold binary_round_aux. rewrite E1.
  set (m1 := round_nearest_even (shr_m mrs1) (loc_of_shr_record mrs1)).
  set (P := 2 ^ (e1 - e)) in *.
  assert (HP : 0 < P) by (apply Z.pow_pos_nonneg; lia).
  assert (HB : N * 2 ^ (- e) = N * 2 ^ (- e1) * P).
  { unfold P. rewrite <- Z.mul_assoc, <- Z.pow_add_r by lia. do 2 f_equal. lia. }
  assert (HPe1 : 0 < 2 ^ (- e1)) by (apply Z.pow_pos_nonneg; lia).
  assert (Hm1b : 0 <= m1 <= N * 2 ^ (- e1)).
  { pose proof (round_nearest_even_bounds (shr_m mrs1) (loc_of_shr_record mrs1)) as Hr.
    fold m1 in Hr. destruct Hcase as [Hlt | [Heq ->]].
    - assert (shr_m mrs1 < N * 2 ^ (- e1)).
      { rewrite Hm1. apply Z.div_lt_upper_bound; [assumption |]. lia. }
      lia.
    - unfold m1. rewrite Hex1; [| reflexivity |].
      + cbn [round_nearest_even]. rewrite Hm1, Heq, HB, Z.div_mul by lia. lia.
      + rewrite Heq, HB. apply Z.mod_mul. lia. }
  assert (Hm1lt : m1 < 2 ^ (24 - e1)).
  { replace (24 - e1) with (24 + - e1) by lia. rewrite Z.pow_add_r by lia. nia. }
  destruct (shr_fexp_bound m1 e1 loc_Exact 24) as (mrs2 & e2 & E2 & He2 & Hm2 & Hb2 & _);
    try lia.
  assert (He2' : e2 <= 0).
  { pose proof (shr_fexp_exponent m1 e1 loc_Exact) as Hs. rewrite E2 in Hs. cbn [snd] in Hs.
    assert (Zdigits2 m1 <= 24 - e1) by (apply Zdigits2_lt_pow; lia).
    unfold fexp, emin in Hs. lia. }
  rewrite E2.
  assert (Hq2 : shr_m mrs2 <= N * 2 ^ (- e2)).
  { rewrite Hm2.
    assert (HB2 : N * 2 ^ (- e1) = N * 2 ^ (- e2) * 2 ^ (e2 - e1)).
    { rewrite <- Z.mul_assoc, <- Z.pow_add_r by lia. do 2 f_equal. lia. }
    assert (0 < 2 ^ (e2 - e1)) by (apply Z.pow_pos_nonneg; lia).
    apply Z.div_le_upper_bound; [assumption |]. lia. }
  destruct (shr_m mrs2) as [|p|p] eqn:Ep.
  - exact I.
  - destruct (Z.leb_spec e2 (128 - 24)) as [_ | Hgt]; [| lia].
    simpl. split; lia.
  - lia.
Qed.

Lemma binary_round_int s m e N :
  e <= 0 -> 0 <= N < 2 ^ 24 -> Z.pos m <= N * 2 ^ (- e) ->
  Round.bounded_by N (binary_round 24 128 s m e).
Proof.
  intros He HN Hm. unfold binary_round.
  set (t := fexp 24 128 (Z.pos (digits2_pos m) + e)).
  destruct (Z.le_gt_cases t e) as [Hte | Hte].
  - destruct (shl_align_spec m e t Hte) as (m' & -> & Hm').
    apply binary_round_aux_int; try lia.
    assert (Hs : m = m) by reflexivity.
    assert (HE : N * 2 ^ (- t) = N * 2 ^ (- e) * 2 ^ (e - t)).
    { rewrite <- Z.mul_assoc, <- Z.pow_add_r by lia. do 2 f_equal. lia. }
    assert (0 < 2 ^ (e - t)) by (apply Z.pow_pos_nonneg; lia).
    destruct (Z.eq_dec (Z.pos m') (N * 2 ^ (- t))) as [E | Ne].
    + right. split; [assumption | reflexivity].
    + left. rewrite Hm' in *. nia.
  - rewrite shl_align_above by lia.
    apply binary_round_aux_int; try lia.
    destruct (Z.eq_dec (Z.pos m) (N * 2 ^ (- e))) as [E | Ne]; [right | left; lia].
    split; [assumption | reflexivity].
Qed.

Lemma bounded_by_mono N N' x : N <= N' -> Round.bounded_by N x -> Round.bounded_by N' x.
Proof.
  intros HN. destruct x as [s | | | s m e]; simpl; try tauto.
  intros [He Hm]. split; [assumption |].
  assert (0 < 2 ^ (- e)) by (apply Z.pow_pos_nonneg; lia). nia.
Qed.

Lemma unit_range_bounded x : Round.unit_range x <-> Round.bounded_by 1 x.
Proof. destruct x as [s | | | s m e]; simpl; try tauto. now rewrite Z.mul_1_l. Qed.

(** The sum of two floats of magnitudes at most [N1] and [N2]. *)
Lemma add_bounded N1 N2 x y :
  0 <= N1 -> 0 <= N2 -> N1 + N2 < 2 ^ 24 ->
  Round.bounded_by N1 x -> Round.bounded_by N2 y ->
  Round.bounded_by (N1 + N2) (SFadd 24 128 x y).
Proof.
  intros H1 H2 HN Hx Hy.
  destruct x as [sx | | | sx mx ex]; try contradiction;
  destruct y as [sy | | | sy my ey]; try contradiction.
  - destruct sx, sy; exact I.
  - apply (bounded_by_mono N2); [lia | exact Hy].
  - apply (bounded_by_mono N1); [lia | exact Hx].
  - destruct Hx as [Hex Hmx], Hy as [Hey Hmy].
    unfold SFadd. set (ez := Z.min ex ey).
    destruct (shl_align_spec mx ex ez ltac:(unfold ez; lia)) as (mx' & -> & Hmx').
    destruct (shl_align_spec my ey ez ltac:(unfold ez; lia)) as (my' & -> & Hmy').
    cbn [fst].
    assert (Hez : ez <= 0) by (unfold ez; lia).
    assert (Ex : N1 * 2 ^ (- ez) = N1 * 2 ^ (- ex) * 2 ^ (ex - ez)).
    { rewrite <- Z.mul_assoc, <- Z.pow_add_r by (unfold ez; lia). do 2 f_equal. lia. }
    assert (Ey : N2 * 2 ^ (- ez) = N2 * 2 ^ (- ey) * 2 ^ (ey - ez)).
    { rewrite <- Z.mul_assoc, <- Z.pow_add_r by (unfold ez; lia). do 2 f_equal. lia. }
    assert (0 < 2 ^ (ex - ez)) by (apply Z.pow_pos_nonneg; unfold ez; lia).
    assert (0 < 2 ^ (ey - ez)) by (apply Z.pow_pos_nonneg; unfold ez; lia).
    assert (Bx : Z.pos mx' <= N1 * 2 ^ (- ez)) by (rewrite Hmx', Ex; nia).
    assert (By_ : Z.pos my' <= N2 * 2 ^ (- ez)) by (rewrite Hmy', Ey; nia).
    unfold binary_normalize.
    destruct (cond_Zopp sx (Z.pos mx') + cond_Zopp sy (Z.pos my')) as [|D|D] eqn:ED.
    + exact I.
    + apply binary_round_int; try lia.
      destruct sx, sy; simpl in ED; lia.
    + apply binary_round_int; try lia.
      destruct sx, sy; simpl in ED; lia.
Qed.

(** The product of two floats of magnitude at most one. *)
Lemma mul_unit_range x y :
  Round.unit_range x -> Round.unit_range y -> Round.unit_range (SFmul 24 128 x y).
Proof.
  destruct x as [sx | | | sx mx ex]; try contradiction;
  destruct y as [sy | | | sy my ey]; try contradiction; try (intros; exact I).
  intros [Hex Hmx] [Hey Hmy]. unfold SFmul.
  apply (below_unit_range (xorb sx sy)), binary_round_aux_below; try lia.
  rewrite Pos2Z.inj_mul.
  replace (0 - (ex + ey)) with (- ex + - ey) by lia.
  rewrite Z.pow_add_r by lia.
  assert (0 < 2 ^ (- ex)) by (apply Z.pow_pos_nonneg; lia).
  assert (0 < 2 ^ (- ey)) by (apply Z.pow_pos_nonneg; lia).
  destruct (Z.eq_dec (Z.pos mx * Z.pos my) (2 ^ (- ex) * 2 ^ (- ey))) as [E | Ne].
  - right. split; [assumption | reflexivity].
  - left. nia.
Qed.

Lemma bounded_by_value N x :
  0 <= N -> Round.bounded_by N x ->
  F32.is_finite x = true /\
  exists q, F32.value x = Some q /\ (inject_Z (- N) <= q <= inject_Z N)%Q.
Proof.
  intros HN. destruct x as [s | | | s m e]; simpl; try contradiction.
  - intros _. split; [reflexivity |]. exists 0%Q. split; [reflexivity |].
    unfold Qle; simpl. lia.
  - intros [He Hm]. split; [reflexivity |]. eexists. split; [reflexivity |].
    destruct (Z.leb_spec 0 e) as [H0 | H0].
    + assert (e = 0) as -> by lia. simpl in Hm.
      unfold Qle; simpl. destruct s; lia.
    + assert (HP : 0 < 2 ^ (- e)) by (apply Z.pow_pos_nonneg; lia).
      unfold Qle; simpl. rewrite Z2Pos.id by assumption.
      destruct s; lia.
Qed.

(** A mantissa that is a canonical one shifted to the left rounds to the
    canonical one, exactly. *)
Lemma binary_round_aux_exact s m e m0 e0 :
  Zdigits2 (Z.pos m0) = 24 -> -149 <= e0 <= 104 -> e <= e0 ->
  Z.pos m = Z.pos m0 * 2 ^ (e0 - e) ->
  binary_round_aux 24 128 s (Z.pos m) e loc_Exact = S754_finite s m0 e0.
Proof.
  intros Hd He0 He Hm.
  destruct (Z.eq_dec e e0) as [-> | Hne].
  - rewrite Z.sub_diag, Z.pow_0_r, Z.mul_1_r in Hm. injection Hm as ->.
    now apply binary_round_aux_canonical.
  - set (nn := e0 - e) in *. assert (Hnn : 0 < nn) by (unfold nn; lia).
    assert (Hdm : Zdigits2 (Z.pos m) = 24 + nn).
    { rewrite Hm, Zdigits2_mul_pow2, Hd; lia. }
    assert (E1 : shr_fexp 24 128 (Z.pos m) e loc_Exact =
                 (Nat.iter (Z.to_nat nn) shr_1 (Build_shr_record (Z.pos m) false false), e0)).
    { unfold shr_fexp, shr. rewrite Hdm.
      replace (fexp 24 128 (24 + nn + e) - e) with nn by (unfold fexp, emin, nn; lia).
      destruct nn as [|p|p] eqn:En; try lia.
      rewrite iter_pos_nat. f_equal. lia. }
    assert (E2 : shr_fexp 24 128 (Z.pos m0) e0 loc_Exact =
                 (Build_shr_record (Z.pos m0) false false, e0)).
    { unfold shr_fexp, shr. rewrite Hd.
      replace (fexp 24 128 (24 + e0) - e0) with 0 by (unfold fexp, emin; lia).
      reflexivity. }
    unfold binary_round_aux. rewrite E1.
    replace (Z.to_nat nn) with (Datatypes.S (Z.to_nat (nn - 1))) by lia.
    rewrite (round_shr_rne (Z.to_nat (nn - 1))) by lia.
    assert (Er : Round.rne (Z.pos m) (Z.of_nat (Datatypes.S (Z.to_nat (nn - 1)))) = Z.pos m0).
    { replace (Z.of_nat (Datatypes.S (Z.to_nat (nn - 1)))) with nn by lia.
      assert (HP : 0 < 2 ^ (nn - 1)) by (apply Z.pow_pos_nonneg; lia).
      assert (HP' : 0 < 2 ^ nn) by (apply Z.pow_pos_nonneg; lia).
      unfold Round.rne. cbv zeta. rewrite Hm, Z.mod_mul, Z.div_mul by lia.
      destruct (Z.ltb_spec 0 (2 ^ (nn - 1))); [reflexivity | lia]. }
    rewrite Er, E2. cbn [shr_m].
    destruct (Z.leb_spec e0 (128 - 24)); [reflexivity | lia].
Qed.

(** The float of a value [v * 2^0] that a canonical mantissa stands
    for. *)
Lemma binary_round_exact s m e m0 e0 v :
  Zdigits2 (Z.pos m0) = 24 -> -149 <= e0 <= 0 -> e <= 0 ->
  Z.pos m = v * 2 ^ (- e) -> Z.pos m0 = v * 2 ^ (- e0) ->
  binary_round 24 128 s m e = S754_finite s m0 e0.
Proof.
  intros Hd He0 He Hm Hm0.
  assert (HPe : 0 < 2 ^ (- e)) by (apply Z.pow_pos_nonneg; lia).
  assert (HPe0 : 0 < 2 ^ (- e0)) by (apply Z.pow_pos_nonneg; lia).
  assert (Hv : 0 < v) by nia.
  assert (Hdv : Zdigits2 v = 24 + e0).
  { rewrite Hm0, Zdigits2_mul_pow2 in Hd by lia. lia. }
  assert (Hdig : Zdigits2 (Z.pos m) + e = 24 + e0).
  { rewrite Hm, Zdigits2_mul_pow2 by lia. lia. }
  unfold binary_round.
  set (t := fexp 24 128 (Z.pos (digits2_pos m) + e)).
  assert (Ht : t = e0).
  { unfold t. change (Z.pos (digits2_pos m)) with (Zdigits2 (Z.pos m)).
    rewrite Hdig. unfold fexp, emin. lia. }
  destruct (Z.le_gt_cases e0 e) as [Hle | Hgt].
  - destruct (shl_align_spec m e t ltac:(lia)) as (m' & -> & Hm').
    rewrite Ht in *.
    assert (m' = m0) as ->.
    { apply Pos2Z.inj. rewrite Hm', Hm, Hm0, <- Z.mul_assoc, <- Z.pow_add_r by lia.
      do 2 f_equal. lia. }
    apply binary_round_aux_canonical; [assumption | lia].
  - rewrite shl_align_above by lia.
    apply binary_round_aux_exact; try lia; try assumption.
    rewrite Hm, Hm0, <- Z.mul_assoc, <- Z.pow_add_r by lia. do 2 f_equal. lia.
Qed.

(** The float of a nonzero integer below [2^24]. *)
Lemma of_int_repr z :
  z <> 0 -> Z.abs z < 2 ^ 24 ->
  exists m0 e0,
    F32.of_int z = S754_finite (z <? 0) m0 e0 /\
    Zdigits2 (Z.pos m0) = 24 /\ -23 <= e0 <= 0 /\
    Z.pos m0 = Z.abs z * 2 ^ (- e0).
Proof.
  intros Hz Hlt.
  assert (Hrepr : forall p s, Z.pos p < 2 ^ 24 ->
            exists m0 e0,
              binary_round 24 128 s p 0 = S754_finite s m0 e0 /\
              Zdigits2 (Z.pos m0) = 24 /\ -23 <= e0 <= 0 /\
              Z.pos m0 = Z.pos p * 2 ^ (- e0)).
  { intros p s Hp.
    set (d := Zdigits2 (Z.pos p)).
    assert (Hd1 : 1 <= d) by (unfold d; simpl; lia).
    assert (Hd24 : d <= 24) by (apply Zdigits2_lt_pow; lia).
    assert (HP : 0 < 2 ^ (24 - d)) by (apply Z.pow_pos_nonneg; lia).
    exists (Z.to_pos (Z.pos p * 2 ^ (24 - d))), (d - 24).
    assert (Hid : Z.pos (Z.to_pos (Z.pos p * 2 ^ (24 - d))) = Z.pos p * 2 ^ (24 - d))
      by (apply Z2Pos.id; lia).
    assert (Hdig : Zdigits2 (Z.pos (Z.to_pos (Z.pos p * 2 ^ (24 - d)))) = 24).
    { rewrite Hid, Zdigits2_mul_pow2 by lia. fold d. lia. }
    split; [| split; [exact Hdig | split; [lia |]]].
    - apply (binary_round_exact s p 0 _ _ (Z.pos p)); try lia; try assumption.
      rewrite Hid. do 2 f_equal. lia.
    - rewrite Hid. do 2 f_equal. lia. }
  destruct z as [|p|p]; [contradiction | |].
  - apply (Hrepr p false). exact Hlt.
  - apply (Hrepr p true). exact Hlt.
Qed.

(** Adding a zero to the float of an integer. *)
Lemma add_int_zero x s :
  Z.abs x < 2 ^ 24 -> SFadd 24 128 (F32.of_int x) (S754_zero s) = F32.of_int x.
Proof.
  intros Hx. destruct (Z.eq_dec x 0) as [-> | Hne].
  - now destruct s.
  - destruct (of_int_repr x Hne Hx) as (m0 & e0 & -> & _). reflexivity.
Qed.

(** The sum of the floats of two integers, when it is below [2^24]. *)
Lemma add_int_exact x y :
  Z.abs x < 2 ^ 24 -> Z.abs y < 2 ^ 24 -> Z.abs (x + y) < 2 ^ 24 ->
  SFadd 24 128 (F32.of_int x) (F32.of_int y) = F32.of_int (x + y).
Proof.
  intros Hx Hy Hxy.
  destruct (Z.eq_dec y 0) as [-> | Hy0].
  { rewrite Z.add_0_r. now apply add_int_zero. }
  destruct (Z.eq_dec x 0) as [-> | Hx0].
  { rewrite Z.add_0_l. destruct (of_int_repr y Hy0 Hy) as (m0 & e0 & -> & _). reflexivity. }
  destruct (of_int_repr x Hx0 Hx) as (mx & ex & -> & Hdx & Hex & Hmx).
  destruct (of_int_repr y Hy0 Hy) as (my & ey & -> & Hdy & Hey & Hmy).
  unfold SFadd. set (ez := Z.min ex ey).
  destruct (shl_align_spec mx ex ez ltac:(unfold ez; lia)) as (mx' & -> & Hmx').
  destruct (shl_align_spec my ey ez ltac:(unfold ez; lia)) as (my' & -> & Hmy').
  cbn [fst].
  assert (Hez : -23 <= ez <= 0) by (unfold ez; lia).
  assert (Ex : Z.pos mx' = Z.abs x * 2 ^ (- ez)).
  { rewrite Hmx', Hmx, <- Z.mul_assoc, <- Z.pow_add_r by (unfold ez; lia).
    do 2 f_equal. lia. }
  assert (Ey : Z.pos my' = Z.abs y * 2 ^ (- ez)).
  { rewrite Hmy', Hmy, <- Z.mul_assoc, <- Z.pow_add_r by (unfold ez; lia).
    do 2 f_equal. lia. }
  assert (HP : 0 < 2 ^ (- ez)) by (apply Z.pow_pos_nonneg; lia).
  assert (EZ : cond_Zopp (x <? 0) (Z.pos mx') + cond_Zopp (y <? 0) (Z.pos my')
               = (x + y) * 2 ^ (- ez)).
  { rewrite Ex, Ey.
    destruct (Z.ltb_spec x 0), (Z.ltb_spec y 0); cbn [cond_Zopp]; nia. }
  rewrite EZ. unfold binary_normalize.
  destruct (Z.eq_dec (x + y) 0) as [E0 | Hne].
  { rewrite E0. reflexivity. }
  destruct (of_int_repr (x + y) Hne Hxy) as (m0 & e0 & -> & Hd0 & He0 & Hm0).
  destruct ((x + y) * 2 ^ (- ez)) as [|D|D] eqn:ED.
  - nia.
  - assert (0 < x + y) by nia.
    destruct (Z.ltb_spec (x + y) 0); [lia |].
    apply (binary_round_exact false D ez m0 e0 (x + y)); try lia; assumption.
  - assert (x + y < 0) by nia.
    destruct (Z.ltb_spec (x + y) 0); [| lia].
    apply (binary_round_exact true D ez m0 e0 (- (x + y))); try lia; assumption.
Qed.

(** The product of the floats of two integers, when it is below
    [2^24]: the float of the product or, when the product is zero, a
    zero of either sign. *)
Lemma mul_int_exact x y :
  Z.abs x < 2 ^ 24 -> Z.abs y < 2 ^ 24 -> Z.abs (x * y) < 2 ^ 24 ->
  (x * y <> 0 /\ SFmul 24 128 (F32.of_int x) (F32.of_int y) = F32.of_int (x * y)) \/
  (x * y = 0 /\ exists s, SFmul 24 128 (F32.of_int x) (F32.of_int y) = S754_zero s).
Proof.
  intros Hx Hy Hxy.
  destruct (Z.eq_dec x 0) as [-> | Hx0].
  { right. split; [reflexivity |].
    destruct (Z.eq_dec y 0) as [-> | Hy0]; [now exists false |].
    destruct (of_int_repr y Hy0 Hy) as (m0 & e0 & -> & _). eexists. reflexivity. }
  destruct (Z.eq_dec y 0) as [-> | Hy0].
  { right. split; [lia |].
    destruct (of_int_repr x Hx0 Hx) as (m0 & e0 & -> & _). eexists. reflexivity. }
  left. split; [nia |].
  destruct (of_int_repr x Hx0 Hx) as (mx & ex & -> & Hdx & Hex & Hmx).
  destruct (of_int_repr y Hy0 Hy) as (my & ey & -> & Hdy & Hey & Hmy).
  destruct (of_int_repr (x * y) ltac:(nia) Hxy) as (m0 & e0 & -> & Hd0 & He0 & Hm0).
  unfold SFmul.
  assert (Hs : xorb (x <? 0) (y <? 0) = (x * y <? 0)).
  { destruct (Z.ltb_spec x 0), (Z.ltb_spec y 0), (Z.ltb_spec (x * y) 0);
      try reflexivity; nia. }
  rewrite Hs.
  destruct (Zdigits2_bounds (Z.pos mx) ltac:(lia)) as [Lx _]. rewrite Hdx in Lx.
  destruct (Zdigits2_bounds (Z.pos my) ltac:(lia)) as [Ly _]. rewrite Hdy in Ly.
  destruct (Zdigits2_bounds (Z.pos m0) ltac:(lia)) as [_ U0]. rewrite Hd0 in U0.
  change (2 ^ (24 - 1)) with 8388608 in Lx, Ly. change (2 ^ 24) with 16777216 in U0.
  assert (Eprod : Z.pos (mx * my) = Z.abs (x * y) * 2 ^ (- (ex + ey))).
  { rewrite Pos2Z.inj_mul, Hmx, Hmy, Z.abs_mul.
    replace (- (ex + ey)) with (- ex + - ey) by lia.
    rewrite Z.pow_add_r by lia. ring. }
  assert (Hle : ex + ey <= e0).
  { destruct (Z.le_gt_cases (ex + ey) e0) as [|Hgt]; [assumption | exfalso].
    assert (2 ^ (- (ex + ey)) <= 2 ^ (- e0)) by (apply Z.pow_le_mono_r; lia).
    assert (Z.pos (mx * my) <= Z.pos m0) by (rewrite Eprod, Hm0; nia).
    rewrite Pos2Z.inj_mul in *. nia. }
  apply binary_round_aux_exact; try lia; try assumption.
  rewrite Eprod, Hm0, <- Z.mul_assoc, <- Z.pow_add_r by lia.
  do 2 f_equal. lia.
Qed.

End RoundFacts.

(** ** Reasoning about computations *)

Section Rules.
Context `{Platform}.
Local Open Scope comp_scope.

Lemma bind_ok {A B} (c : Comp A) (f : A -> Comp B) w a w' :
  c w = (Some a, w') -> bind c f w = f a w'.
Proof. intros E. unfold bind. now rewrite E. Qed.

Lemma bind_fault {A B} (c : Comp A) (f : A -> Comp B) w w' :
  c w = (None, w') -> bind c f w = (None, w').
Proof. intros E. unfold bind. now rewrite E. Qed.

(** A loop that keeps an invariant runs to its end. *)
Lemma for_loop_rule {S} (I : nat -> S -> world -> Prop) count i
      (body : Z -> S -> Comp S) s w :
  I 0%nat s w ->
  (forall k s w, (k < count)%nat -> I k s w ->
     exists s' w', body (i + Z.of_nat k) s w = (Some s', w') /\ I (Datatypes.S k) s' w') ->
  exists s' w', for_loop count i body s w = (Some s', w') /\ I count s' w'.
Proof.
  revert I i s w. induction count as [|c IH]; intros I i s w H0 Hstep.
  - exists s, w. split; [reflexivity | assumption].
  - destruct (Hstep 0%nat s w) as (s1 & w1 & E1 & I1); [lia | assumption |].
    rewrite Z.add_0_r in E1.
    destruct (IH (fun k => I (Datatypes.S k)) (i + 1) s1 w1 I1) as (s2 & w2 & E2 & I2).
    + intros k s' w' Hk HI.
      destruct (Hstep (Datatypes.S k) s' w') as (s3 & w3 & E3 & I3); [lia | assumption |].
      exists s3, w3. split; [| assumption].
      rewrite <- E3. f_equal. lia.
    + exists s2, w2. split; [| assumption].
      simpl. now rewrite (bind_ok _ _ _ _ _ E1).
Qed.

(** *** Relations that every step of a computation keeps *)

Section Stable.
Variable R : world -> world -> Prop.
Hypothesis R_refl : forall w, R w w.
Hypothesis R_trans : forall w1 w2 w3, R w1 w2 -> R w2 w3 -> R w1 w3.

Lemma stable_ret {A} (a : A) : stable R (ret a).
Proof. intros w. apply R_refl. Qed.

Lemma stable_bind {A B} (c : Comp A) (f : A -> Comp B) :
  stable R c -> (forall a, stable R (f a)) -> stable R (bind c f).
Proof.
  intros Hc Hf w. unfold bind. specialize (Hc w).
  destruct (c w) as [[a|] w']; simpl in *; [| assumption].
  eapply R_trans; [eassumption | apply Hf].
Qed.

Lemma stable_for_loop {S} count i (body : Z -> S -> Comp S) s :
  (forall k s, stable R (body k s)) -> stable R (for_loop count i body s).
Proof.
  intros Hb. revert i s. induction count as [|c IH]; intros i s; simpl.
  - apply stable_ret.
  - apply stable_bind; [apply Hb | intros; apply IH].
Qed.

Lemma stable_for_size {S} hi (body : Z -> S -> Comp S) s :
  (forall k s, stable R (body k s)) -> stable R (for_size hi body s).
Proof. apply stable_for_loop. Qed.
End Stable.

End Rules.

(** ** The matrix container *)

Section Container.
Context `{Platform}.
Local Open Scope comp_scope.

Lemma add_log_nil w : add_log [] w = w.
Proof. destruct w; unfold add_log; simpl. now rewrite app_nil_r. Qed.

Lemma add_log_app e1 e2 w : add_log e2 (add_log e1 w) = add_log (e1 ++ e2) w.
Proof. unfold add_log; simpl. now rewrite app_assoc. Qed.

(** Without overflow the index expression is the row-major offset. *)
Lemma index_row_major M i j :
  n M * m M <= Size.SIZE_MAX -> in_range M i j ->
  index M i j = i * m M + j /\ 0 <= i * m M + j < n M * m M.
Proof.
  intros Hfit [Hi Hj].
  assert (Hb : 0 <= i * m M /\ i * m M + j < n M * m M) by nia.
  split; [| lia].
  unfold index, Size.add, Size.mul, Size.wrap.
  unfold Size.SIZE_MAX in Hfit.
  rewrite (Z.mod_small (i * m M)) by lia.
  apply Z.mod_small. lia.
Qed.

(** Two cells of a matrix have two offsets. *)
Lemma row_major_inj M i j i' j' :
  in_range M i j -> in_range M i' j' ->
  i * m M + j = i' * m M + j' -> i = i' /\ j = j'.
Proof.
  intros [Hi Hj] [Hi' Hj'] E.
  assert (i = i') as ->.
  { destruct (Z.lt_trichotomy i i') as [L | [E' | G]]; [exfalso | assumption | exfalso].
    - assert (m M <= (i' - i) * m M) by nia. lia.
    - assert (m M <= (i - i') * m M) by nia. lia. }
  split; [reflexivity | lia].
Qed.

Lemma matrix_ok_ext w w' M :
  mem w' !! data M = mem w !! data M -> matrix_ok w M -> matrix_ok w' M.
Proof. unfold matrix_ok, buffer. intros ->. tauto. Qed.

Lemma elem_ext w w' M i j :
  mem w' !! data M = mem w !! data M -> elem w' M i j = elem w M i j.
Proof. unfold elem, buffer. now intros ->. Qed.

Lemma matrix_ok_buffer w M :
  matrix_ok w M ->
  exists buf, mem w !! data M = Some buf /\ length buf = Z.to_nat (n M * m M).
Proof.
  intros (_ & _ & _ & Hl). unfold buffer in Hl.
  destruct (mem w !! data M) as [buf|]; simpl in Hl; [| discriminate].
  exists buf. split; [reflexivity | congruence].
Qed.

Lemma matrix_ok_elem w M i j :
  matrix_ok w M -> in_range M i j -> exists v, elem w M i j = Some v.
Proof.
  intros Hok Hr. destruct (matrix_ok_buffer _ _ Hok) as (buf & Hb & Hl).
  destruct Hok as (_ & _ & Hfit & _).
  destruct (index_row_major _ _ _ Hfit Hr) as [_ Hoff].
  unfold elem, buffer. rewrite Hb. simpl.
  apply lookup_lt_is_Some_2. lia.
Qed.

Lemma matrix_ok_live w M : matrix_ok w M -> matrix_live w M.
Proof. unfold matrix_ok, matrix_live. intuition lia. Qed.

Lemma matrix_live_ext w w' M :
  mem w' !! data M = mem w !! data M -> matrix_live w M -> matrix_live w' M.
Proof. unfold matrix_live, buffer. intros ->. tauto. Qed.

Lemma matrix_live_buffer w M :
  matrix_live w M ->
  exists buf, mem w !! data M = Some buf /\ length buf = Z.to_nat (n M * m M).
Proof.
  intros (_ & _ & _ & Hl). unfold buffer in Hl.
  destruct (mem w !! data M) as [buf|]; simpl in Hl; [| discriminate].
  exists buf. split; [reflexivity | congruence].
Qed.

(** A read inside a matrix, whatever its other dimension. *)
Lemma Matrix_get_live w M i j :
  matrix_live w M -> in_range M i j ->
  exists v, elem w M i j = Some v /\
            Matrix_get M i j w = (Some v, add_log [Load M (i * m M + j)] w).
Proof.
  intros Hok Hr. destruct (matrix_live_buffer _ _ Hok) as (buf & Hb & Hl).
  destruct Hok as (_ & _ & Hfit & _).
  destruct (index_row_major _ _ _ Hfit Hr) as [Hidx Hoff].
  destruct (lookup_lt_is_Some_2 buf (Z.to_nat (i * m M + j))) as [v Hv]; [lia |].
  exists v. unfold elem, buffer. rewrite Hb. split; [exact Hv |].
  unfold Matrix_get, load. rewrite Hidx, Hb. now rewrite Hv.
Qed.

(** A read inside the matrix returns the element and only logs. *)
Lemma Matrix_get_ok w M i j :
  matrix_ok w M -> in_range M i j ->
  exists v, elem w M i j = Some v /\
            Matrix_get M i j w = (Some v, add_log [Load M (i * m M + j)] w).
Proof.
  intros Hok Hr. destruct (matrix_ok_elem _ _ _ _ Hok Hr) as [v Hv].
  exists v. split; [assumption |].
  destruct Hok as (_ & _ & Hfit & _).
  destruct (index_row_major _ _ _ Hfit Hr) as [Hidx _].
  unfold Matrix_get, load. rewrite Hidx.
  unfold elem, buffer in Hv.
  destruct (mem w !! data M) as [buf|]; simpl in Hv; [| discriminate].
  now rewrite Hv.
Qed.

(** A write inside the matrix replaces one element of its array. *)
Lemma Matrix_set_ok w M i j v :
  matrix_ok w M -> in_range M i j ->
  exists buf,
    mem w !! data M = Some buf /\ length buf = Z.to_nat (n M * m M) /\
    Matrix_set M i j v w =
      (Some tt, set_mem (insert (data M) (<[Z.to_nat (i * m M + j) := v]> buf))
                        (add_log [Store M (i * m M + j)] w)).
Proof.
  intros Hok Hr. destruct (matrix_ok_buffer _ _ Hok) as (buf & Hb & Hl).
  exists buf. split; [assumption |]. split; [assumption |].
  destruct Hok as (_ & _ & Hfit & _).
  destruct (index_row_major _ _ _ Hfit Hr) as [Hidx Hoff].
  unfold Matrix_set, store. rewrite Hidx, Hb.
  destruct (decide _) as [_|Hn]; [reflexivity | lia].
Qed.

End Container.

(** ** The multiplication kernel *)

Section Kernel.
Context `{Platform}.
Local Open Scope comp_scope.

Variables (w0 : world) (a b c : Matrix).
Hypothesis Ha : matrix_live w0 a.
Hypothesis Hb : matrix_live w0 b.
Hypothesis Hcn : n c = n a.
Hypothesis Hcm : m c = m b.
Hypothesis Hca : data c <> data a.
Hypothesis Hcb : data c <> data b.

Lemma entry_of_elem w M i j v : elem w M i j = Some v -> entry w M i j = v.
Proof. unfold entry. now intros ->. Qed.

Lemma upto_succ k : map Z.of_nat (seq 0 (Datatypes.S k)) = map Z.of_nat (seq 0 k) ++ [Z.of_nat k].
Proof. now rewrite seq_S, map_app. Qed.

(** The first [K] rounds of the accumulation loop, as long as they stay
    inside [a] and [b]. *)
Lemma inner_prefix_ok w i j K :
  mem w !! data a = mem w0 !! data a ->
  mem w !! data b = mem w0 !! data b ->
  0 <= i < n a -> 0 <= j < m b -> Z.of_nat K <= m a -> Z.of_nat K <= n b ->
  exists evs,
    for_loop K 0 (fun k s =>
        x <- Matrix_get a i k ;;
        y <- Matrix_get b k j ;;
        ret (F32.add s (F32.mul x y))) F32.zero w
    = (Some (fold_left (fun s k => F32.add s (F32.mul (entry w0 a i k) (entry w0 b k j)))
                       (map Z.of_nat (seq 0 K)) F32.zero),
       add_log evs w) /\
    Forall (kernel_access a b c) evs.
Proof.
  intros Ea Eb Hi Hj HKa HKb.
  set (f := fun s k => F32.add s (F32.mul (entry w0 a i k) (entry w0 b k j))).
  edestruct (for_loop_rule
    (fun k s w' => s = fold_left f (map Z.of_nat (seq 0 k)) F32.zero /\
                   exists evs, w' = add_log evs w /\ Forall (kernel_access a b c) evs))
    as (s' & w' & E & Hs & evs & Hw & Hev); cycle 2.
  - exists evs. rewrite E, Hs, Hw. split; [reflexivity | assumption].
  - split; [reflexivity |]. exists []. now rewrite add_log_nil.
  - intros k s w1 Hk (Hs & evs & Hw & Hev). subst s w1. simpl (0 + _).
    assert (Hka : in_range a i (Z.of_nat k)) by (unfold in_range; lia).
    assert (Hkb : in_range b (Z.of_nat k) j) by (unfold in_range; lia).
    assert (Ha1 : matrix_live (add_log evs w) a) by (apply (matrix_live_ext w0); assumption).
    destruct (Matrix_get_live _ _ _ _ Ha1 Hka) as (x & Hx & Gx).
    rewrite (bind_ok _ _ _ _ _ Gx).
    assert (Hb1 : matrix_live (add_log [Load a (i * m a + Z.of_nat k)] (add_log evs w)) b)
      by (apply (matrix_live_ext w0); assumption).
    destruct (Matrix_get_live _ _ _ _ Hb1 Hkb) as (y & Hy & Gy).
    rewrite (bind_ok _ _ _ _ _ Gy).
    rewrite (elem_ext w0) in Hx by assumption.
    rewrite (elem_ext w0) in Hy by assumption.
    eexists _, _. split; [reflexivity |]. split.
    + rewrite upto_succ, fold_left_app. simpl. unfold f at 2.
      now rewrite (entry_of_elem _ _ _ _ _ Hx), (entry_of_elem _ _ _ _ _ Hy).
    + eexists. rewrite !add_log_app. split; [reflexivity |].
      apply Forall_app. split; [assumption |].
      destruct Ha as (_ & _ & Hfa & _), Hb as (_ & _ & Hfb & _).
      pose proof (index_row_major a _ _ Hfa Hka) as [_ Hoa].
      pose proof (index_row_major b _ _ Hfb Hkb) as [_ Hob].
      repeat constructor; simpl; tauto.
Qed.

(** [dot] does not compare [a.m] with [b.n]; the loops stay inside [b]
    as long as [b] has [a.m] rows at least. *)
Hypothesis Hab : m a <= n b.

(** The accumulation loop: lines 21 to 23. *)
Lemma inner_loop_ok w i j :
  mem w !! data a = mem w0 !! data a ->
  mem w !! data b = mem w0 !! data b ->
  0 <= i < n a -> 0 <= j < m b ->
  exists evs,
    for_size (m a) (fun k s =>
        x <- Matrix_get a i k ;;
        y <- Matrix_get b k j ;;
        ret (F32.add s (F32.mul x y))) F32.zero w
    = (Some (dot_sum w0 a b i j), add_log evs w) /\
    Forall (kernel_access a b c) evs.
Proof.
  intros Ea Eb Hi Hj. unfold for_size, dot_sum, upto.
  assert (0 <= m a) by apply Ha.
  apply inner_prefix_ok; try assumption; lia.
Qed.

Hypothesis Hc : matrix_ok w0 c.

Lemma dot_inv_start : dot_inv w0 a b c 0 0 w0.
Proof.
  unfold dot_inv. repeat split; try tauto; try apply Hc.
  - intros i' j' [Hi' Hj'] [Hlt | [-> Hlt]]; lia.
  - exists []. now rewrite app_nil_r.
Qed.

(** One cell: lines 21 to 24. *)
Lemma cell_ok i j w :
  dot_inv w0 a b c i j w -> in_range c i j ->
  exists w',
    (s <- for_size (m a) (fun k s =>
            x <- Matrix_get a i k ;;
            y <- Matrix_get b k j ;;
            ret (F32.add s (F32.mul x y))) F32.zero ;;
     Matrix_set c i j s) w = (Some tt, w') /\
    dot_inv w0 a b c i (j + 1) w'.
Proof.
  intros (Hfr & Hrng & Hclk & Hcw & Hel & evs0 & Hlog & Hev0) Hr.
  assert (Hi : 0 <= i < n a) by (destruct Hr; lia).
  assert (Hj : 0 <= j < m b) by (destruct Hr; lia).
  destruct (inner_loop_ok w i j) as (evs & E & Hev); auto.
  rewrite (bind_ok _ _ _ _ _ E).
  assert (Hc1 : matrix_ok (add_log evs w) c) by (now apply (matrix_ok_ext w)).
  destruct (Matrix_set_ok _ _ _ _ (dot_sum w0 a b i j) Hc1 Hr) as (buf & Hbuf & Hlen & ->).
  eexists. split; [reflexivity |].
  simpl in Hbuf.
  assert (Hoff : 0 <= i * m c + j < n c * m c).
  { destruct Hc as (_ & _ & Hfit & _). now apply index_row_major. }
  unfold dot_inv. repeat split; simpl.
  - intros l Hl. rewrite lookup_insert_ne by congruence. now apply Hfr.
  - assumption.
  - assumption.
  - apply Hc.
  - apply Hc.
  - apply Hc.
  - unfold buffer; simpl. rewrite lookup_insert_eq. simpl.
    now rewrite length_insert, Hlen.
  - intros i' j' Hr' Hbefore. unfold elem, buffer; simpl.
    rewrite lookup_insert_eq. simpl.
    destruct (decide (i' = i /\ j' = j)) as [[-> ->] | Hne].
    + rewrite list_lookup_insert_eq by lia. reflexivity.
    + rewrite list_lookup_insert_ne.
      * rewrite <- (Hel i' j' Hr'); [unfold elem, buffer; now rewrite Hbuf |].
        destruct Hbefore as [Hlt | [-> Hlt]]; [now left | right].
        split; [reflexivity |]. destruct (decide (j' = j)); [tauto | lia].
      * intros Eoff. apply Hne. apply (row_major_inj c); try assumption.
        destruct Hr' as [Hi' Hj'].
        assert (0 <= i' * m c + j') by nia. lia.
  - exists (evs0 ++ evs ++ [Store c (i * m c + j)]).
    rewrite Hlog, <- !app_assoc. split; [reflexivity |].
    rewrite !Forall_app. repeat split; try assumption.
    repeat constructor; simpl; lia.
Qed.

(** One row: lines 20 to 25. *)
Lemma row_ok i w :
  dot_inv w0 a b c i 0 w -> 0 <= i < n a ->
  exists w',
    for_size (m b) (fun j _ =>
      s <- for_size (m a) (fun k s =>
             x <- Matrix_get a i k ;;
             y <- Matrix_get b k j ;;
             ret (F32.add s (F32.mul x y))) F32.zero ;;
      Matrix_set c i j s) tt w = (Some tt, w') /\
    dot_inv w0 a b c (i + 1) 0 w'.
Proof.
  intros Hinv Hi. unfold for_size.
  edestruct (for_loop_rule (fun k (_ : unit) w' => dot_inv w0 a b c i (Z.of_nat k) w'))
    as ([] & w' & E & Hw'); cycle 2.
  - exists w'. split; [exact E |].
    destruct Hw' as (Hfr & Hrng & Hclk & Hcw & Hel & Hlog).
    unfold dot_inv. repeat split; try assumption; try apply Hcw.
    intros i' j' Hr' Hbefore. apply Hel; [assumption |].
    destruct Hr' as [Hi' Hj'].
    destruct Hbefore as [Hlt | [-> Hlt]]; [| lia].
    destruct (decide (i' = i)) as [-> | Hne]; [right | left; lia].
    split; [reflexivity |]. rewrite Z2Nat.id; lia.
  - exact Hinv.
  - intros k [] w1 Hk Hw1. simpl (0 + _).
    destruct (cell_ok i (Z.of_nat k) w1 Hw1) as (w2 & E2 & Hw2).
    { unfold in_range. lia. }
    exists tt, w2. split; [exact E2 |].
    now replace (Z.of_nat (Datatypes.S k)) with (Z.of_nat k + 1) by lia.
Qed.

(** The loop nest computes every cell of [c] and touches nothing else. *)
Lemma dot_loops_ok :
  exists w', dot_loops a b c w0 = (Some tt, w') /\ dot_inv w0 a b c (n a) 0 w'.
Proof.
  unfold dot_loops, for_size at 1.
  edestruct (for_loop_rule (fun k (_ : unit) w' => dot_inv w0 a b c (Z.of_nat k) 0 w'))
    as ([] & w' & E & Hw'); cycle 2.
  - exists w'. split; [exact E |].
    destruct Ha as (Hn & _). now rewrite Z2Nat.id in Hw' by lia.
  - exact dot_inv_start.
  - intros k [] w1 Hk Hw1. simpl (0 + _).
    destruct (row_ok (Z.of_nat k) w1 Hw1) as (w2 & E2 & Hw2); [lia |].
    exists tt, w2. split; [exact E2 |].
    now replace (Z.of_nat (Datatypes.S k)) with (Z.of_nat k + 1) by lia.
Qed.

End Kernel.

Section Dot.
Context `{Platform}.
Local Open Scope comp_scope.

Lemma fresh_unallocated w : mem w !! fresh (dom (mem w)) = None.
Proof. apply not_elem_of_dom, is_fresh. Qed.

Lemma Matrix_new_eq w r c :
  let l := fresh (dom (mem w)) in
  Matrix_new r c w =
    (Some {| data := l; n := r; m := c |},
     set_mem (insert l (map (uninit l) (seq 0 (Z.to_nat (Size.mul r c))))) w).
Proof. reflexivity. Qed.

(** The constructor, for dimensions whose product is a [size_t]. *)
Lemma Matrix_new_ok w r c :
  0 < r -> 0 < c -> r * c <= Size.SIZE_MAX ->
  exists M w',
    Matrix_new r c w = (Some M, w') /\ n M = r /\ m M = c /\
    mem w !! data M = None /\ matrix_ok w' M /\
    (forall l, l <> data M -> mem w' !! l = mem w !! l) /\
    rng w' = rng w /\ clock_reads w' = clock_reads w /\ log w' = log w.
Proof.
  intros Hr Hc Hfit. eexists _, _. split; [apply Matrix_new_eq |]. simpl.
  repeat split; try assumption.
  - apply fresh_unallocated.
  - unfold buffer; simpl. rewrite lookup_insert_eq. simpl.
    rewrite length_map, length_seq. do 2 f_equal.
    unfold Size.mul, Size.wrap. apply Z.mod_small.
    unfold Size.SIZE_MAX in Hfit. lia.
  - intros l Hl. now rewrite lookup_insert_ne by congruence.
Qed.

Lemma dot_sum_ext w w' a b i j :
  mem w' !! data a = mem w !! data a ->
  mem w' !! data b = mem w !! data b ->
  dot_sum w' a b i j = dot_sum w a b i j.
Proof.
  intros Ea Eb. unfold dot_sum, entry, elem, buffer. now rewrite Ea, Eb.
Qed.

(** Lines 18 to 25, when the result's shape is a shape and [b] has
    the rows that the loops read. *)
Lemma dot_result_live w a b :
  matrix_live w a -> matrix_live w b -> m a <= n b ->
  0 < n a -> 0 < m b -> n a * m b <= Size.SIZE_MAX ->
  exists c w',
    dot_result a b w = (Some c, w') /\ n c = n a /\ m c = m b /\
    mem w !! data c = None /\ matrix_ok w' c /\
    (forall i j, in_range c i j -> elem w' c i j = Some (dot_sum w a b i j)) /\
    (forall l, l <> data c -> mem w' !! l = mem w !! l) /\
    rng w' = rng w /\ clock_reads w' = clock_reads w /\
    exists evs, log w' = log w ++ evs /\ Forall (kernel_access a b c) evs.
Proof.
  intros Ha Hb Hab Hn Hm Hfit.
  destruct (Matrix_new_ok w (n a) (m b) Hn Hm Hfit)
    as (c & w1 & E1 & Hcn & Hcm & Hfresh & Hc1 & Hfr1 & Hrng1 & Hclk1 & Hlog1).
  assert (Hca : data c <> data a).
  { intros E. destruct (matrix_live_buffer _ _ Ha) as (? & ? & _). congruence. }
  assert (Hcb : data c <> data b).
  { intros E. destruct (matrix_live_buffer _ _ Hb) as (? & ? & _). congruence. }
  assert (Ha1 : matrix_live w1 a) by (apply (matrix_live_ext w); [apply Hfr1 |]; auto).
  assert (Hb1 : matrix_live w1 b) by (apply (matrix_live_ext w); [apply Hfr1 |]; auto).
  destruct (dot_loops_ok w1 a b c Ha1 Hb1 Hcn Hcm Hca Hcb Hab Hc1)
    as (w2 & E2 & Hfr2 & Hrng2 & Hclk2 & Hc2 & Hel & evs & Hlog2 & Hev).
  exists c, w2. unfold dot_result.
  rewrite (bind_ok _ _ _ _ _ E1), (bind_ok _ _ _ _ _ E2).
  split; [reflexivity |]. repeat split; try assumption; try apply Hc2; try congruence.
  - intros i j Hr. rewrite (Hel i j Hr).
    + f_equal. apply dot_sum_ext; apply Hfr1; auto.
    + destruct Hr as [Hi Hj]. left. lia.
  - intros l Hl. rewrite Hfr2 by assumption. now apply Hfr1.
  - exists evs. split; [congruence | assumption].
Qed.

(** Lines 18 to 25, when the result's shape is a shape. *)
Lemma dot_result_ok w a b :
  matrix_ok w a -> matrix_ok w b -> m a = n b -> n a * m b <= Size.SIZE_MAX ->
  exists c w',
    dot_result a b w = (Some c, w') /\ n c = n a /\ m c = m b /\
    mem w !! data c = None /\ matrix_ok w' c /\
    (forall i j, in_range c i j -> elem w' c i j = Some (dot_sum w a b i j)) /\
    (forall l, l <> data c -> mem w' !! l = mem w !! l) /\
    rng w' = rng w /\ clock_reads w' = clock_reads w /\
    exists evs, log w' = log w ++ evs /\ Forall (kernel_access a b c) evs.
Proof.
  intros Ha Hb Hab Hfit.
  apply dot_result_live; try assumption; try (now apply matrix_ok_live);
    try lia; [apply Ha | apply Hb].
Qed.

(** The whole kernel: it returns the first cell of the product and
    leaves the heap as it found it. *)
Lemma dot_live w a b :
  matrix_live w a -> matrix_live w b -> m a <= n b ->
  0 < n a -> 0 < m b -> n a * m b <= Size.SIZE_MAX ->
  exists w' c evs,
    dot a b w = (Some (dot_sum w a b 0 0), w') /\
    mem w' = mem w /\ rng w' = rng w /\ clock_reads w' = clock_reads w /\
    log w' = log w ++ Call_dot a b :: evs /\
    mem w !! data c = None /\ n c = n a /\ m c = m b /\
    Forall (kernel_access a b c) evs.
Proof.
  intros Ha Hb Hab Hn Hm Hfit.
  set (we := emit (Call_dot a b) w).
  destruct (dot_result_live we a b) as
    (c & w1 & E1 & Hcn & Hcm & Hfresh & Hc1 & Hel & Hfr & Hrng & Hclk & evs & Hlog & Hev);
    try assumption.
  assert (H00 : in_range c 0 0) by (unfold in_range; lia).
  destruct (Matrix_get_ok _ _ _ _ Hc1 H00) as (v & Hv & G).
  rewrite (Hel 0 0 H00) in Hv. injection Hv as <-.
  destruct (matrix_ok_buffer _ _ Hc1) as (buf & Hbuf & _).
  exists (set_mem (delete (data c)) (add_log [Load c (0 * m c + 0)] w1)), c,
         (evs ++ [Load c (0 * m c + 0)]).
  split.
  - unfold dot. change (bind ?f ?g w) with (g tt we). cbv beta.
    rewrite (bind_ok _ _ _ _ _ E1), (bind_ok _ _ _ _ _ G).
    unfold Matrix_delete, delete_array, bind. simpl. now rewrite Hbuf.
  - simpl. repeat split; try assumption.
    + apply map_eq. intros l. destruct (decide (l = data c)) as [-> | Hl].
      * rewrite lookup_delete_eq. symmetry. exact Hfresh.
      * rewrite lookup_delete_ne by congruence. now apply Hfr.
    + rewrite Hlog. simpl. now rewrite <- !app_assoc.
    + apply Forall_app. split; [assumption |].
      constructor; [| constructor]. simpl.
      destruct Hc1 as (? & ? & _). split; [tauto | nia].
Qed.

Lemma dot_ok w a b :
  matrix_ok w a -> matrix_ok w b -> m a = n b -> n a * m b <= Size.SIZE_MAX ->
  exists w' c evs,
    dot a b w = (Some (dot_sum w a b 0 0), w') /\
    mem w' = mem w /\ rng w' = rng w /\ clock_reads w' = clock_reads w /\
    log w' = log w ++ Call_dot a b :: evs /\
    mem w !! data c = None /\ n c = n a /\ m c = m b /\
    Forall (kernel_access a b c) evs.
Proof.
  intros Ha Hb Hab Hfit.
  apply dot_live; try assumption; try (now apply matrix_ok_live);
    try lia; [apply Ha | apply Hb].
Qed.

End Dot.

(** ** The random filler *)

Section Filler.
Context `{Platform}.
Local Open Scope comp_scope.

Lemma call_rand_eq w :
  call_rand w =
    (Some (fst (rand (rng w))),
     {| mem := mem w; rng := snd (rand (rng w));
        clock_reads := clock_reads w; log := log w |}).
Proof. unfold call_rand. now destruct (rand (rng w)). Qed.

Lemma fill_cell_ok w0 M i j w :
  fill_inv w0 M i j w -> in_range M i j ->
  exists w',
    (r <- call_rand ;; Matrix_set M i j (rand_value r)) w = (Some tt, w') /\
    fill_inv w0 M i (j + 1) w'.
Proof.
  intros (Hfr & Hrng & Hclk & Hok & Hel & evs0 & Hlog & Hev0) Hr.
  rewrite (bind_ok _ _ _ _ _ (call_rand_eq w)).
  set (w1 := {| mem := mem w; rng := snd (rand (rng w));
                clock_reads := clock_reads w; log := log w |}).
  assert (Hok1 : matrix_ok w1 M) by (now apply (matrix_ok_ext w)).
  destruct (Matrix_set_ok _ _ _ _ (rand_value (fst (rand (rng w)))) Hok1 Hr)
    as (buf & Hbuf & Hlen & ->).
  eexists. split; [reflexivity |]. simpl in Hbuf.
  assert (Hoff : 0 <= i * m M + j < n M * m M).
  { destruct Hok as (_ & _ & Hfit & _). now apply index_row_major. }
  unfold fill_inv. repeat split; simpl.
  - intros l Hl. rewrite lookup_insert_ne by congruence. now apply Hfr.
  - rewrite Hrng. replace (Z.to_nat (i * m M + (j + 1)))
      with (Datatypes.S (Z.to_nat (i * m M + j))) by lia.
    reflexivity.
  - assumption.
  - apply Hok.
  - apply Hok.
  - apply Hok.
  - unfold buffer; simpl. rewrite lookup_insert_eq. simpl.
    now rewrite length_insert, Hlen.
  - intros i' j' Hr' Hbefore. unfold elem, buffer; simpl.
    rewrite lookup_insert_eq. simpl.
    destruct (decide (i' = i /\ j' = j)) as [[-> ->] | Hne].
    + rewrite list_lookup_insert_eq by lia. unfold rand_nth. now rewrite Hrng.
    + rewrite list_lookup_insert_ne.
      * rewrite <- (Hel i' j' Hr'); [unfold elem, buffer; now rewrite Hbuf |].
        destruct Hbefore as [Hlt | [-> Hlt]]; [now left | right].
        split; [reflexivity |]. destruct (decide (j' = j)); [tauto | lia].
      * intros Eoff. apply Hne. apply (row_major_inj M); try assumption.
        destruct Hr' as [Hi' Hj'].
        assert (0 <= i' * m M + j') by nia. lia.
  - exists (evs0 ++ [Store M (i * m M + j)]).
    rewrite Hlog, <- !app_assoc. split; [reflexivity |].
    apply Forall_app. split; [assumption |].
    constructor; [| constructor]. now eexists.
Qed.

Lemma fill_row_ok w0 M i w :
  fill_inv w0 M i 0 w -> 0 <= i < n M ->
  exists w',
    for_size (m M) (fun j _ =>
      r <- call_rand ;; Matrix_set M i j (rand_value r)) tt w = (Some tt, w') /\
    fill_inv w0 M (i + 1) 0 w'.
Proof.
  intros Hinv Hi. unfold for_size.
  edestruct (for_loop_rule (fun k (_ : unit) w' => fill_inv w0 M i (Z.of_nat k) w'))
    as ([] & w' & E & Hw'); cycle 2.
  - exists w'. split; [exact E |].
    destruct Hw' as (Hfr & Hrng & Hclk & Hok & Hel & Hlog).
    assert (Hm : 0 < m M) by apply Hok.
    unfold fill_inv. repeat split; try assumption; try apply Hok.
    + rewrite Hrng. f_equal. rewrite Z2Nat.id by lia. f_equal. lia.
    + intros i' j' Hr' Hbefore. apply Hel; [assumption |].
      destruct Hr' as [Hi' Hj'].
      destruct Hbefore as [Hlt | [-> Hlt]]; [| lia].
      destruct (decide (i' = i)) as [-> | Hne]; [right | left; lia].
      split; [reflexivity |]. rewrite Z2Nat.id; lia.
  - exact Hinv.
  - intros k [] w1 Hk Hw1. simpl (0 + _).
    destruct (fill_cell_ok w0 M i (Z.of_nat k) w1 Hw1) as (w2 & E2 & Hw2).
    { unfold in_range. lia. }
    exists tt, w2. split; [exact E2 |].
    now replace (Z.of_nat (Datatypes.S k)) with (Z.of_nat k + 1) by lia.
Qed.

(** [fill_rand] writes one generator output, scaled, into every element,
    in row-major order, and touches nothing else. *)
Lemma fill_rand_ok w M :
  matrix_ok w M ->
  exists w',
    fill_rand M w = (Some tt, w') /\
    matrix_ok w' M /\
    (forall i j, in_range M i j ->
       elem w' M i j = Some (rand_value (rand_nth (rng w) (Z.to_nat (i * m M + j))))) /\
    (forall l, l <> data M -> mem w' !! l = mem w !! l) /\
    rng w' = rand_state (rng w) (Z.to_nat (n M * m M)) /\
    clock_reads w' = clock_reads w /\
    exists evs, log w' = log w ++ evs /\ Forall (is_store_to M) evs.
Proof.
  intros Hok. assert (Hn : 0 < n M) by apply Hok.
  unfold fill_rand, for_size at 1.
  edestruct (for_loop_rule (fun k (_ : unit) w' => fill_inv w M (Z.of_nat k) 0 w'))
    as ([] & w' & E & Hw'); cycle 2.
  - exists w'. split; [exact E |].
    rewrite Z2Nat.id in Hw' by lia.
    destruct Hw' as (Hfr & Hrng & Hclk & Hok' & Hel & Hlog).
    repeat split; try assumption; try apply Hok'.
    + intros i j Hr. apply Hel; [assumption |]. left. apply Hr.
    + rewrite Hrng. do 2 f_equal. lia.
  - unfold fill_inv. repeat split; try tauto; try apply Hok.
    + intros i' j' [Hi' Hj'] [Hlt | [-> Hlt]]; lia.
    + exists []. now rewrite app_nil_r.
  - intros k [] w1 Hk Hw1. simpl (0 + _).
    destruct (fill_row_ok w M (Z.of_nat k) w1 Hw1) as (w2 & E2 & Hw2); [lia |].
    exists tt, w2. split; [exact E2 |].
    now replace (Z.of_nat (Datatypes.S k)) with (Z.of_nat k + 1) by lia.
Qed.

End Filler.

(** ** The benchmark driver *)

Section Driver.
Context `{Platform}.
Local Open Scope comp_scope.

Lemma dot_calls_app e1 e2 : dot_calls (e1 ++ e2) = dot_calls e1 ++ dot_calls e2.
Proof. apply omap_app. Qed.

Lemma outputs_app e1 e2 : outputs (e1 ++ e2) = outputs e1 ++ outputs e2.
Proof. apply omap_app. Qed.

Lemma kernel_access_quiet a b c evs :
  Forall (kernel_access a b c) evs -> dot_calls evs = [] /\ outputs evs = [].
Proof.
  induction 1 as [| e evs He _ [IH1 IH2]]; [split; reflexivity |].
  destruct e; simpl in He; try contradiction; simpl; now split.
Qed.

(** The timed loop: lines 42 to 45. *)
Lemma bench_loop_ok w a b T s0 :
  matrix_ok w a -> matrix_ok w b -> m a = n b -> n a * m b <= Size.SIZE_MAX ->
  exists w' evs,
    for_loop T 0 (fun _ s => r <- dot a b ;; ret (F32.add s r)) s0 w
    = (Some (Nat.iter T (fun s => F32.add s (dot_sum w a b 0 0)) s0), w') /\
    mem w' = mem w /\ rng w' = rng w /\ clock_reads w' = clock_reads w /\
    log w' = log w ++ evs /\
    dot_calls evs = replicate T (a, b) /\ outputs evs = [].
Proof.
  intros Ha Hb Hab Hfit.
  edestruct (for_loop_rule (fun k s w' =>
      s = Nat.iter k (fun s => F32.add s (dot_sum w a b 0 0)) s0 /\
      mem w' = mem w /\ rng w' = rng w /\ clock_reads w' = clock_reads w /\
      exists evs, log w' = log w ++ evs /\
                  dot_calls evs = replicate k (a, b) /\ outputs evs = []))
    as (s' & w' & E & -> & Hmem & Hrng & Hclk & evs & Hlog & Hcalls & Houts); cycle 2.
  - exists w', evs. rewrite E. repeat split; assumption.
  - repeat split. exists []. rewrite app_nil_r. repeat split.
  - intros k s w1 Hk (-> & Hmem & Hrng & Hclk & evs & Hlog & Hcalls & Houts).
    assert (Ha1 : matrix_ok w1 a) by (apply (matrix_ok_ext w); [now rewrite Hmem | assumption]).
    assert (Hb1 : matrix_ok w1 b) by (apply (matrix_ok_ext w); [now rewrite Hmem | assumption]).
    destruct (dot_ok w1 a b Ha1 Hb1 Hab Hfit)
      as (w2 & c & evs2 & E2 & Hmem2 & Hrng2 & Hclk2 & Hlog2 & _ & _ & _ & Hev2).
    rewrite (bind_ok _ _ _ _ _ E2).
    eexists _, w2. split; [reflexivity |].
    rewrite (dot_sum_ext w w1) by (now rewrite Hmem).
    repeat split; try congruence.
    exists (evs ++ Call_dot a b :: evs2).
    destruct (kernel_access_quiet _ _ _ _ Hev2) as [Q1 Q2].
    rewrite Hlog2, Hlog, <- app_assoc, dot_calls_app, outputs_app. simpl.
    rewrite Hcalls, Houts, Q1, Q2. repeat split.
    change ((a, b) :: replicate k (a, b)) with (replicate (Datatypes.S k) (a, b)).
    now rewrite replicate_S_end.
Qed.

Lemma call_srand_eq seed w :
  call_srand seed w =
    (Some tt, {| mem := mem w; rng := srand seed;
                 clock_reads := clock_reads w; log := log w |}).
Proof. reflexivity. Qed.

Lemma now_eq w :
  now w = (Some (system_clock_now (clock_reads w)),
           {| mem := mem w; rng := rng w;
              clock_reads := Datatypes.S (clock_reads w); log := log w |}).
Proof. reflexivity. Qed.

Lemma put_eq ch it w : put ch it w = (Some tt, add_log [Out ch it] w).
Proof. reflexivity. Qed.

Lemma Matrix_delete_eq M w buf :
  mem w !! data M = Some buf ->
  Matrix_delete M w = (Some tt, set_mem (delete (data M)) w).
Proof. intros E. unfold Matrix_delete, delete_array. now rewrite E. Qed.

Lemma rand_state_add g k1 k2 :
  rand_state (rand_state g k1) k2 = rand_state g (k1 + k2).
Proof. unfold rand_state. rewrite (Nat.add_comm k1 k2). symmetry. apply Nat.iter_add. Qed.

(** The whole run of [main], with what it leaves behind. *)
Lemma main_full w :
  exists a b wf w' fills runs,
    n a = 100 /\ m a = 200 /\ n b = 200 /\ m b = 50 /\ data a <> data b /\
    mem w !! data a = None /\ mem w !! data b = None /\
    matrix_ok wf a /\ matrix_ok wf b /\
    (forall i j, in_range a i j ->
       elem wf a i j =
       Some (rand_value (rand_nth (srand (to_unsigned time_null)) (Z.to_nat (i * 200 + j))))) /\
    (forall i j, in_range b i j ->
       elem wf b i j =
       Some (rand_value (rand_nth (srand (to_unsigned time_null))
                                  (Z.to_nat (100 * 200) + Z.to_nat (i * 50 + j))))) /\
    main w = (Some 0, w') /\
    mem w' = mem w /\
    log w' = log w ++ fills ++ runs ++
             map (fun o => Out (fst o) (snd o))
                 (report (Nat.iter 100 (fun s => F32.add s (dot_sum wf a b 0 0)) F32.zero)
                         (average_us (duration_seconds
                                        (system_clock_now (clock_reads w))
                                        (system_clock_now (Datatypes.S (clock_reads w))))
                                     100)) /\
    Forall (is_fill_store a b) fills /\
    dot_calls runs = replicate 100 (a, b) /\ outputs runs = [] /\
    rng w' = rand_state (srand (to_unsigned time_null))
                        (Z.to_nat (100 * 200) + Z.to_nat (200 * 50)) /\
    clock_reads w' = Datatypes.S (Datatypes.S (clock_reads w)).
Proof.
  set (g0 := srand (to_unsigned time_null)).
  set (ws := {| mem := mem w; rng := g0; clock_reads := clock_reads w; log := log w |}).
  destruct (Matrix_new_ok ws 100 200) as
    (a & w1 & E1 & Han & Ham & Hfa & Ha1 & Hfr1 & Hrng1 & Hclk1 & Hlog1);
    [lia | lia | unfold Size.SIZE_MAX, Size.modulus, Size.bits; lia |].
  destruct (Matrix_new_ok w1 200 50) as
    (b & w2 & E2 & Hbn & Hbm & Hfb & Hb2 & Hfr2 & Hrng2 & Hclk2 & Hlog2);
    [lia | lia | unfold Size.SIZE_MAX, Size.modulus, Size.bits; lia |].
  assert (Hab : data a <> data b).
  { intros E. destruct (matrix_ok_buffer _ _ Ha1) as (? & ? & _). congruence. }
  assert (Ha2 : matrix_ok w2 a) by (apply (matrix_ok_ext w1); [now apply Hfr2 | assumption]).
  destruct (fill_rand_ok w2 a Ha2) as
    (w3 & E3 & Ha3 & Hel3 & Hfr3 & Hrng3 & Hclk3 & evs3 & Hlog3 & Hev3).
  assert (Hb3 : matrix_ok w3 b)
    by (apply (matrix_ok_ext w2); [apply Hfr3; congruence | assumption]).
  destruct (fill_rand_ok w3 b Hb3) as
    (w4 & E4 & Hb4 & Hel4 & Hfr4 & Hrng4 & Hclk4 & evs4 & Hlog4 & Hev4).
  assert (Ha4 : matrix_ok w4 a) by (apply (matrix_ok_ext w3); [now apply Hfr4 | assumption]).
  set (w5 := {| mem := mem w4; rng := rng w4;
                clock_reads := Datatypes.S (clock_reads w4); log := log w4 |}).
  destruct (bench_loop_ok w5 a b (Z.to_nat 100) F32.zero) as
    (w6 & evs6 & E6 & Hmem6 & Hrng6 & Hclk6 & Hlog6 & Hcalls & Houts);
    [exact Ha4 | exact Hb4 | congruence
     | rewrite Han, Hbm; unfold Size.SIZE_MAX, Size.modulus, Size.bits; lia |].
  destruct (matrix_ok_buffer _ _ Ha4) as (bufa & Hbufa & _).
  destruct (matrix_ok_buffer _ _ Hb4) as (bufb & Hbufb & _).
  assert (Hclk : clock_reads w4 = clock_reads w).
  { rewrite Hclk4, Hclk3, Hclk2, Hclk1. reflexivity. }
  exists a, b, w4. eexists. exists (evs3 ++ evs4), evs6.
  repeat match goal with |- _ /\ _ => split end; try assumption.
  - change (mem ws !! data b = None). rewrite <- Hfr1; [exact Hfb | congruence].
  - intros i j Hr. rewrite (elem_ext w3) by (now apply Hfr4).
    rewrite (Hel3 i j Hr), Hrng2, Hrng1, Ham. reflexivity.
  - intros i j Hr. rewrite (Hel4 i j Hr), Hrng3, Hrng2, Hrng1, Hbm, Han, Ham.
    simpl rng. unfold rand_nth. rewrite rand_state_add. reflexivity.
  - unfold main. cbv zeta.
    rewrite (bind_ok _ _ _ _ _ (call_srand_eq _ w)). fold g0. fold ws.
    rewrite (bind_ok _ _ _ _ _ E1), (bind_ok _ _ _ _ _ E2).
    rewrite (bind_ok _ _ _ _ _ E3), (bind_ok _ _ _ _ _ E4).
    rewrite (bind_ok _ _ _ _ _ (now_eq w4)). fold w5.
    rewrite (bind_ok _ _ _ _ _ E6).
    rewrite (bind_ok _ _ _ _ _ (now_eq w6)).
    repeat rewrite (bind_ok _ _ _ _ _ (put_eq _ _ _)).
    match goal with |- bind _ _ ?W = _ =>
      rewrite (bind_ok _ _ _ _ _ (Matrix_delete_eq b W bufb
                 ltac:(simpl; rewrite Hmem6; exact Hbufb)))
    end.
    match goal with |- bind _ _ ?W = _ =>
      rewrite (bind_ok _ _ _ _ _ (Matrix_delete_eq a W bufa
                 ltac:(simpl; rewrite lookup_delete_ne by congruence;
                       rewrite Hmem6; exact Hbufa)))
    end.
    reflexivity.
  - cbn [mem set_mem add_log]. rewrite Hmem6. cbn [mem w5]. apply map_eq. intros l.
    destruct (decide (l = data a)) as [-> | Hla].
    { rewrite lookup_delete_eq. symmetry. exact Hfa. }
    rewrite lookup_delete_ne by congruence.
    destruct (decide (l = data b)) as [-> | Hlb].
    { rewrite lookup_delete_eq. symmetry.
      change (mem ws !! data b = None). rewrite <- Hfr1; [exact Hfb | congruence]. }
    rewrite lookup_delete_ne by congruence.
    rewrite Hfr4, Hfr3, Hfr2, Hfr1 by congruence. reflexivity.
  - cbn [log set_mem add_log]. rewrite Hlog6. cbn [log w5].
    rewrite Hlog4, Hlog3, Hlog2, Hlog1. cbn [log ws].
    rewrite Hclk6. cbn [clock_reads w5]. rewrite Hclk.
    rewrite <- !app_assoc. reflexivity.
  - apply Forall_app. split.
    + eapply Forall_impl; [exact Hev3 |]. intros e He. now left.
    + eapply Forall_impl; [exact Hev4 |]. intros e He. now right.
  - cbn [rng set_mem add_log]. rewrite Hrng6. cbn [rng w5].
    rewrite Hrng4, Hrng3, Hrng2, Hrng1, Han, Ham, Hbn, Hbm.
    cbn [rng ws]. apply rand_state_add.
  - cbn [clock_reads set_mem add_log]. rewrite Hclk6. cbn [clock_reads w5].
    now rewrite Hclk.
Qed.


(** The whole run of [main]. *)
Lemma main_ok w :
  exists a b wf w' fills runs,
    n a = 100 /\ m a = 200 /\ n b = 200 /\ m b = 50 /\ data a <> data b /\
    mem w !! data a = None /\ mem w !! data b = None /\
    matrix_ok wf a /\ matrix_ok wf b /\
    (forall i j, in_range a i j ->
       elem wf a i j =
       Some (rand_value (rand_nth (srand (to_unsigned time_null)) (Z.to_nat (i * 200 + j))))) /\
    (forall i j, in_range b i j ->
       elem wf b i j =
       Some (rand_value (rand_nth (srand (to_unsigned time_null))
                                  (Z.to_nat (100 * 200) + Z.to_nat (i * 50 + j))))) /\
    main w = (Some 0, w') /\
    mem w' = mem w /\
    log w' = log w ++ fills ++ runs ++
             map (fun o => Out (fst o) (snd o))
                 (report (Nat.iter 100 (fun s => F32.add s (dot_sum wf a b 0 0)) F32.zero)
                         (average_us (duration_seconds
                                        (system_clock_now (clock_reads w))
                                        (system_clock_now (Datatypes.S (clock_reads w))))
                                     100)) /\
    Forall (is_fill_store a b) fills /\
    dot_calls runs = replicate 100 (a, b) /\ outputs runs = [].
Proof.
  destruct (main_full w) as
    (a & b & wf & w' & fills & runs & H1 & H2 & H3 & H4 & H5 & H6 & H7 & H8 & H9 &
     H10 & H11 & H12 & H13 & H14 & H15 & H16 & H17 & _).
  exists a, b, wf, w', fills, runs.
  repeat match goal with |- _ /\ _ => split end; assumption.
Qed.

End Driver.

(** ** What a computation leaves alone *)

Section Frame.
Context `{Platform}.
Local Open Scope comp_scope.

Lemma same_on_refl L w : same_on L w w.
Proof. now intros l _. Qed.

Lemma same_on_trans L w1 w2 w3 : same_on L w1 w2 -> same_on L w2 w3 -> same_on L w1 w3.
Proof. intros H12 H23 l Hl. now rewrite H23, H12. Qed.

Lemma keeps_len_refl w : keeps_len w w.
Proof. intros l buf E. now exists buf. Qed.

Lemma keeps_len_trans w1 w2 w3 : keeps_len w1 w2 -> keeps_len w2 w3 -> keeps_len w1 w3.
Proof.
  intros H12 H23 l buf E.
  destruct (H12 l buf E) as (buf2 & E2 & L2).
  destruct (H23 l buf2 E2) as (buf3 & E3 & L3).
  exists buf3. split; [assumption | congruence].
Qed.

Lemma bind_assoc {A B C} (c : Comp A) (f : A -> Comp B) (g : B -> Comp C) w :
  bind (bind c f) g w = bind c (fun x => bind (f x) g) w.
Proof. unfold bind. destruct (c w) as [[x|] w1]; reflexivity. Qed.

Lemma stable_load R M off :
  (forall w evs, R w (add_log evs w)) -> stable R (load M off).
Proof.
  intros HR w. unfold load.
  destruct (mem w !! data M) as [buf|]; [destruct (buf !! Z.to_nat off) |]; apply HR.
Qed.

Lemma same_on_add_log L w evs : same_on L w (add_log evs w).
Proof. now intros l _. Qed.

Lemma keeps_len_add_log w evs : keeps_len w (add_log evs w).
Proof. intros l buf E. now exists buf. Qed.

Lemma same_on_store L M off v :
  (forall l, L l -> l <> data M) -> stable (same_on L) (store M off v).
Proof.
  intros HL w l Hl. unfold store.
  destruct (mem w !! data M) as [buf|]; [| reflexivity].
  destruct (decide _); [| reflexivity].
  simpl. apply lookup_insert_ne. intros E. now apply (HL l).
Qed.

Lemma keeps_len_store M off v : stable keeps_len (store M off v).
Proof.
  intros w l buf E. unfold store.
  destruct (mem w !! data M) as [bufM|] eqn:EM; [| now exists buf].
  destruct (decide _); [| now exists buf].
  simpl. destruct (decide (l = data M)) as [-> | Hne].
  - rewrite lookup_insert_eq. eexists. split; [reflexivity |].
    rewrite length_insert. congruence.
  - rewrite lookup_insert_ne by congruence. now exists buf.
Qed.

Lemma same_on_delete L l0 :
  (forall l, L l -> l <> l0) -> stable (same_on L) (delete_array l0).
Proof.
  intros HL w l Hl. unfold delete_array.
  destruct (mem w !! l0); [| reflexivity].
  simpl. apply lookup_delete_ne. intros E. now apply (HL l).
Qed.

Lemma same_on_dot_loops L a b c :
  (forall l, L l -> l <> data c) -> stable (same_on L) (dot_loops a b c).
Proof.
  intros HL. unfold dot_loops.
  apply stable_for_size; [apply same_on_refl | apply same_on_trans |].
  intros i _. apply stable_for_size; [apply same_on_refl | apply same_on_trans |].
  intros j _. apply stable_bind; [apply same_on_trans | |].
  - apply stable_for_size; [apply same_on_refl | apply same_on_trans |].
    intros k s. apply stable_bind; [apply same_on_trans | |].
    + apply stable_load, same_on_add_log.
    + intros x. apply stable_bind; [apply same_on_trans | |].
      * apply stable_load, same_on_add_log.
      * intros y. apply stable_ret, same_on_refl.
  - intros s. now apply same_on_store.
Qed.

(** Whatever its arguments, and whether it returns or faults, [dot]
    leaves every array that was live before the call as it was. *)
Lemma dot_frame w a b l :
  is_Some (mem w !! l) -> mem (snd (dot a b w)) !! l = mem w !! l.
Proof.
  intros Hl.
  set (we := emit (Call_dot a b) w).
  set (c := {| data := fresh (dom (mem we)); n := n a; m := m b |}).
  set (w1 := set_mem (insert (data c) (map (uninit (data c))
                        (seq 0 (Z.to_nat (Size.mul (n a) (m b)))))) we).
  assert (Hlc : l <> data c).
  { intros ->. pose proof (fresh_unallocated we) as Hf.
    destruct Hl as [x Hx]. change (mem w !! data c = None) in Hf. congruence. }
  assert (E : dot a b w =
              (dot_loops a b c ;;; r <- Matrix_get c 0 0 ;; Matrix_delete c ;;; ret r) w1).
  { unfold dot. change (bind ?f ?g w) with (g tt we). cbv beta.
    unfold dot_result. rewrite bind_assoc.
    rewrite (bind_ok _ _ _ _ _ (Matrix_new_eq we (n a) (m b))).
    fold c. fold w1. rewrite bind_assoc. reflexivity. }
  rewrite E.
  assert (S : stable (same_on (fun l => l <> data c))
                (dot_loops a b c ;;; r <- Matrix_get c 0 0 ;; Matrix_delete c ;;; ret r)).
  { apply stable_bind; [apply same_on_trans | now apply same_on_dot_loops |].
    intros _. apply stable_bind; [apply same_on_trans | |].
    - apply stable_load, same_on_add_log.
    - intros r. apply stable_bind; [apply same_on_trans | |].
      + now apply same_on_delete.
      + intros _. apply stable_ret, same_on_refl. }
  rewrite (S w1 l Hlc). unfold w1. simpl. now apply lookup_insert_ne.
Qed.

Lemma keeps_len_dot a b : stable keeps_len (fun w => dot a b w).
Proof.
  intros w l buf E. exists buf. split; [| reflexivity].
  rewrite dot_frame; [assumption | now exists buf].
Qed.

Lemma keeps_len_new r c : stable keeps_len (Matrix_new r c).
Proof.
  intros w l buf E. exists buf. split; [| reflexivity].
  rewrite Matrix_new_eq. simpl. rewrite lookup_insert_ne; [assumption |].
  intros El. rewrite <- El in E. rewrite fresh_unallocated in E. discriminate.
Qed.

Lemma keeps_len_fill_rand M : stable keeps_len (fill_rand M).
Proof.
  unfold fill_rand.
  apply stable_for_size; [apply keeps_len_refl | apply keeps_len_trans |].
  intros i _. apply stable_for_size; [apply keeps_len_refl | apply keeps_len_trans |].
  intros j _. apply stable_bind; [apply keeps_len_trans | |].
  - intros w. rewrite call_rand_eq. intros l buf E. now exists buf.
  - intros r. apply keeps_len_store.
Qed.

End Frame.

(** ** When the shape of the result overflows *)

Section Overflow.
Context `{Platform}.
Local Open Scope comp_scope.

Lemma for_loop_fault {S} count i (body : Z -> S -> Comp S) s w w' :
  (0 < count)%nat -> body i s w = (None, w') -> for_loop count i body s w = (None, w').
Proof.
  intros Hc Hf. destruct count as [|c]; [lia |].
  simpl. now apply bind_fault.
Qed.

(** [dot], once [c] is constructed. *)
Lemma dot_unfold w a b :
  let we := emit (Call_dot a b) w in
  let c := {| data := fresh (dom (mem we)); n := n a; m := m b |} in
  let w1 := set_mem (insert (data c) (map (uninit (data c))
                       (seq 0 (Z.to_nat (Size.mul (n a) (m b)))))) we in
  dot a b w = (dot_loops a b c ;;; r <- Matrix_get c 0 0 ;; Matrix_delete c ;;; ret r) w1.
Proof.
  intros we c w1. unfold dot. change (bind ?f ?g w) with (g tt we). cbv beta.
  unfold dot_result. rewrite bind_assoc.
  rewrite (bind_ok _ _ _ _ _ (Matrix_new_eq we (n a) (m b))).
  fold c. fold w1. rewrite bind_assoc. reflexivity.
Qed.

(** When [a.n * b.m] wraps around to zero, [c] has no element and the
    first [c(i, j) = s] is a write outside its array. *)
Lemma dot_overflow w a b :
  matrix_ok w a -> matrix_ok w b -> m a = n b -> Size.mul (n a) (m b) = 0 ->
  exists c evs w',
    dot a b w = (None, w') /\ n c = n a /\ m c = m b /\
    buffer w' c = Some [] /\
    log w' = log w ++ Call_dot a b :: evs ++ [Store c 0].
Proof.
  intros Ha Hb Hab Hmul.
  pose proof (dot_unfold w a b) as E. cbv zeta in E. rewrite Hmul in E.
  change (seq 0 (Z.to_nat 0)) with (@nil nat) in E. cbn [map] in E.
  set (we := emit (Call_dot a b) w) in *.
  set (c := {| data := fresh (dom (mem we)); n := n a; m := m b |}) in *.
  set (w1 := set_mem (insert (data c) []) we) in *.
  assert (Hfresh : mem w !! data c = None) by apply (fresh_unallocated we).
  assert (Hca : data c <> data a).
  { intros Ec. destruct (matrix_ok_buffer _ _ Ha) as (? & ? & _). congruence. }
  assert (Hcb : data c <> data b).
  { intros Ec. destruct (matrix_ok_buffer _ _ Hb) as (? & ? & _). congruence. }
  assert (Ha1 : matrix_ok w1 a).
  { apply (matrix_ok_ext w); [| assumption].
    unfold w1. cbn [mem set_mem]. now apply lookup_insert_ne. }
  assert (Hb1 : matrix_ok w1 b).
  { apply (matrix_ok_ext w); [| assumption].
    unfold w1. cbn [mem set_mem]. now apply lookup_insert_ne. }
  assert (Hn : 0 < n a) by apply Ha. assert (Hm : 0 < m b) by apply Hb.
  destruct (inner_loop_ok w1 a b c (matrix_ok_live _ _ Ha1) (matrix_ok_live _ _ Hb1)
              Hca Hcb ltac:(lia) w1 0 0) as (evs & Ein & _);
    [reflexivity | reflexivity | lia | lia |].
  set (w' := add_log [Store c 0] (add_log evs w1)).
  assert (Ecell :
    (s <- for_size (m a) (fun k s =>
            x <- Matrix_get a 0 k ;;
            y <- Matrix_get b k 0 ;;
            ret (F32.add s (F32.mul x y))) F32.zero ;;
     Matrix_set c 0 0 s) w1 = (None, w')).
  { rewrite (bind_ok _ _ _ _ _ Ein). unfold Matrix_set, store.
    assert (index c 0 0 = 0) as -> by reflexivity.
    replace (mem (add_log evs w1) !! data c) with (Some (@nil float))
      by (unfold w1; cbn [mem set_mem add_log]; now rewrite lookup_insert_eq).
    destruct (decide _) as [Hlt | _]; [simpl in Hlt; lia | reflexivity]. }
  assert (Eloops : dot_loops a b c w1 = (None, w')).
  { unfold dot_loops, for_size.
    apply for_loop_fault; [lia |].
    apply for_loop_fault; [lia |]. exact Ecell. }
  exists c, evs, w'. split; [| split; [reflexivity | split; [reflexivity | split]]].
  - rewrite E. now apply bind_fault.
  - unfold buffer, w', w1. cbn [mem set_mem add_log]. now rewrite lookup_insert_eq.
  - unfold w', w1, we, emit. cbn [log set_mem add_log]. rewrite <- !app_assoc. reflexivity.
Qed.

End Overflow.

(** ** Sequences of operations *)

Section Operations.
Context `{Platform}.
Local Open Scope comp_scope.

Lemma keeps_len_run_op o : stable keeps_len (run_op o).
Proof.
  destruct o as [M i j | M i j v | M | a b | r c]; simpl.
  - apply stable_bind; [apply keeps_len_trans | |].
    + apply stable_load, keeps_len_add_log.
    + intros _. apply stable_ret, keeps_len_refl.
  - apply keeps_len_store.
  - apply keeps_len_fill_rand.
  - apply stable_bind; [apply keeps_len_trans | apply keeps_len_dot |].
    intros _. apply stable_ret, keeps_len_refl.
  - apply stable_bind; [apply keeps_len_trans | apply keeps_len_new |].
    intros _. apply stable_ret, keeps_len_refl.
Qed.

(** No operation resizes an array. *)
Lemma keeps_len_run_ops os : stable keeps_len (run_ops os).
Proof.
  induction os as [|o os IH]; simpl.
  - apply stable_ret, keeps_len_refl.
  - apply stable_bind; [apply keeps_len_trans | apply keeps_len_run_op |].
    intros _. exact IH.
Qed.

End Operations.

(** ** The values of the kernel and of the filler *)

Section Values.
Context `{Platform}.







(** Every value that [fill_rand] can write has magnitude at most one. *)
Lemma rand_value_unit_range r :
  0 <= r <= RAND_MAX -> Round.unit_range (rand_value r).
Proof.
  intros Hr. pose proof RAND_MAX_range as HM.
  apply (scaled_unit_range RAND_MAX r); [| assumption].
  change (2 ^ 31) with 2147483648. lia.
Qed.


(** The accumulation of [p] products of entries of magnitude at most one
    has magnitude at most [p]. *)
Lemma dot_sum_bounded w a b i j :
  within_unit w a -> within_unit w b -> m a <= n b -> m a < 2 ^ 24 ->
  0 <= i < n a -> 0 <= j < m b ->
  Round.bounded_by (Z.max 0 (m a)) (dot_sum w a b i j).
Proof.
  intros Ua Ub Hab Hp Hi Hj. unfold dot_sum, upto.
  set (f := fun s k => F32.add s (F32.mul (entry w a i k) (entry w b k j))).
  assert (HK : forall K, (K <= Z.to_nat (m a))%nat ->
             Round.bounded_by (Z.of_nat K) (fold_left f (map Z.of_nat (seq 0 K)) F32.zero)).
  { induction K as [|K IH]; intros HKp; [exact I |].
    rewrite upto_succ, fold_left_app. cbn [fold_left]. unfold f at 1.
    destruct (Ua i (Z.of_nat K)) as (x & Hx & Ux); [unfold in_range; lia |].
    destruct (Ub (Z.of_nat K) j) as (y & Hy & Uy); [unfold in_range; lia |].
    rewrite (entry_of_elem _ _ _ _ _ Hx), (entry_of_elem _ _ _ _ _ Hy).
    replace (Z.of_nat (Datatypes.S K)) with (Z.of_nat K + 1) by lia.
    apply add_bounded; try lia.
    - apply IH. lia.
    - apply unit_range_bounded, mul_unit_range; assumption. }
  replace (Z.max 0 (m a)) with (Z.of_nat (Z.to_nat (m a))) by lia.
  apply HK. lia.
Qed.

(** The multiplication of floats commutes, special values included. *)
Lemma mul_comm x y : F32.mul x y = F32.mul y x.
Proof.
  unfold F32.mul, SFmul.
  destruct x as [sx | sx | | sx mx ex], y as [sy | sy | | sy my ey];
    try reflexivity; try (now rewrite xorb_comm).
  now rewrite xorb_comm, Pos.mul_comm, Z.add_comm.
Qed.

(** On integers that are small enough for every partial sum to stay
    below [2^24], the accumulation is the integer sum. *)
Lemma dot_sum_integers w a b A B bound i j :
  holds_integers w a A bound -> holds_integers w b B bound ->
  m a <= n b -> 0 <= i < n a -> 0 <= j < m b ->
  m a * (bound * bound) < 2 ^ 24 ->
  dot_sum w a b i j = F32.of_int (int_dot A B (m a) i j).
Proof.
  intros Ia Ib Hab Hi Hj Hsmall. unfold dot_sum, int_dot, upto.
  set (f := fun s k => F32.add s (F32.mul (entry w a i k) (entry w b k j))).
  set (g := fun s k => s + A i k * B k j).
  assert (HK : forall K, (K <= Z.to_nat (m a))%nat ->
             fold_left f (map Z.of_nat (seq 0 K)) F32.zero =
               F32.of_int (fold_left g (map Z.of_nat (seq 0 K)) 0) /\
             Z.abs (fold_left g (map Z.of_nat (seq 0 K)) 0) <= Z.of_nat K * (bound * bound)).
  { induction K as [|K IH]; intros HKp; [split; [reflexivity | simpl; lia] |].
    destruct (IH ltac:(lia)) as [IHv IHb].
    rewrite !upto_succ, !fold_left_app. cbn [fold_left]. rewrite IHv.
    set (S0 := fold_left g (map Z.of_nat (seq 0 K)) 0) in *.
    unfold f, g.
    destruct (Ia i (Z.of_nat K)) as [Hx Bx]; [unfold in_range; lia |].
    destruct (Ib (Z.of_nat K) j) as [Hy By_]; [unfold in_range; lia |].
    rewrite (entry_of_elem _ _ _ _ _ Hx), (entry_of_elem _ _ _ _ _ Hy).
    set (x := A i (Z.of_nat K)) in *. set (y := B (Z.of_nat K) j) in *.
    assert (Hb0 : 0 <= bound) by lia.
    assert (Hxy : Z.abs (x * y) <= bound * bound) by (rewrite Z.abs_mul; nia).
    assert (Hbb : bound * bound < 2 ^ 24) by nia.
    assert (Hb24 : bound < 2 ^ 24) by nia.
    assert (Hsum : Z.abs (S0 + x * y) <= Z.of_nat (Datatypes.S K) * (bound * bound)) by lia.
    split; [| exact Hsum].
    assert (HS : Z.of_nat (Datatypes.S K) * (bound * bound) < 2 ^ 24) by nia.
    unfold F32.add, F32.mul, F32.prec, F32.emax.
    destruct (mul_int_exact x y) as [[_ ->] | [E0 [s ->]]]; try lia.
    - apply add_int_exact; lia.
    - rewrite E0, Z.add_0_r. apply add_int_zero. lia. }
  apply HK. lia.
Qed.

(** Adding [k] times a float of magnitude at most [N]. *)
Lemma iter_add_bounded N d k :
  0 <= N -> Round.bounded_by N d -> Z.of_nat k * N < 2 ^ 24 ->
  Round.bounded_by (Z.of_nat k * N) (Nat.iter k (fun s => F32.add s d) F32.zero).
Proof.
  intros HN Hd. induction k as [|k IH]; intros Hk; [exact I |].
  rewrite Nat.iter_succ.
  replace (Z.of_nat (Datatypes.S k) * N) with (Z.of_nat k * N + N) by lia.
  apply add_bounded; try lia; [| assumption].
  apply IH. lia.
Qed.

End Values.

(** ** Loops that fault, loops that do nothing and what loops log *)

Section Loops.
Context `{Platform}.
Local Open Scope comp_scope.

Lemma bind_inv {A B} (c : Comp A) (f : A -> Comp B) w b w' :
  bind c f w = (Some b, w') ->
  exists a w1, c w = (Some a, w1) /\ f a w1 = (Some b, w').
Proof.
  unfold bind. destruct (c w) as [[a|] w1]; [| discriminate].
  intros E. now exists a, w1.
Qed.

(** A loop whose body does nothing does nothing. *)
Lemma for_loop_skip {S} count i (body : Z -> S -> Comp S) s w :
  (forall k s w, body k s w = (Some s, w)) -> for_loop count i body s w = (Some s, w).
Proof.
  intros Hb. revert i. induction count as [|c IH]; intros i; [reflexivity |].
  simpl. rewrite (bind_ok _ _ _ _ _ (Hb i s w)). apply IH.
Qed.

(** The first [k1] rounds, then the others. *)
Lemma for_loop_app {S} k1 k2 i (body : Z -> S -> Comp S) s w :
  for_loop (k1 + k2) i body s w =
  (s' <- for_loop k1 i body s ;; for_loop k2 (i + Z.of_nat k1) body s') w.
Proof.
  revert i s w. induction k1 as [|k1 IH]; intros i s w.
  - simpl. unfold bind, ret. now rewrite Z.add_0_r.
  - change (Datatypes.S k1 + k2)%nat with (Datatypes.S (k1 + k2)).
    cbn [for_loop]. rewrite bind_assoc.
    destruct (body i s w) as [[s1|] w1] eqn:E1.
    + rewrite !(bind_ok _ _ _ _ _ E1), IH.
      replace (i + 1 + Z.of_nat k1) with (i + Z.of_nat (Datatypes.S k1)) by lia.
      reflexivity.
    + now rewrite !(bind_fault _ _ _ _ E1).
Qed.

Lemma from_succ i count : from i (Datatypes.S count) = i :: from (i + 1) count.
Proof.
  unfold from. cbn [seq map]. rewrite Z.add_0_r. f_equal.
  rewrite <- seq_shift, map_map. apply map_ext. intros k. lia.
Qed.

Lemma upto_from p : upto p = from 0 (Z.to_nat p).
Proof. unfold upto, from. apply map_ext. intros k. lia. Qed.

Lemma in_from i count k : In k (from i count) -> i <= k < i + Z.of_nat count.
Proof.
  unfold from. rewrite in_map_iff. intros (x & <- & Hx).
  apply in_seq in Hx. lia.
Qed.

Lemma in_upto p k : In k (upto p) -> 0 <= k < p.
Proof. rewrite upto_from. intros Hk. apply in_from in Hk. lia. Qed.

(** What a loop that returns has logged, from what each round logs. *)
Lemma for_loop_log {S} (T : Z -> list event) count i (body : Z -> S -> Comp S) s w s' w' :
  (forall k s w s' w', i <= k < i + Z.of_nat count ->
     body k s w = (Some s', w') -> log w' = log w ++ T k) ->
  for_loop count i body s w = (Some s', w') ->
  log w' = log w ++ flat_map T (from i count).
Proof.
  revert i s w. induction count as [|c IH]; intros i s w Hb E.
  - injection E as <- <-. simpl. now rewrite app_nil_r.
  - cbn [for_loop] in E. apply bind_inv in E. destruct E as (s1 & w1 & E1 & E2).
    rewrite from_succ. cbn [flat_map].
    rewrite (IH (i + 1) s1 w1); [| | exact E2].
    + rewrite (Hb i s w s1 w1); [now rewrite <- app_assoc | lia | exact E1].
    + intros k s2 w2 s3 w3 Hk. apply Hb. lia.
Qed.

Lemma for_size_log {S} (T : Z -> list event) hi (body : Z -> S -> Comp S) s w s' w' :
  (forall k s w s' w', 0 <= k < hi ->
     body k s w = (Some s', w') -> log w' = log w ++ T k) ->
  for_size hi body s w = (Some s', w') ->
  log w' = log w ++ flat_map T (upto hi).
Proof.
  intros Hb E. rewrite upto_from. apply (for_loop_log T _ _ body s w s' w'); [| exact E].
  intros k s1 w1 s2 w2 Hk. apply Hb. lia.
Qed.

Lemma load_log M off w v w' :
  load M off w = (Some v, w') -> log w' = log w ++ [Load M off].
Proof.
  unfold load. destruct (mem w !! data M) as [buf|]; [| discriminate].
  destruct (buf !! Z.to_nat off); [| discriminate].
  now intros [= _ <-].
Qed.

Lemma store_log M off v w w' :
  store M off v w = (Some tt, w') -> log w' = log w ++ [Store M off].
Proof.
  unfold store. destruct (mem w !! data M) as [buf|]; [| discriminate].
  destruct (decide _); [| discriminate].
  now intros [= <-].
Qed.

Lemma length_flat_map_const {A B} (f : A -> list B) l c :
  (forall x, In x l -> length (f x) = c) -> length (flat_map f l) = (length l * c)%nat.
Proof.
  induction l as [|x l IH]; intros Hf; [reflexivity |].
  cbn [flat_map]. rewrite length_app, (Hf x), IH.
  - simpl. lia.
  - intros y Hy. apply Hf. now right.
  - now left.
Qed.

Lemma length_upto p : length (upto p) = Z.to_nat p.
Proof. unfold upto. now rewrite length_map, length_seq. Qed.

End Loops.

(** ** The kernel on shapes that do not fit *)

Section Shapes.
Context `{Platform}.
Local Open Scope comp_scope.

Lemma fold_left_ext_in {A B} (f g : A -> B -> A) l s0 :
  (forall s k, In k l -> f s k = g s k) -> fold_left f l s0 = fold_left g l s0.
Proof.
  revert s0. induction l as [|k l IH]; intros s0 Hfg; [reflexivity |].
  cbn [fold_left]. rewrite Hfg by now left. apply IH.
  intros s k' Hk'. apply Hfg. now right.
Qed.

(** The sum for cell [(i, j)] reads row [i] of [a] and the first [a.m]
    entries of column [j] of [b], and nothing else. *)
Lemma dot_sum_agree w w2 a b i j :
  (forall k, 0 <= k < m a -> elem w2 a i k = elem w a i k) ->
  (forall k, 0 <= k < m a -> elem w2 b k j = elem w b k j) ->
  dot_sum w2 a b i j = dot_sum w a b i j.
Proof.
  intros Ea Eb. unfold dot_sum. apply fold_left_ext_in.
  intros s k Hk. apply in_upto in Hk. unfold entry. now rewrite Ea, Eb.
Qed.

(** The accumulation for cell [(j, i)] of the product of the
    transposes is the one for cell [(i, j)]: the same terms in the same
    order. *)
Lemma dot_sum_transposed w a b ta tb i j :
  transposed w a ta -> transposed w b tb -> m a = n b ->
  0 <= i < n a -> 0 <= j < m b ->
  dot_sum w tb ta j i = dot_sum w a b i j.
Proof.
  intros (Hna & Hma & Ta) (Hnb & Hmb & Tb) Hab Hi Hj. unfold dot_sum.
  replace (m tb) with (m a) by congruence.
  apply fold_left_ext_in. intros s k Hk. apply in_upto in Hk.
  unfold entry. rewrite Ta, Tb by (unfold in_range; lia).
  f_equal. apply mul_comm.
Qed.

(** The offset of the first row that [b] does not have. *)
Lemma index_past_end b :
  0 <= n b -> 0 <= m b -> n b * m b <= Size.SIZE_MAX -> index b (n b) 0 = n b * m b.
Proof.
  intros Hn Hm Hfit. unfold index, Size.add, Size.mul, Size.wrap.
  unfold Size.SIZE_MAX in Hfit.
  rewrite Z.add_0_r, Zmod_mod. apply Z.mod_small. nia.
Qed.

End Shapes.

(** ** The order of the element accesses *)

Section Traces.
Context `{Platform}.
Local Open Scope comp_scope.

Lemma inner_body_log a b i j k s w s' w' :
  n a * m a <= Size.SIZE_MAX -> n b * m b <= Size.SIZE_MAX ->
  in_range a i k -> in_range b k j ->
  (x <- Matrix_get a i k ;;
   y <- Matrix_get b k j ;;
   ret (F32.add s (F32.mul x y))) w = (Some s', w') ->
  log w' = log w ++ [Load a (i * m a + k); Load b (k * m b + j)].
Proof.
  intros Hfa Hfb Hra Hrb E.
  apply bind_inv in E. destruct E as (x & w1 & E1 & E).
  apply bind_inv in E. destruct E as (y & w2 & E2 & E).
  injection E as _ <-. unfold Matrix_get in E1, E2.
  destruct (index_row_major _ _ _ Hfa Hra) as [Ia _].
  destruct (index_row_major _ _ _ Hfb Hrb) as [Ib _].
  rewrite Ia in E1. rewrite Ib in E2.
  rewrite (load_log _ _ _ _ _ E2), (load_log _ _ _ _ _ E1), <- app_assoc. reflexivity.
Qed.

(** What the loop nest of [dot] has logged when it returns. *)
Lemma dot_loops_log a b c w w' :
  n a * m a <= Size.SIZE_MAX -> n b * m b <= Size.SIZE_MAX ->
  n c * m c <= Size.SIZE_MAX ->
  m a <= n b -> n c = n a -> m c = m b ->
  dot_loops a b c w = (Some tt, w') ->
  log w' = log w ++ loops_trace a b c.
Proof.
  intros Hfa Hfb Hfc Hab Hcn Hcm E. unfold dot_loops in E. unfold loops_trace.
  apply (for_size_log (fun i => flat_map (cell_trace a b c i) (upto (m b)))) in E;
    [exact E |].
  intros i [] w1 [] w2 Hi Ei.
  apply (for_size_log (cell_trace a b c i)) in Ei; [exact Ei |].
  intros j [] w3 [] w4 Hj Ej.
  apply bind_inv in Ej. destruct Ej as (s & w5 & E5 & E6).
  apply (for_size_log (fun k => [Load a (i * m a + k); Load b (k * m b + j)])) in E5.
  - unfold Matrix_set in E6.
    destruct (index_row_major c i j Hfc) as [Ic _]; [unfold in_range; lia |].
    rewrite Ic in E6.
    rewrite (store_log _ _ _ _ _ E6), E5, <- app_assoc. reflexivity.
  - intros k s1 w6 s2 w7 Hk Ek.
    apply (inner_body_log a b i j k s1 w6 s2 w7); try assumption; unfold in_range; lia.
Qed.

(** What [dot] has logged when it returns. *)
Lemma dot_log w a b r w' :
  n a * m a <= Size.SIZE_MAX -> n b * m b <= Size.SIZE_MAX ->
  n a * m b <= Size.SIZE_MAX -> m a <= n b ->
  dot a b w = (Some r, w') ->
  exists c, mem w !! data c = None /\ n c = n a /\ m c = m b /\
            log w' = log w ++ Call_dot a b :: dot_trace a b c.
Proof.
  intros Hfa Hfb Hfc Hab E.
  rewrite dot_unfold in E. cbv zeta in E.
  set (we := emit (Call_dot a b) w) in *.
  set (c := {| data := fresh (dom (mem we)); n := n a; m := m b |}) in *.
  set (w1 := set_mem _ we) in *.
  exists c. split; [apply (fresh_unallocated we) |].
  split; [reflexivity |]. split; [reflexivity |].
  apply bind_inv in E. destruct E as ([] & w2 & E2 & E).
  apply bind_inv in E. destruct E as (x & w3 & E3 & E).
  apply bind_inv in E. destruct E as ([] & w4 & E4 & E).
  injection E as _ <-.
  apply (dot_loops_log a b c) in E2; try assumption; try reflexivity.
  unfold Matrix_get in E3. assert (index c 0 0 = 0) as Hi by reflexivity.
  rewrite Hi in E3. apply load_log in E3.
  assert (E5 : log w4 = log w3).
  { unfold Matrix_delete, delete_array in E4.
    destruct (mem w3 !! data c); [| discriminate]. now injection E4 as <-. }
  rewrite E5, E3, E2. unfold dot_trace, w1, we, emit. cbn [log set_mem add_log].
  rewrite <- !app_assoc. reflexivity.
Qed.

Lemma length_cell_trace a b c i j :
  length (cell_trace a b c i j) = (Z.to_nat (m a) * 2 + 1)%nat.
Proof.
  unfold cell_trace. rewrite length_app.
  rewrite (length_flat_map_const _ _ 2%nat) by reflexivity.
  now rewrite length_upto.
Qed.

(** [dot] makes [2 * a.m + 1] accesses for each cell of [c], and one
    more. *)
Lemma length_dot_trace a b c :
  0 <= n a -> 0 <= m a -> 0 <= m b ->
  Z.of_nat (length (dot_trace a b c)) = n a * m b * (2 * m a + 1) + 1.
Proof.
  intros Hn Hm Hp. unfold dot_trace, loops_trace. rewrite length_app.
  rewrite (length_flat_map_const _ _ (Z.to_nat (m b) * (Z.to_nat (m a) * 2 + 1))%nat).
  - rewrite length_upto. cbn [length]. nia.
  - intros i _. rewrite (length_flat_map_const _ _ (Z.to_nat (m a) * 2 + 1)%nat).
    + now rewrite length_upto.
    + intros j _. apply length_cell_trace.
Qed.

Lemma seq_from base q : map Z.of_nat (seq base q) = from (Z.of_nat base) q.
Proof.
  revert base. induction q as [|q IH]; intros base; [reflexivity |].
  rewrite from_succ. cbn [seq map]. f_equal.
  rewrite IH. f_equal. lia.
Qed.

Lemma flat_offsets_nat r cols :
  0 <= cols ->
  flat_map (fun i => map (fun j => i * cols + j) (upto cols)) (map Z.of_nat (seq 0 r)) =
  map Z.of_nat (seq 0 (r * Z.to_nat cols)).
Proof.
  intros Hc. induction r as [|r IH]; [reflexivity |].
  rewrite upto_succ, flat_map_app, IH. cbn [flat_map]. rewrite app_nil_r.
  replace (Datatypes.S r * Z.to_nat cols)%nat
    with (r * Z.to_nat cols + Z.to_nat cols)%nat by lia.
  rewrite seq_app, map_app. f_equal.
  rewrite Nat.add_0_l, seq_from. unfold upto, from.
  rewrite map_map. apply map_ext. intros k. nia.
Qed.

(** The offsets of a matrix, row after row, are [0, 1, 2, ...]. *)
Lemma flat_offsets rows cols :
  0 <= rows -> 0 <= cols ->
  flat_map (fun i => map (fun j => i * cols + j) (upto cols)) (upto rows) = upto (rows * cols).
Proof.
  intros Hr Hc. unfold upto at 2 3. rewrite flat_offsets_nat by assumption.
  now rewrite Z2Nat.inj_mul.
Qed.

Lemma flat_map_singleton {A B} (f : A -> B) l : flat_map (fun x => [f x]) l = map f l.
Proof. induction l as [|x l IH]; [reflexivity |]. cbn [flat_map map]. now rewrite IH. Qed.

Lemma map_flat_map {A B C} (f : B -> C) (g : A -> list B) l :
  map f (flat_map g l) = flat_map (fun x => map f (g x)) l.
Proof.
  induction l as [|x l IH]; [reflexivity |].
  cbn [flat_map]. now rewrite map_app, IH.
Qed.

(** What [fill_rand] has logged when it returns: one write for each
    offset, in ascending order. *)
Lemma fill_rand_log M w w' :
  0 <= n M -> 0 <= m M -> n M * m M <= Size.SIZE_MAX ->
  fill_rand M w = (Some tt, w') ->
  log w' = log w ++ map (Store M) (upto (n M * m M)).
Proof.
  intros Hn Hm Hfit E. unfold fill_rand in E.
  rewrite <- flat_offsets, map_flat_map by assumption.
  apply (for_size_log (fun i => map (Store M) (map (fun j => i * m M + j) (upto (m M))))) in E;
    [exact E |].
  intros i [] w1 [] w2 Hi Ei.
  rewrite map_map, <- flat_map_singleton.
  apply (for_size_log (fun j => [Store M (i * m M + j)])) in Ei; [exact Ei |].
  intros j [] w3 [] w4 Hj Ej.
  apply bind_inv in Ej. destruct Ej as (r & w5 & E5 & E6).
  rewrite call_rand_eq in E5. injection E5 as _ <-.
  unfold Matrix_set in E6.
  destruct (index_row_major M i j Hfit) as [Ic _]; [unfold in_range; lia |].
  rewrite Ic in E6. now rewrite (store_log _ _ _ _ _ E6).
Qed.

(** The array that [fill_rand] leaves: the scaled outputs of the
    generator, in the order in which they were drawn. *)
Lemma fill_rand_buffer w M :
  matrix_ok w M ->
  exists w',
    fill_rand M w = (Some tt, w') /\
    buffer w' M = Some (map (fun k => rand_value (rand_nth (rng w) k))
                            (seq 0 (Z.to_nat (n M * m M)))) /\
    (forall l, l <> data M -> mem w' !! l = mem w !! l) /\
    rng w' = rand_state (rng w) (Z.to_nat (n M * m M)) /\
    clock_reads w' = clock_reads w /\
    log w' = log w ++ map (Store M) (upto (n M * m M)).
Proof.
  intros Hok.
  destruct (fill_rand_ok w M Hok) as (w' & E & Hok' & Hel & Hfr & Hrng & Hclk & _).
  exists w'. split; [exact E |].
  destruct Hok as (Hn & Hm & Hfit & _).
  repeat split; try assumption; [| apply (fill_rand_log M w w'); try assumption; lia].
  destruct (matrix_ok_buffer _ _ Hok') as (buf & Hbuf & Hlen).
  unfold buffer. rewrite Hbuf. f_equal. apply list_eq. intros k.
  rewrite list_lookup_fmap.
  destruct (decide (k < Z.to_nat (n M * m M))%nat) as [Hk | Hk].
  - rewrite lookup_seq_lt by assumption. cbn [fmap option_fmap option_map Nat.add].
    set (i := Z.of_nat k / m M). set (j := Z.of_nat k mod m M).
    assert (Hdm : Z.of_nat k = i * m M + j).
    { unfold i, j. rewrite Z.mul_comm. apply Z.div_mod. lia. }
    assert (Hj : 0 <= j < m M) by (apply Z.mod_pos_bound; lia).
    assert (Hi : 0 <= i < n M).
    { split; [apply Z.div_pos; lia |]. apply Z.div_lt_upper_bound; nia. }
    specialize (Hel i j (conj Hi Hj)).
    unfold elem, buffer in Hel. rewrite Hbuf in Hel. cbn [mbind option_bind] in Hel.
    rewrite <- Hdm, Nat2Z.id in Hel. exact Hel.
  - rewrite lookup_ge_None_2 by lia.
    rewrite lookup_ge_None_2 by (rewrite length_seq; lia). reflexivity.
Qed.

End Traces.

(** ** The concrete inputs *)

Section ExampleFacts.
Import Examples.
Local Existing Instance StdC.platform.

(** A world whose heap holds [k] equal floats at [l] holds a matrix of
    any shape with [k] elements there. *)
Lemma matrix_ok_replicate h g l k x r c :
  h !! l = Some (replicate (Z.to_nat k) x) ->
  0 < r -> 0 < c -> r * c <= Size.SIZE_MAX -> k = r * c ->
  matrix_ok (world_of h g) {| data := l; n := r; m := c |}.
Proof.
  intros Hl Hr Hc Hfit ->. unfold matrix_ok, buffer. cbn [n m data mem world_of].
  repeat split; try assumption.
  rewrite Hl. cbn [fmap option_fmap option_map]. now rewrite length_replicate.
Qed.

Lemma a_big_ok : matrix_ok w_big a_big.
Proof.
  apply matrix_ok_replicate with (k := big) (x := F32.zero).
  - apply lookup_insert_eq.
  - reflexivity.
  - reflexivity.
  - discriminate.
  - reflexivity.
Qed.

Lemma b_big_ok : matrix_ok w_big b_big.
Proof.
  apply matrix_ok_replicate with (k := big) (x := F32.zero).
  - rewrite lookup_insert_ne by discriminate. apply lookup_singleton_eq.
  - reflexivity.
  - reflexivity.
  - discriminate.
  - reflexivity.
Qed.

Lemma big_shape_wraps : Size.mul (n a_big) (m b_big) = 0.
Proof. reflexivity. Qed.

End ExampleFacts.

(** ** Accesses by offset *)

Section Offsets.
Context `{Platform}.
Local Open Scope comp_scope.

(** The index expression only depends on [x * m + y] modulo [2^64]. *)
Lemma index_wrap M x y : index M x y = Size.wrap (x * m M + y).
Proof. unfold index, Size.add, Size.mul, Size.wrap. apply Zplus_mod_idemp_l. Qed.

Lemma load_eq M off w buf :
  mem w !! data M = Some buf ->
  load M off w = (buf !! Z.to_nat off, emit (Load M off) w).
Proof. intros E. unfold load. rewrite E. now destruct (buf !! Z.to_nat off). Qed.

Lemma store_outside M off v w buf :
  mem w !! data M = Some buf -> (length buf <= Z.to_nat off)%nat ->
  store M off v w = (None, emit (Store M off) w).
Proof.
  intros E Hge. unfold store. rewrite E.
  destruct (decide _) as [Hlt | _]; [lia | reflexivity].
Qed.

End Offsets.

(* ===================================================================== *)
(** * Part III: the claims *)

Section Claims.
Context `{Platform}.
Local Open Scope comp_scope.

(** ** The matrix container *)

(** C4, amended.  For every matrix constructed with [rows > 0],
    [cols > 0] and [rows * cols] at most [SIZE_MAX], the array has
    [rows * cols] elements after the construction and after any sequence
    of reads, writes, fills, multiplications and further constructions,
    whether they return or fault; and the element [(i, j)] with
    [0 <= i < rows] and [0 <= j < cols] is read from and written to the
    offset [i * cols + j], which is below [rows * cols]. *)
Theorem Matrix_invariant w r c :
  0 < r -> 0 < c -> r * c <= Size.SIZE_MAX ->
  exists M w1,
    Matrix_new r c w = (Some M, w1) /\ n M = r /\ m M = c /\
    forall os,
      let w2 := snd (run_ops os w1) in
      exists buf,
        buffer w2 M = Some buf /\ Z.of_nat (length buf) = r * c /\
        forall i j, 0 <= i < r -> 0 <= j < c ->
          index M i j = i * c + j /\ 0 <= i * c + j < r * c /\
          fst (Matrix_get M i j w2) = buf !! Z.to_nat (i * c + j) /\
          forall v, buffer (snd (Matrix_set M i j v w2)) M
                    = Some (<[Z.to_nat (i * c + j) := v]> buf).
Proof.
  intros Hr Hc Hfit.
  destruct (Matrix_new_ok w r c Hr Hc Hfit) as (M & w1 & E & Hn & Hm & _ & Hok & _).
  exists M, w1. repeat split; try assumption.
  intros os w2.
  destruct (matrix_ok_buffer _ _ Hok) as (buf1 & Hb1 & Hl1).
  destruct (keeps_len_run_ops os w1 (data M) buf1 Hb1) as (buf & Hb & Hl).
  fold w2 in Hb. exists buf. split; [exact Hb |].
  assert (Hlen : length buf = Z.to_nat (n M * m M)) by congruence.
  split; [rewrite Hlen, Hn, Hm; apply Z2Nat.id; nia |].
  assert (Hok2 : matrix_ok w2 M).
  { destruct Hok as (? & ? & ? & _). repeat split; try assumption.
    unfold buffer. rewrite Hb. simpl. now rewrite Hlen. }
  intros i j Hi Hj.
  assert (Hr' : in_range M i j) by (unfold in_range; rewrite Hn, Hm; tauto).
  destruct Hok2 as (? & ? & Hfit2 & ?).
  destruct (index_row_major M i j Hfit2 Hr') as [Hidx Hoff].
  rewrite Hn, Hm in Hoff. rewrite Hm in Hidx.
  split; [exact Hidx |]. split; [exact Hoff |].
  assert (Hok2 : matrix_ok w2 M) by (repeat split; assumption).
  split.
  - destruct (Matrix_get_ok w2 M i j Hok2 Hr') as (v & Hv & ->).
    unfold elem, buffer in Hv. rewrite Hb, Hm in Hv. simpl in Hv. now rewrite Hv.
  - intros v.
    destruct (Matrix_set_ok w2 M i j v Hok2 Hr') as (buf' & Hb' & _ & ->).
    assert (buf' = buf) as -> by congruence.
    unfold buffer. simpl. now rewrite lookup_insert_eq, Hm.
Qed.

(** C5.  For every matrix, every index pair in range and every float
    [v] (finite or not), [Set(i, j, v)] followed by [Get(i, j)] returns
    [v] itself, and the [Set] changes neither what [Get] returns for
    another pair in range nor any other array. *)
Theorem set_get_roundtrip w M i j v :
  matrix_ok w M -> in_range M i j ->
  exists w1,
    Matrix_set M i j v w = (Some tt, w1) /\
    fst (Matrix_get M i j w1) = Some v /\
    matrix_ok w1 M /\
    (forall i' j', in_range M i' j' -> (i', j') <> (i, j) ->
       fst (Matrix_get M i' j' w1) = fst (Matrix_get M i' j' w)) /\
    (forall l, l <> data M -> mem w1 !! l = mem w !! l).
Proof.
  intros Hok Hr.
  destruct (Matrix_set_ok w M i j v Hok Hr) as (buf & Hb & Hl & E).
  eexists. split; [exact E |].
  destruct Hok as (Hn & Hm & Hfit & Hlen).
  destruct (index_row_major M i j Hfit Hr) as [_ Hoff].
  set (w1 := set_mem (insert (data M) (<[Z.to_nat (i * m M + j) := v]> buf))
                     (add_log [Store M (i * m M + j)] w)).
  assert (Hok1 : matrix_ok w1 M).
  { repeat split; try assumption. unfold buffer, w1. simpl.
    rewrite lookup_insert_eq. simpl. now rewrite length_insert, Hl. }
  assert (Hget : forall i' j', in_range M i' j' ->
            fst (Matrix_get M i' j' w1)
            = <[Z.to_nat (i * m M + j) := v]> buf !! Z.to_nat (i' * m M + j')).
  { intros i' j' Hr'. destruct (Matrix_get_ok w1 M i' j' Hok1 Hr') as (x & Hx & ->).
    unfold elem, buffer, w1 in Hx. simpl in Hx. rewrite lookup_insert_eq in Hx.
    simpl in Hx. now rewrite Hx. }
  split; [| split; [exact Hok1 | split]].
  - rewrite (Hget i j Hr). apply list_lookup_insert_eq. lia.
  - intros i' j' Hr' Hne. rewrite (Hget i' j' Hr').
    destruct (Matrix_get_ok w M i' j' (conj Hn (conj Hm (conj Hfit Hlen))) Hr')
      as (x & Hx & ->).
    unfold elem, buffer in Hx. rewrite Hb in Hx. simpl in Hx. simpl. rewrite <- Hx.
    apply list_lookup_insert_ne. intros Eoff. apply Hne.
    destruct (index_row_major M i' j' Hfit Hr') as [_ Hoff'].
    destruct (row_major_inj M i j i' j' Hr Hr') as [-> ->]; [lia | reflexivity].
  - intros l Hne. unfold w1. simpl. now apply lookup_insert_ne.
Qed.

(** ** The multiplication kernel *)



(** C9, amended.  For every pair of matrices with [A.cols = B.rows]
    and [A.rows * B.cols] at most [SIZE_MAX], [dot] returns and leaves
    the arrays of both operands, and every other array that was live
    before the call, as they were: every write of the call is a write
    inside the array that it allocates.  (The dimensions are fields of
    the matrix values, which [dot] receives by constant reference.) *)
Theorem dot_preserves_operands w a b :
  matrix_ok w a -> matrix_ok w b -> m a = n b -> n a * m b <= Size.SIZE_MAX ->
  exists r w' c evs,
    dot a b w = (Some r, w') /\
    buffer w' a = buffer w a /\ buffer w' b = buffer w b /\
    matrix_ok w' a /\ matrix_ok w' b /\
    (forall i j, elem w' a i j = elem w a i j) /\
    (forall i j, elem w' b i j = elem w b i j) /\
    (forall l, is_Some (mem w !! l) -> mem w' !! l = mem w !! l) /\
    log w' = log w ++ Call_dot a b :: evs /\
    mem w !! data c = None /\ n c = n a /\ m c = m b /\
    Forall (fun e => forall M off, e = Store M off ->
                       M = c /\ 0 <= off < n c * m c) evs.
Proof.
  intros Ha Hb Hab Hfit.
  destruct (dot_ok w a b Ha Hb Hab Hfit)
    as (w' & c & evs & E & Hmem & _ & _ & Hlog & Hfresh & Hcn & Hcm & Hev).
  exists (dot_sum w a b 0 0), w', c, evs.
  split; [exact E |].
  split; [unfold buffer; now rewrite Hmem |].
  split; [unfold buffer; now rewrite Hmem |].
  split; [apply (matrix_ok_ext w); [now rewrite Hmem | assumption] |].
  split; [apply (matrix_ok_ext w); [now rewrite Hmem | assumption] |].
  split; [intros i j; apply elem_ext; now rewrite Hmem |].
  split; [intros i j; apply elem_ext; now rewrite Hmem |].
  split; [intros l _; now rewrite Hmem |].
  split; [exact Hlog |]. split; [exact Hfresh |].
  split; [exact Hcn |]. split; [exact Hcm |].
  eapply Forall_impl; [exact Hev |].
  intros e He M off ->. destruct He as [-> Hoff]. split; [reflexivity | exact Hoff].
Qed.

(** C10, amended.  Under the preconditions [A.cols = B.rows],
    [A.rows > 0], [B.cols > 0] and [A.rows * B.cols] at most [SIZE_MAX],
    for matrices that hold [rows * cols] elements, [dot] returns, and
    every element access it performs (the reads [a(i,k)] and [b(k,j)],
    the writes [c(i,j)] and the final read [c(0,0)]) is at an offset
    below the accessed matrix's [rows * cols]: no access is out of
    bounds. *)
Theorem dot_accesses_in_bounds w a b :
  matrix_ok w a -> matrix_ok w b -> m a = n b -> 0 < n a -> 0 < m b ->
  n a * m b <= Size.SIZE_MAX ->
  exists r w' c evs,
    dot a b w = (Some r, w') /\
    log w' = log w ++ Call_dot a b :: evs /\
    mem w !! data c = None /\ n c = n a /\ m c = m b /\
    Forall (kernel_access a b c) evs.
Proof.
  intros Ha Hb Hab _ _ Hfit.
  destruct (dot_ok w a b Ha Hb Hab Hfit)
    as (w' & c & evs & E & _ & _ & _ & Hlog & Hfresh & Hcn & Hcm & Hev).
  exists (dot_sum w a b 0 0), w', c, evs. repeat split; assumption.
Qed.


(** ** The random filler *)


(** ** The benchmark driver *)

Lemma fill_stores_quiet a b evs :
  Forall (is_fill_store a b) evs -> dot_calls evs = [] /\ outputs evs = [].
Proof.
  induction 1 as [| e evs [[off ->] | [off ->]] _ [IH1 IH2]]; simpl; now split.
Qed.

Lemma outputs_report s X :
  outputs (map (fun o => Out (fst o) (snd o)) (report s X)) = report s X.
Proof. reflexivity. Qed.

Lemma dot_calls_report s X :
  dot_calls (map (fun o => Out (fst o) (snd o)) (report s X)) = [].
Proof. reflexivity. Qed.

(** C7.  [main] constructs [A] with 100 rows and 200 columns and [B] with
    200 rows and 50 columns, fills [A] from the first 20000 outputs of
    the generator seeded with the time and [B] from the next 10000, and
    then calls [dot] on [(A, B)] exactly 100 times; the accumulator
    starts at [0] and receives the value of each call, which is the same
    every time. *)
Theorem main_runs_kernel w :
  exists a b wf w' fills runs d s X,
    n a = 100 /\ m a = 200 /\ n b = 200 /\ m b = 50 /\
    mem w !! data a = None /\ mem w !! data b = None /\ data a <> data b /\
    matrix_ok wf a /\ matrix_ok wf b /\
    (forall i j, in_range a i j ->
       elem wf a i j =
       Some (rand_value (rand_nth (srand (to_unsigned time_null)) (Z.to_nat (i * 200 + j))))) /\
    (forall i j, in_range b i j ->
       elem wf b i j =
       Some (rand_value (rand_nth (srand (to_unsigned time_null))
                                  (Z.to_nat (100 * 200) + Z.to_nat (i * 50 + j))))) /\
    main w = (Some 0, w') /\
    log w' = log w ++ fills ++ runs ++ map (fun o => Out (fst o) (snd o)) (report s X) /\
    Forall (is_fill_store a b) fills /\ dot_calls fills = [] /\
    dot_calls runs = replicate 100 (a, b) /\
    dot_calls (log w') = dot_calls (log w) ++ replicate 100 (a, b) /\
    fst (dot a b wf) = Some d /\
    s = Nat.iter 100 (fun s => F32.add s d) F32.zero.
Proof.
  destruct (main_ok w) as
    (a & b & wf & w' & fills & runs & Han & Ham & Hbn & Hbm & Hab & Hfa & Hfb &
     Ha & Hb & Hela & Helb & E & _ & Hlog & Hfills & Hcalls & _).
  assert (Hfit : n a * m b <= Size.SIZE_MAX) by (rewrite Han, Hbm; discriminate).
  destruct (dot_ok wf a b Ha Hb ltac:(congruence) Hfit) as (wd & c & evs & Ed & _).
  destruct (fill_stores_quiet a b fills Hfills) as [Q1 _].
  eexists a, b, wf, w', fills, runs, (dot_sum wf a b 0 0), _, _.
  repeat match goal with |- _ /\ _ => split end; try eassumption.
  - rewrite Hlog, !dot_calls_app, Q1, Hcalls, dot_calls_report, app_nil_r. reflexivity.
  - now rewrite Ed.
  - reflexivity.
Qed.



End Claims.

(* ===================================================================== *)
(** * Part IV: further properties of the code *)

Section Further.
Context `{Platform}.
Local Open Scope comp_scope.

(** ** The matrix container *)

(** X1.  The index arithmetic wraps around.  Neither [operator()]
    looks at [x] and [y] separately: when [x * m + y], reduced modulo
    [2^64], is the offset [i * m + j] of a cell [(i, j)] of the matrix,
    an access at [(x, y)] is an access to that cell, however far [x] and
    [y] are from the dimensions.  A read at [(x, y)] returns the element
    [(i, j)]; a write at [(x, y)] succeeds, a following read of [(i, j)]
    returns the value written, and every other cell is as it was. *)
Theorem index_wraps_around w M i j x y v :
  matrix_ok w M -> in_range M i j ->
  (x * m M + y) mod 2 ^ 64 = i * m M + j ->
  fst (Matrix_get M x y w) = elem w M i j /\
  exists w1,
    Matrix_set M x y v w = (Some tt, w1) /\
    fst (Matrix_get M i j w1) = Some v /\
    forall i' j', in_range M i' j' -> ~ (i' = i /\ j' = j) ->
      elem w1 M i' j' = elem w M i' j'.
Proof.
  intros Hok Hr Hwrap.
  assert (Eidx : index M x y = index M i j).
  { rewrite !index_wrap. unfold Size.wrap.
    change Size.modulus with (2 ^ 64). rewrite Hwrap.
    destruct Hok as (_ & _ & Hfit & _).
    destruct (index_row_major M i j Hfit Hr) as [_ Hoff].
    unfold Size.SIZE_MAX, Size.modulus, Size.bits in Hfit.
    symmetry. apply Z.mod_small. lia. }
  destruct (Matrix_get_ok w M i j Hok Hr) as (v0 & Hv0 & G).
  destruct (Matrix_set_ok w M i j v Hok Hr) as (buf & Hbuf & Hlen & E).
  unfold Matrix_get, Matrix_set in *. rewrite Eidx, G, E.
  split; [now rewrite Hv0 |].
  eexists. split; [reflexivity |].
  destruct Hok as (_ & _ & Hfit & _).
  destruct (index_row_major M i j Hfit Hr) as [Hidx Hoff].
  split.
  - rewrite Hidx.
    erewrite load_eq by (cbn [mem set_mem add_log]; apply lookup_insert_eq).
    cbn [fst]. apply list_lookup_insert_eq. lia.
  - intros i' j' Hr' Hne. unfold elem, buffer. cbn [mem set_mem add_log].
    rewrite lookup_insert_eq, Hbuf. cbn [mbind option_bind].
    apply list_lookup_insert_ne. intros Eo. apply Hne.
    destruct (index_row_major M i' j' Hfit Hr') as [_ Hoff'].
    apply (row_major_inj M); try assumption. lia.
Qed.

(** X2.  A column index that runs past the end of a row lands in the
    next row: in a matrix with a row [i + 1], writing [v] at
    [(i, j + m)] succeeds, and reading [(i + 1, j)] afterwards returns
    [v]. *)
Theorem column_overrun w M i j v :
  matrix_ok w M -> 0 <= i -> i + 1 < n M -> 0 <= j < m M ->
  exists w1,
    Matrix_set M i (j + m M) v w = (Some tt, w1) /\
    fst (Matrix_get M (i + 1) j w1) = Some v.
Proof.
  intros Hok Hi Hi1 Hj.
  assert (Hr : in_range M (i + 1) j) by (unfold in_range; lia).
  assert (Eidx : index M i (j + m M) = index M (i + 1) j).
  { rewrite !index_wrap. f_equal. lia. }
  destruct (Matrix_set_ok w M (i + 1) j v Hok Hr) as (buf & Hbuf & Hlen & E).
  unfold Matrix_set in *. rewrite Eidx, E.
  eexists. split; [reflexivity |].
  destruct Hok as (_ & _ & Hfit & _).
  destruct (index_row_major M (i + 1) j Hfit Hr) as [Hidx Hoff].
  unfold Matrix_get. rewrite Hidx.
  erewrite load_eq by (cbn [mem set_mem add_log]; apply lookup_insert_eq).
  cbn [fst]. apply list_lookup_insert_eq. lia.
Qed.

(** X3.  Two writes into a matrix: at the same cell the second one wins,
    so that the heap is the one that the second write alone gives; at two
    different cells the order of the writes does not matter to the
    heap. *)
Theorem set_set w M i j i' j' v v' :
  matrix_ok w M -> in_range M i j -> in_range M i' j' ->
  exists w1 w2 w1' w2',
    Matrix_set M i j v w = (Some tt, w1) /\
    Matrix_set M i' j' v' w1 = (Some tt, w2) /\
    Matrix_set M i' j' v' w = (Some tt, w1') /\
    Matrix_set M i j v w1' = (Some tt, w2') /\
    (i = i' /\ j = j' -> mem w2 = mem w1') /\
    (~ (i = i' /\ j = j') -> mem w2 = mem w2').
Proof.
  intros Hok Hr Hr'.
  destruct (Matrix_set_ok w M i j v Hok Hr) as (buf & Hbuf & Hlen & E1).
  destruct (Matrix_set_ok w M i' j' v' Hok Hr') as (buf' & Hbuf' & _ & E1').
  assert (buf' = buf) as -> by congruence.
  set (o := Z.to_nat (i * m M + j)) in *. set (o' := Z.to_nat (i' * m M + j')) in *.
  set (w1 := set_mem _ _) in E1. set (w1' := set_mem _ _) in E1'.
  assert (Hok1 : matrix_ok w1 M).
  { destruct Hok as (? & ? & ? & _). repeat split; try assumption.
    unfold buffer, w1. cbn [mem set_mem]. rewrite lookup_insert_eq. cbn.
    now rewrite length_insert, Hlen. }
  assert (Hok1' : matrix_ok w1' M).
  { destruct Hok as (? & ? & ? & _). repeat split; try assumption.
    unfold buffer, w1'. cbn [mem set_mem]. rewrite lookup_insert_eq. cbn.
    now rewrite length_insert, Hlen. }
  destruct (Matrix_set_ok w1 M i' j' v' Hok1 Hr') as (b2 & Hb2 & _ & E2).
  destruct (Matrix_set_ok w1' M i j v Hok1' Hr) as (b2' & Hb2' & _ & E2').
  fold o' in E2. fold o in E2'.
  assert (b2 = <[o := v]> buf) as ->.
  { unfold w1 in Hb2. cbn [mem set_mem] in Hb2. rewrite lookup_insert_eq in Hb2. congruence. }
  assert (b2' = <[o' := v']> buf) as ->.
  { unfold w1' in Hb2'. cbn [mem set_mem] in Hb2'. rewrite lookup_insert_eq in Hb2'. congruence. }
  eexists _, _, _, _.
  split; [exact E1 |]. split; [exact E2 |]. split; [exact E1' |]. split; [exact E2' |].
  unfold w1, w1'. cbn [mem set_mem add_log]. split.
  - intros [-> ->]. fold o. rewrite insert_insert_eq. now rewrite list_insert_insert_eq.
  - intros Hne. rewrite !insert_insert_eq. f_equal.
    apply list_insert_insert_ne. unfold o, o'. intros Eo. apply Hne.
    symmetry in Eo.
    destruct Hok as (_ & _ & Hfit & _).
    destruct (index_row_major M i j Hfit Hr) as [_ Ho].
    destruct (index_row_major M i' j' Hfit Hr') as [_ Ho'].
    apply (row_major_inj M); try assumption. lia.
Qed.

(** X4.  Whatever the dimensions, a matrix that has just been
    constructed can be destroyed, and the heap is then the one from
    before the construction; after that, every read, every write and a
    second destruction through the same pointer fault. *)
Theorem Matrix_lifetime w r c :
  exists M w1 w2,
    Matrix_new r c w = (Some M, w1) /\
    Matrix_delete M w1 = (Some tt, w2) /\
    mem w2 = mem w /\
    (forall x y v, fst (Matrix_get M x y w2) = None /\
                   fst (Matrix_set M x y v w2) = None) /\
    Matrix_delete M w2 = (None, w2).
Proof.
  pose proof (fresh_unallocated w) as Hf.
  eexists _, _, _. split; [apply Matrix_new_eq |]. cbv zeta.
  split.
  { eapply Matrix_delete_eq. cbn [data mem set_mem]. apply lookup_insert_eq. }
  cbn [data mem set_mem].
  assert (Hm : delete (fresh (dom (mem w)))
                 (<[fresh (dom (mem w)) := map (uninit (fresh (dom (mem w))))
                      (seq 0 (Z.to_nat (Size.mul r c)))]> (mem w)) = mem w).
  { now apply delete_insert_id. }
  split; [exact Hm |]. split.
  - intros x y v. unfold Matrix_get, Matrix_set, load, store.
    cbn [data mem set_mem]. rewrite Hm, Hf. split; reflexivity.
  - unfold Matrix_delete, delete_array. cbn [data mem set_mem]. now rewrite Hm, Hf.
Qed.

(** X5.  A matrix constructed with no row or no column has a live
    array of no element: there is no index pair at which a read or a
    write is inside it. *)
Theorem Matrix_empty w r c :
  r = 0 \/ c = 0 ->
  exists M w1,
    Matrix_new r c w = (Some M, w1) /\ n M = r /\ m M = c /\
    buffer w1 M = Some [] /\
    forall x y v,
      fst (Matrix_get M x y w1) = None /\
      fst (Matrix_set M x y v w1) = None.
Proof.
  intros Hz.
  assert (Hmul : Size.mul r c = 0).
  { unfold Size.mul. destruct Hz as [-> | ->]; rewrite ?Z.mul_0_r; reflexivity. }
  eexists _, _. split; [apply Matrix_new_eq |]. cbv zeta. rewrite Hmul.
  change (seq 0 (Z.to_nat 0)) with (@nil nat). cbn [map n m].
  split; [reflexivity |]. split; [reflexivity |].
  set (M := {| data := fresh (dom (mem w)); n := r; m := c |}).
  set (w1 := set_mem (insert (data M) []) w).
  assert (Hb : mem w1 !! data M = Some []) by apply lookup_insert_eq.
  split; [exact Hb |].
  intros x y v. unfold Matrix_get, Matrix_set.
  rewrite (load_eq _ _ _ _ Hb), (store_outside _ _ _ _ _ Hb) by (cbn [length]; lia).
  cbn [fst]. split; reflexivity.
Qed.

(** ** The multiplication kernel *)

(** X6.  [dot] destroys its local matrix before it returns: for
    operands whose shapes agree, the heap after the call is the heap
    before the call, the generator and the clock are untouched, and a
    second call returns the same value. *)
Theorem dot_leaves_heap w a b :
  matrix_ok w a -> matrix_ok w b -> m a = n b -> n a * m b <= Size.SIZE_MAX ->
  exists r w',
    dot a b w = (Some r, w') /\
    mem w' = mem w /\ rng w' = rng w /\ clock_reads w' = clock_reads w /\
    fst (dot a b w') = Some r.
Proof.
  intros Ha Hb Hab Hfit.
  destruct (dot_ok w a b Ha Hb Hab Hfit) as (w' & c & evs & E & Hmem & Hrng & Hclk & _).
  exists (dot_sum w a b 0 0), w'. repeat split; try assumption.
  assert (Ha' : matrix_ok w' a) by (apply (matrix_ok_ext w); [now rewrite Hmem | assumption]).
  assert (Hb' : matrix_ok w' b) by (apply (matrix_ok_ext w); [now rewrite Hmem | assumption]).
  destruct (dot_ok w' a b Ha' Hb' Hab Hfit) as (w2 & c2 & evs2 & E2 & _).
  rewrite E2. cbn [fst]. f_equal. apply dot_sum_ext; now rewrite Hmem.
Qed.

(** X7.  [dot] does not compare [a.m] with [b.n].  When [b] has more
    rows than [a] has columns the call returns all the same: every cell
    of the matrix it builds, and the value it returns, is the
    accumulation over [k] from [0] to [a.m - 1] only, and the rows of [b]
    from [a.m] on have no influence on the result. *)
Theorem dot_taller_operand w a b :
  matrix_ok w a -> matrix_ok w b -> m a <= n b -> n a * m b <= Size.SIZE_MAX ->
  (exists c w1,
     dot_result a b w = (Some c, w1) /\ n c = n a /\ m c = m b /\
     forall i j, in_range c i j -> elem w1 c i j = Some (dot_sum w a b i j)) /\
  fst (dot a b w) = Some (dot_sum w a b 0 0) /\
  forall w2,
    matrix_ok w2 a -> matrix_ok w2 b ->
    (forall i k, in_range a i k -> elem w2 a i k = elem w a i k) ->
    (forall k j, 0 <= k < m a -> 0 <= j < m b -> elem w2 b k j = elem w b k j) ->
    fst (dot a b w2) = fst (dot a b w).
Proof.
  intros Ha Hb Hab Hfit.
  assert (Hn : 0 < n a) by apply Ha. assert (Hm : 0 < m b) by apply Hb.
  assert (E : forall w0, matrix_ok w0 a -> matrix_ok w0 b ->
                fst (dot a b w0) = Some (dot_sum w0 a b 0 0)).
  { intros w0 Ha0 Hb0.
    destruct (dot_live w0 a b (matrix_ok_live _ _ Ha0) (matrix_ok_live _ _ Hb0) Hab Hn Hm Hfit)
      as (w' & c & evs & E & _).
    now rewrite E. }
  split; [| split; [now apply E |]].
  - destruct (dot_result_live w a b (matrix_ok_live _ _ Ha) (matrix_ok_live _ _ Hb)
                Hab Hn Hm Hfit) as (c & w1 & E1 & Hcn & Hcm & _ & _ & Hel & _).
    exists c, w1. repeat split; assumption.
  - intros w2 Ha2 Hb2 Ea Eb. rewrite !E by assumption. f_equal.
    apply dot_sum_agree.
    + intros k Hk. apply Ea. unfold in_range. lia.
    + intros k Hk. apply Eb; lia.
Qed.

(** X8.  When [b] has fewer rows than [a] has columns, [dot] faults:
    the accumulation for the first cell reads [b(b.n, 0)], at the offset
    [b.n * b.m], which is one past the end of the array of [b]. *)
Theorem dot_shorter_operand w a b :
  matrix_ok w a -> matrix_ok w b -> n b < m a ->
  exists evs w',
    dot a b w = (None, w') /\
    log w' = log w ++ Call_dot a b :: evs ++ [Load b (n b * m b)] /\
    (length <$> buffer w b) = Some (Z.to_nat (n b * m b)).
Proof.
  intros Ha Hb Hlt.
  pose proof (dot_unfold w a b) as E. cbv zeta in E.
  set (we := emit (Call_dot a b) w) in *.
  set (c := {| data := fresh (dom (mem we)); n := n a; m := m b |}) in *.
  set (w1 := set_mem _ we) in *.
  assert (Hfresh : mem w !! data c = None) by apply (fresh_unallocated we).
  assert (Hca : data c <> data a).
  { intros Ec. destruct (matrix_ok_buffer _ _ Ha) as (? & ? & _). congruence. }
  assert (Hcb : data c <> data b).
  { intros Ec. destruct (matrix_ok_buffer _ _ Hb) as (? & ? & _). congruence. }
  assert (Ha1 : matrix_live w1 a).
  { apply matrix_ok_live, (matrix_ok_ext w); [| assumption].
    unfold w1. cbn [mem set_mem]. now apply lookup_insert_ne. }
  assert (Hb1 : matrix_live w1 b).
  { apply matrix_ok_live, (matrix_ok_ext w); [| assumption].
    unfold w1. cbn [mem set_mem]. now apply lookup_insert_ne. }
  destruct Ha as (Hna & Hma & Hfa & _). destruct Hb as (Hnb & Hmb & Hfb & Hlenb).
  set (K := Z.to_nat (n b)).
  destruct (inner_prefix_ok w1 a b c Ha1 Hb1 Hca Hcb w1 0 0 K) as (evs & Ein & _);
    [reflexivity | reflexivity | lia | lia | unfold K; lia | unfold K; lia |].
  set (body := fun k s =>
         x <- Matrix_get a 0 k ;;
         y <- Matrix_get b k 0 ;;
         ret (F32.add s (F32.mul x y))) in *.
  set (s0 := fold_left _ _ _) in Ein.
  set (w2 := add_log evs w1) in *.
  set (w3 := add_log [Load a (0 * m a + n b)] w2).
  set (w' := add_log [Load b (n b * m b)] w3).
  assert (Estep : body (0 + Z.of_nat K) s0 w2 = (None, w')).
  { replace (0 + Z.of_nat K) with (n b) by (unfold K; lia). unfold body.
    destruct (Matrix_get_live w2 a 0 (n b)) as (x & _ & Gx).
    { apply (matrix_live_ext w1); [reflexivity | assumption]. }
    { unfold in_range. lia. }
    rewrite (bind_ok _ _ _ _ _ Gx). fold w3.
    apply bind_fault. unfold Matrix_get, load.
    rewrite index_past_end by lia.
    destruct (matrix_live_buffer _ _ Hb1) as (buf & Hbuf & Hlen).
    change (mem w3 !! data b) with (mem w1 !! data b). rewrite Hbuf.
    rewrite lookup_ge_None_2 by lia. reflexivity. }
  assert (Einner : for_size (m a) body F32.zero w1 = (None, w')).
  { unfold for_size.
    replace (Z.to_nat (m a)) with (K + Z.to_nat (m a - n b))%nat by (unfold K; lia).
    rewrite for_loop_app, (bind_ok _ _ _ _ _ Ein).
    apply for_loop_fault; [lia | exact Estep]. }
  assert (Eloops : dot_loops a b c w1 = (None, w')).
  { unfold dot_loops, for_size.
    apply for_loop_fault; [lia |].
    apply for_loop_fault; [lia |].
    apply bind_fault. exact Einner. }
  exists (evs ++ [Load a (0 * m a + n b)]), w'. split; [| split].
  - rewrite E. now apply bind_fault.
  - unfold w', w3, w2, w1, we, emit. cbn [log set_mem add_log].
    rewrite <- !app_assoc. reflexivity.
  - exact Hlenb.
Qed.

(** X9.  When [a] has no row or [b] has no column, whatever else the
    operands are, [dot] faults: the matrix it constructs has no element,
    the loops do nothing, and the read of [c(0, 0)] that gives the
    result is outside the array. *)
Theorem dot_empty_result w a b :
  n a = 0 \/ m b = 0 ->
  exists c w',
    dot a b w = (None, w') /\ n c = n a /\ m c = m b /\
    buffer w' c = Some [] /\
    log w' = log w ++ [Call_dot a b; Load c 0].
Proof.
  intros Hz.
  pose proof (dot_unfold w a b) as E. cbv zeta in E.
  assert (Hmul : Size.mul (n a) (m b) = 0).
  { unfold Size.mul. destruct Hz as [-> | ->]; rewrite ?Z.mul_0_r; reflexivity. }
  rewrite Hmul in E.
  change (seq 0 (Z.to_nat 0)) with (@nil nat) in E. cbn [map] in E.
  set (we := emit (Call_dot a b) w) in *.
  set (c := {| data := fresh (dom (mem we)); n := n a; m := m b |}) in *.
  set (w1 := set_mem (insert (data c) []) we) in *.
  assert (Eloops : dot_loops a b c w1 = (Some tt, w1)).
  { unfold dot_loops, for_size. destruct Hz as [Hn | Hm].
    - now rewrite Hn.
    - apply for_loop_skip. intros k [] w2. now rewrite Hm. }
  exists c, (emit (Load c 0) w1). split; [| split; [reflexivity | split; [reflexivity | split]]].
  - rewrite E, (bind_ok _ _ _ _ _ Eloops). apply bind_fault.
    unfold Matrix_get, load.
    assert (index c 0 0 = 0) as -> by reflexivity.
    replace (mem w1 !! data c) with (Some (@nil float))
      by (unfold w1; cbn [mem set_mem]; now rewrite lookup_insert_eq).
    reflexivity.
  - unfold buffer, w1. cbn [mem set_mem emit add_log]. now rewrite lookup_insert_eq.
  - unfold w1, we, emit. cbn [log set_mem add_log]. now rewrite <- app_assoc.
Qed.

(** X10.  When [a] has no column ([b] may have no row), [a] has a row
    and [b] a column, every accumulation loop stops at once: every cell
    of the matrix that [dot] builds is [+0], and [dot] returns [+0]. *)
Theorem dot_empty_inner w a b :
  matrix_live w a -> matrix_live w b -> m a = 0 ->
  0 < n a -> 0 < m b -> n a * m b <= Size.SIZE_MAX ->
  (exists c w1,
     dot_result a b w = (Some c, w1) /\ n c = n a /\ m c = m b /\
     forall i j, in_range c i j -> elem w1 c i j = Some F32.zero) /\
  fst (dot a b w) = Some F32.zero.
Proof.
  intros Ha Hb Hma Hn Hm Hfit.
  assert (Hab : m a <= n b) by (destruct Hb; lia).
  assert (Hz : forall i j, dot_sum w a b i j = F32.zero).
  { intros i j. unfold dot_sum. now rewrite Hma. }
  split.
  - destruct (dot_result_live w a b Ha Hb Hab Hn Hm Hfit)
      as (c & w1 & E1 & Hcn & Hcm & _ & _ & Hel & _).
    exists c, w1. repeat split; try assumption.
    intros i j Hr. rewrite <- (Hz i j). now apply Hel.
  - destruct (dot_live w a b Ha Hb Hab Hn Hm Hfit) as (w' & c & evs & E & _).
    now rewrite E, Hz.
Qed.

(** X11.  The order of the element accesses.  A call of [dot] that
    fits goes through the cells of [c] row by row; for each cell
    [(i, j)] it reads [a(i, 0)], [b(0, j)], [a(i, 1)], [b(1, j)], ... at
    the offsets [i * a.m + k] and [k * b.m + j], and then writes the cell
    at offset [i * b.m + j]; the last access is the read of offset [0] of
    [c].  That makes [a.n * b.m * (2 * a.m + 1) + 1] element accesses. *)
Theorem dot_access_pattern w a b :
  matrix_ok w a -> matrix_ok w b -> m a = n b -> n a * m b <= Size.SIZE_MAX ->
  exists r w' c,
    dot a b w = (Some r, w') /\
    mem w !! data c = None /\ n c = n a /\ m c = m b /\
    log w' = log w ++ Call_dot a b :: dot_trace a b c /\
    Z.of_nat (length (dot_trace a b c)) = n a * m b * (2 * m a + 1) + 1.
Proof.
  intros Ha Hb Hab Hfit.
  destruct (dot_ok w a b Ha Hb Hab Hfit) as (w' & _ & _ & E & _).
  destruct Ha as (Hna & Hma & Hfa & _). destruct Hb as (Hnb & Hmb & Hfb & _).
  destruct (dot_log w a b _ w' Hfa Hfb Hfit ltac:(lia) E) as (c & Hfresh & Hcn & Hcm & Hlog).
  exists (dot_sum w a b 0 0), w', c. repeat split; try assumption.
  apply length_dot_trace; lia.
Qed.

(** X12.  No overflow on moderate data.  When every entry of [a] and
    of [b] has magnitude at most one and [a] has fewer than [2^24]
    columns, every cell of the product that [dot] builds, and the value
    that it returns, is a finite float (no infinity, no NaN) of
    magnitude at most [a.m]. *)
Theorem dot_bounded w a b :
  matrix_ok w a -> matrix_ok w b -> m a = n b -> n a * m b <= Size.SIZE_MAX ->
  m a < 2 ^ 24 -> within_unit w a -> within_unit w b ->
  (exists c w1,
     dot_result a b w = (Some c, w1) /\
     forall i j, in_range c i j ->
       exists x q, elem w1 c i j = Some x /\ F32.is_finite x = true /\
                   F32.value x = Some q /\
                   (inject_Z (- m a) <= q <= inject_Z (m a))%Q) /\
  exists r q,
    fst (dot a b w) = Some r /\ F32.is_finite r = true /\
    F32.value r = Some q /\ (inject_Z (- m a) <= q <= inject_Z (m a))%Q.
Proof.
  intros Ha Hb Hab Hfit Hp Ua Ub.
  assert (Hma : 0 < m a) by apply Ha.
  assert (Hn : 0 < n a) by apply Ha. assert (Hm : 0 < m b) by apply Hb.
  assert (HB : forall i j, 0 <= i < n a -> 0 <= j < m b ->
             Round.bounded_by (m a) (dot_sum w a b i j)).
  { intros i j Hi Hj. rewrite <- (Z.max_r 0 (m a)) at 1 by lia.
    apply dot_sum_bounded; try assumption. lia. }
  split.
  - destruct (dot_result_ok w a b Ha Hb Hab Hfit)
      as (c & w1 & E1 & Hcn & Hcm & _ & _ & Hel & _).
    exists c, w1. split; [exact E1 |]. intros i j Hr.
    destruct (bounded_by_value (m a) (dot_sum w a b i j)) as (Hf & q & Hq & Hqb);
      [lia | apply HB; destruct Hr; lia |].
    exists (dot_sum w a b i j), q. repeat split; try assumption; try apply Hqb.
    now apply Hel.
  - destruct (dot_ok w a b Ha Hb Hab Hfit) as (w' & c & evs & E & _).
    destruct (bounded_by_value (m a) (dot_sum w a b 0 0)) as (Hf & q & Hq & Hqb);
      [lia | apply HB; lia |].
    exists (dot_sum w a b 0 0), q. rewrite E. repeat split; try assumption; apply Hqb.
Qed.

(** X13.  On small integers [dot] is exact.  When the entries of [a]
    and [b] are the floats of integers of magnitude at most [bound], and
    [a.m * bound^2] is below [2^24], no operation of the kernel rounds:
    every cell of the product that [dot] builds is the float of the
    integer sum of the products, and so is the value that [dot]
    returns. *)
Theorem dot_exact_on_integers w a b A B bound :
  matrix_ok w a -> matrix_ok w b -> m a = n b -> n a * m b <= Size.SIZE_MAX ->
  holds_integers w a A bound -> holds_integers w b B bound ->
  m a * (bound * bound) < 2 ^ 24 ->
  (exists c w1,
     dot_result a b w = (Some c, w1) /\
     forall i j, in_range c i j ->
       elem w1 c i j = Some (F32.of_int (int_dot A B (m a) i j))) /\
  fst (dot a b w) = Some (F32.of_int (int_dot A B (m a) 0 0)).
Proof.
  intros Ha Hb Hab Hfit Ia Ib Hsmall.
  assert (Hn : 0 < n a) by apply Ha. assert (Hm : 0 < m b) by apply Hb.
  split.
  - destruct (dot_result_ok w a b Ha Hb Hab Hfit)
      as (c & w1 & E1 & Hcn & Hcm & _ & _ & Hel & _).
    exists c, w1. split; [exact E1 |]. intros i j Hr.
    rewrite (Hel i j Hr). f_equal.
    apply (dot_sum_integers w a b A B bound); try assumption; destruct Hr; lia.
  - destruct (dot_ok w a b Ha Hb Hab Hfit) as (w' & c & evs & E & _).
    rewrite E. cbn [fst]. f_equal.
    apply (dot_sum_integers w a b A B bound); try assumption; lia.
Qed.

(** X14.  Transposition.  When [ta] and [tb] hold the transposes of
    [a] and [b], the product of [tb] and [ta] that [dot] builds is the
    transpose of the product of [a] and [b]: the same products are added
    in the same order, so that each cell is the same float as the
    transposed cell with no rounding difference, or a NaN where that one
    is a NaN (the payload of a NaN is not modelled); and the two calls
    return the same value in that sense. *)
Theorem dot_transpose w a b ta tb :
  matrix_ok w a -> matrix_ok w b -> matrix_ok w ta -> matrix_ok w tb ->
  m a = n b -> n a * m b <= Size.SIZE_MAX ->
  transposed w a ta -> transposed w b tb ->
  (exists c w1 c' w1',
     dot_result a b w = (Some c, w1) /\ dot_result tb ta w = (Some c', w1') /\
     n c' = m c /\ m c' = n c /\
     forall i j, in_range c i j -> elem w1' c' j i = elem w1 c i j) /\
  fst (dot tb ta w) = fst (dot a b w).
Proof.
  intros Ha Hb Hta Htb Hab Hfit Ta Tb.
  assert (Hn : 0 < n a) by apply Ha. assert (Hm : 0 < m b) by apply Hb.
  assert (Hab' : m tb = n ta) by (destruct Ta as (? & _), Tb as (_ & ? & _); congruence).
  assert (Hfit' : n tb * m ta <= Size.SIZE_MAX).
  { destruct Ta as (_ & -> & _), Tb as (-> & _). lia. }
  split.
  - destruct (dot_result_ok w a b Ha Hb Hab Hfit)
      as (c & w1 & E1 & Hcn & Hcm & _ & _ & Hel & _).
    destruct (dot_result_ok w tb ta Htb Hta Hab' Hfit')
      as (c' & w1' & E1' & Hcn' & Hcm' & _ & _ & Hel' & _).
    exists c, w1, c', w1'. split; [exact E1 |]. split; [exact E1' |].
    destruct Ta as (Tan & Tam & Tael), Tb as (Tbn & Tbm & Tbel).
    split; [congruence |]. split; [congruence |].
    intros i j Hr. rewrite (Hel i j Hr), Hel' by (destruct Hr; unfold in_range; lia).
    f_equal. apply dot_sum_transposed; try assumption; try (repeat split; assumption);
      destruct Hr; lia.
  - destruct (dot_ok w a b Ha Hb Hab Hfit) as (w' & c & evs & E & _).
    destruct (dot_ok w tb ta Htb Hta Hab' Hfit') as (w2 & c2 & evs2 & E2 & _).
    rewrite E, E2. cbn [fst]. f_equal.
    apply dot_sum_transposed; try assumption; lia.
Qed.

(** ** The random filler *)

(** X15.  [fill_rand] calls [rand] once for each element and writes the
    elements in ascending order of their offsets: afterwards the array
    holds, at each offset [k] below [rows * cols], the scaled output of
    the call number [k]; the generator has been advanced by exactly
    [rows * cols] calls; the writes are at the offsets
    [0, 1, ..., rows * cols - 1] in this order; every other array and the
    clock are as they were. *)
Theorem fill_rand_sequence w M :
  matrix_ok w M ->
  exists w',
    fill_rand M w = (Some tt, w') /\
    buffer w' M = Some (map (fun k => rand_value (rand_nth (rng w) k))
                            (seq 0 (Z.to_nat (n M * m M)))) /\
    rng w' = rand_state (rng w) (Z.to_nat (n M * m M)) /\
    log w' = log w ++ map (Store M) (upto (n M * m M)) /\
    (forall l, l <> data M -> mem w' !! l = mem w !! l) /\
    clock_reads w' = clock_reads w.
Proof.
  intros Hok.
  destruct (fill_rand_buffer w M Hok) as (w' & E & Hbuf & Hfr & Hrng & Hclk & Hlog).
  exists w'. repeat split; assumption.
Qed.

(** X16.  On a matrix with no row or no column [fill_rand] does
    nothing at all: it returns, no number is drawn from the generator and
    nothing is written. *)
Theorem fill_rand_empty w M :
  n M = 0 \/ m M = 0 -> fill_rand M w = (Some tt, w).
Proof.
  intros [Hn | Hm]; unfold fill_rand, for_size.
  - now rewrite Hn.
  - apply for_loop_skip. intros k [] w1. now rewrite Hm.
Qed.

(** X17.  Two fills in a row draw two stretches of the generator's
    sequence, one after the other: the second matrix holds the outputs
    that follow the [rows * cols] outputs used for the first one, and the
    first matrix, when it is another array, keeps the outputs that it
    received. *)
Theorem fill_rand_successive w M1 M2 :
  matrix_ok w M1 -> matrix_ok w M2 ->
  exists w1 w2,
    fill_rand M1 w = (Some tt, w1) /\
    fill_rand M2 w1 = (Some tt, w2) /\
    rng w2 = rand_state (rng w) (Z.to_nat (n M1 * m M1) + Z.to_nat (n M2 * m M2)) /\
    (forall i j, in_range M2 i j ->
       elem w2 M2 i j =
       Some (rand_value (rand_nth (rng w)
               (Z.to_nat (n M1 * m M1) + Z.to_nat (i * m M2 + j))))) /\
    (data M1 <> data M2 ->
     forall i j, in_range M1 i j ->
       elem w2 M1 i j = Some (rand_value (rand_nth (rng w) (Z.to_nat (i * m M1 + j))))).
Proof.
  intros H1 H2.
  destruct (fill_rand_ok w M1 H1) as (w1 & E1 & H1' & Hel1 & Hfr1 & Hrng1 & _).
  assert (H2' : matrix_ok w1 M2).
  { destruct H2 as (Hn & Hm & Hfit & Hlen). repeat split; try assumption.
    unfold buffer in *. destruct (mem w !! data M2) as [buf|] eqn:Eb; [| discriminate].
    pose proof (keeps_len_fill_rand M1 w (data M2) buf Eb) as (buf' & Eb' & Hl).
    rewrite E1 in Eb'. cbn [snd] in Eb'. rewrite Eb'. cbn in *. congruence. }
  destruct (fill_rand_ok w1 M2 H2') as (w2 & E2 & _ & Hel2 & Hfr2 & Hrng2 & _).
  exists w1, w2. split; [exact E1 |]. split; [exact E2 |]. split; [| split].
  - rewrite Hrng2, Hrng1. apply rand_state_add.
  - intros i j Hr. rewrite (Hel2 i j Hr), Hrng1. unfold rand_nth.
    now rewrite rand_state_add.
  - intros Hne i j Hr. rewrite (elem_ext w1) by (now apply Hfr2). now apply Hel1.
Qed.

(** ** The benchmark driver *)

(** X18.  What [main] leaves behind.  It returns [0] with the heap as
    it found it: both matrices, and the matrix of every call of [dot],
    have been destroyed.  It has read the clock exactly twice, and it has
    drawn exactly 30000 numbers, as many as [a] and [b] have elements,
    from the generator that it seeded with the time truncated to 32
    bits. *)
Theorem main_resources w :
  exists w',
    main w = (Some 0, w') /\
    mem w' = mem w /\
    clock_reads w' = Datatypes.S (Datatypes.S (clock_reads w)) /\
    rng w' = rand_state (srand (time_null mod 2 ^ 32)) (Z.to_nat 30000).
Proof.
  destruct (main_full w) as
    (a & b & wf & w' & fills & runs & _ & _ & _ & _ & _ & _ & _ & _ & _ & _ & _ &
     E & Hmem & _ & _ & _ & _ & Hrng & Hclk).
  exists w'. split; [exact E |]. split; [exact Hmem |]. split; [exact Hclk |].
  rewrite Hrng. unfold to_unsigned.
  replace (Z.to_nat 30000) with (Z.to_nat (100 * 200) + Z.to_nat (200 * 50))%nat by lia.
  reflexivity.
Qed.

(** X19.  When the two readings of the clock are the same (a clock too
    coarse to see the run), and the number of ticks in a second converts
    to a positive finite [double], the average that [main] prints is
    [+0]: the report is not always a positive number. *)
Theorem main_zero_elapsed w md ed :
  system_clock_now (Datatypes.S (clock_reads w)) = system_clock_now (clock_reads w) ->
  F64.of_int system_clock_den = S754_finite false md ed ->
  exists w' evs s,
    main w = (Some 0, w') /\ log w' = log w ++ evs /\
    outputs evs = report s (S754_zero false).
Proof.
  intros Hclock Hden.
  destruct (main_ok w) as
    (a & b & wf & w' & fills & runs & _ & _ & _ & _ & _ & _ & _ &
     _ & _ & _ & _ & E & _ & Hlog & Hfills & _ & Houts).
  destruct (fill_stores_quiet a b fills Hfills) as [_ Q2].
  eexists w', _, _. split; [exact E |]. split; [exact Hlog |].
  rewrite !outputs_app, Q2, Houts, outputs_report. cbn [app]. f_equal.
  unfold average_us, duration_seconds. rewrite Hclock, Z.sub_diag, Hden.
  reflexivity.
Qed.

(** X20.  The sum that [main] prints is a number: whatever the
    generator and the clock, the accumulated [s] is a finite float (no
    infinity, no NaN), of magnitude at most [100 * 200]. *)
Theorem main_sum_finite w :
  exists w' evs s X,
    main w = (Some 0, w') /\ log w' = log w ++ evs /\
    outputs evs = report s X /\
    F32.is_finite s = true /\
    exists q, F32.value s = Some q /\ (inject_Z (- 20000) <= q <= inject_Z 20000)%Q.
Proof.
  destruct (main_ok w) as
    (a & b & wf & w' & fills & runs & Han & Ham & Hbn & Hbm & _ & _ & _ &
     Ha & Hb & Hela & Helb & E & _ & Hlog & Hfills & _ & Houts).
  destruct (fill_stores_quiet a b fills Hfills) as [_ Q2].
  assert (Ua : within_unit wf a).
  { intros i j Hr. eexists. split; [now apply Hela |].
    apply rand_value_unit_range, rand_range. }
  assert (Ub : within_unit wf b).
  { intros i j Hr. eexists. split; [now apply Helb |].
    apply rand_value_unit_range, rand_range. }
  set (d := dot_sum wf a b 0 0) in *.
  assert (Hd : Round.bounded_by 200 d).
  { unfold d. rewrite <- Ham, <- (Z.max_r 0 (m a)) by lia.
    apply dot_sum_bounded; try assumption; lia. }
  pose proof (iter_add_bounded 200 d 100 ltac:(lia) Hd ltac:(reflexivity)) as Hs.
  change (Z.of_nat 100 * 200) with 20000 in Hs.
  destruct (bounded_by_value 20000 _ ltac:(lia) Hs) as (Hf & q & Hq & Hqb).
  eexists w', _, _, _. split; [exact E |]. split; [exact Hlog |].
  split; [| split; [exact Hf | exists q; split; [exact Hq | exact Hqb]]].
  rewrite !outputs_app, Q2, Houts, outputs_report. reflexivity.
Qed.

End Further.

(** ** The claims at concrete inputs *)

Section Instances.
Import Examples.
Local Existing Instance StdC.platform.
Local Open Scope comp_scope.

Lemma A22_ok : matrix_ok w22 A22.
Proof. by_computation. Qed.

Lemma B22_ok : matrix_ok w22 B22.
Proof. by_computation. Qed.

Lemma I22_ok : matrix_ok w22 I22.
Proof. by_computation. Qed.



(** *** C4 *)

(** [Matrix(2^32, 2^32)]: the product of the dimensions wraps around to
    zero, the array has no element, and the element [(0, 0)] is outside
    it. *)
Lemma Matrix_new_overflow :
  exists M w1,
    Matrix_new big big w_init = (Some M, w1) /\
    0 < n M /\ 0 < m M /\ n M * m M = 18446744073709551616 /\
    buffer w1 M = Some [] /\
    fst (Matrix_get M 0 0 w1) = None.
Proof. eexists _, _. split; [reflexivity |]. by_computation. Qed.

Lemma Matrix_invariant_witness :
  0 < 2 /\ 0 < 3 /\ 2 * 3 <= Size.SIZE_MAX /\
  exists M w1, Matrix_new 2 3 w_init = (Some M, w1) /\ n M = 2 /\ m M = 3.
Proof.
  split; [reflexivity |]. split; [reflexivity |]. split; [discriminate |].
  destruct (Matrix_invariant w_init 2 3) as (M & w1 & E & Hn & Hm & _);
    [reflexivity | reflexivity | discriminate |].
  exists M, w1. split; [exact E |]. split; assumption.
Defined.

(** *** C5 *)

Lemma set_get_roundtrip_witness :
  matrix_ok w22 A22 /\ in_range A22 1 0 /\
  exists w1,
    Matrix_set A22 1 0 (lit 9) w22 = (Some tt, w1) /\
    fst (Matrix_get A22 1 0 w1) = Some (lit 9).
Proof.
  split; [exact A22_ok |]. split; [by_computation |].
  destruct (set_get_roundtrip w22 A22 1 0 (lit 9) A22_ok) as (w1 & E & G & _);
    [by_computation |].
  exists w1. split; assumption.
Defined.

(** *** C1 *)



(** *** C2 *)


(** *** C9 *)

(** A column of [2^32] floats times a row of [2^32] floats: the shapes
    agree and the operands are matrices, but [A.rows * B.cols] is
    [2^64]; the array of [c] has no element, and the run stops at the
    write [c(0, 0) = s], which is outside it.  The call does not only
    write inside the array that it allocates. *)
Lemma dot_overflow_writes_outside :
  matrix_ok w_big a_big /\ matrix_ok w_big b_big /\ m a_big = n b_big /\
  Size.SIZE_MAX < n a_big * m b_big /\
  exists c evs w',
    dot a_big b_big w_big = (None, w') /\
    n c = n a_big /\ m c = m b_big /\
    log w' = log w_big ++ Call_dot a_big b_big :: evs ++ [Store c 0] /\
    length <$> buffer w' c = Some 0%nat.
Proof.
  destruct (dot_overflow w_big a_big b_big a_big_ok b_big_ok eq_refl big_shape_wraps)
    as (c & evs & w' & E & Hcn & Hcm & Hbuf & Hlog).
  split; [exact a_big_ok |]. split; [exact b_big_ok |]. split; [reflexivity |].
  split; [reflexivity |].
  exists c, evs, w'. split; [exact E |]. split; [exact Hcn |]. split; [exact Hcm |].
  split; [exact Hlog |]. now rewrite Hbuf.
Qed.

Lemma dot_preserves_operands_witness :
  matrix_ok w22 A22 /\ matrix_ok w22 B22 /\ m A22 = n B22 /\
  n A22 * m B22 <= Size.SIZE_MAX /\
  exists r w',
    dot A22 B22 w22 = (Some r, w') /\
    buffer w' A22 = buffer w22 A22 /\ buffer w' B22 = buffer w22 B22.
Proof.
  split; [exact A22_ok |]. split; [exact B22_ok |]. split; [reflexivity |].
  split; [discriminate |].
  destruct (dot_preserves_operands w22 A22 B22 A22_ok B22_ok eq_refl)
    as (r & w' & c & evs & E & Ea & Eb & _); [discriminate |].
  exists r, w'. repeat split; assumption.
Defined.

(** *** C10 *)

(** The same operands: the preconditions hold, and the last access of
    [dot] is the write [c(0, 0) = s], at offset [0] of an array without
    elements. *)
Lemma dot_overflow_out_of_bounds :
  matrix_ok w_big a_big /\ matrix_ok w_big b_big /\
  m a_big = n b_big /\ 0 < n a_big /\ 0 < m b_big /\
  exists c evs w',
    dot a_big b_big w_big = (None, w') /\
    log w' = log w_big ++ Call_dot a_big b_big :: evs ++ [Store c 0] /\
    buffer w' c = Some [].
Proof.
  destruct (dot_overflow w_big a_big b_big a_big_ok b_big_ok eq_refl big_shape_wraps)
    as (c & evs & w' & E & _ & _ & Hbuf & Hlog).
  split; [exact a_big_ok |]. split; [exact b_big_ok |].
  split; [reflexivity |]. split; [reflexivity |]. split; [reflexivity |].
  exists c, evs, w'. repeat split; assumption.
Qed.

Lemma dot_accesses_in_bounds_witness :
  matrix_ok w22 A22 /\ matrix_ok w22 B22 /\ m A22 = n B22 /\
  0 < n A22 /\ 0 < m B22 /\ n A22 * m B22 <= Size.SIZE_MAX /\
  exists r w' c evs,
    dot A22 B22 w22 = (Some r, w') /\
    log w' = log w22 ++ Call_dot A22 B22 :: evs /\
    Forall (kernel_access A22 B22 c) evs.
Proof.
  split; [exact A22_ok |]. split; [exact B22_ok |].
  split; [reflexivity |]. split; [reflexivity |]. split; [reflexivity |].
  split; [discriminate |].
  destruct (dot_accesses_in_bounds w22 A22 B22 A22_ok B22_ok eq_refl)
    as (r & w' & c & evs & E & Hlog & _ & _ & _ & Hev);
    [reflexivity | reflexivity | discriminate |].
  exists r, w', c, evs. repeat split; assumption.
Defined.

(** *** C6 *)



(** *** C3 *)



(** *** The further properties *)

Lemma A12_ok : matrix_ok w_shapes A12.
Proof. by_computation. Qed.

Lemma B32_ok : matrix_ok w_shapes B32.
Proof. by_computation. Qed.

Lemma B12_ok : matrix_ok w_shapes B12.
Proof. by_computation. Qed.

Lemma A20_live : matrix_live w_empty A20.
Proof. by_computation. Qed.

Lemma B03_live : matrix_live w_empty B03.
Proof. by_computation. Qed.

(** In a two by two matrix, row [2^63] is row [0] again: [2^63 * 2]
    is [2^64]. *)
Lemma index_wraps_around_witness :
  matrix_ok w22 A22 /\ in_range A22 0 1 /\
  (9223372036854775808 * m A22 + 1) mod 2 ^ 64 = 0 * m A22 + 1 /\
  fst (Matrix_get A22 9223372036854775808 1 w22) = Some (lit 2).
Proof.
  split; [exact A22_ok |]. split; [by_computation |]. split; [reflexivity |].
  destruct (index_wraps_around w22 A22 0 1 9223372036854775808 1 (lit 9) A22_ok)
    as (G & _); [by_computation | reflexivity |].
  exact G.
Defined.

Lemma column_overrun_witness :
  matrix_ok w22 A22 /\ 0 <= 0 /\ 0 + 1 < n A22 /\ 0 <= 1 < m A22 /\
  exists w1,
    Matrix_set A22 0 (1 + m A22) (lit 9) w22 = (Some tt, w1) /\
    fst (Matrix_get A22 (0 + 1) 1 w1) = Some (lit 9).
Proof.
  split; [exact A22_ok |]. split; [discriminate |]. split; [reflexivity |].
  split; [by_computation |].
  apply (column_overrun w22 A22 0 1 (lit 9) A22_ok); by_computation.
Defined.

Lemma set_set_witness :
  matrix_ok w22 A22 /\ in_range A22 0 0 /\ in_range A22 1 1 /\
  exists w1 w2 w1' w2',
    Matrix_set A22 0 0 (lit 8) w22 = (Some tt, w1) /\
    Matrix_set A22 1 1 (lit 9) w1 = (Some tt, w2) /\
    Matrix_set A22 1 1 (lit 9) w22 = (Some tt, w1') /\
    Matrix_set A22 0 0 (lit 8) w1' = (Some tt, w2') /\
    mem w2 = mem w2'.
Proof.
  split; [exact A22_ok |]. split; [by_computation |]. split; [by_computation |].
  destruct (set_set w22 A22 0 0 1 1 (lit 8) (lit 9) A22_ok)
    as (w1 & w2 & w1' & w2' & E1 & E2 & E3 & E4 & _ & Hne); [by_computation | by_computation |].
  exists w1, w2, w1', w2'. repeat split; try assumption.
  apply Hne. intros [E _]. discriminate E.
Defined.

Lemma dot_leaves_heap_witness :
  matrix_ok w22 A22 /\ matrix_ok w22 B22 /\ m A22 = n B22 /\
  n A22 * m B22 <= Size.SIZE_MAX /\
  exists r w', dot A22 B22 w22 = (Some r, w') /\ mem w' = mem w22.
Proof.
  split; [exact A22_ok |]. split; [exact B22_ok |]. split; [reflexivity |].
  split; [discriminate |].
  destruct (dot_leaves_heap w22 A22 B22 A22_ok B22_ok eq_refl) as (r & w' & E & Hm & _);
    [discriminate |].
  exists r, w'. split; assumption.
Defined.

(** [[1, 2]] times a matrix of three rows: the third row is not used. *)
Lemma dot_taller_operand_witness :
  matrix_ok w_shapes A12 /\ matrix_ok w_shapes B32 /\ m A12 <= n B32 /\
  n A12 * m B32 <= Size.SIZE_MAX /\
  fst (dot A12 B32 w_shapes) = Some (dot_sum w_shapes A12 B32 0 0).
Proof.
  split; [exact A12_ok |]. split; [exact B32_ok |]. split; [discriminate |].
  split; [discriminate |].
  destruct (dot_taller_operand w_shapes A12 B32 A12_ok B32_ok) as (_ & E & _);
    [discriminate | discriminate |].
  exact E.
Defined.

(** [[1, 2]] times a matrix of one row. *)
Lemma dot_shorter_operand_witness :
  matrix_ok w_shapes A12 /\ matrix_ok w_shapes B12 /\ n B12 < m A12 /\
  fst (dot A12 B12 w_shapes) = None.
Proof.
  split; [exact A12_ok |]. split; [exact B12_ok |]. split; [reflexivity |].
  destruct (dot_shorter_operand w_shapes A12 B12 A12_ok B12_ok) as (evs & w' & E & _);
    [reflexivity |].
  now rewrite E.
Defined.

Lemma dot_empty_result_witness :
  (n B03 = 0 \/ m A20 = 0) /\ fst (dot B03 A20 w_empty) = None.
Proof.
  split; [left; reflexivity |].
  destruct (dot_empty_result w_empty B03 A20) as (c & w' & E & _); [left; reflexivity |].
  now rewrite E.
Defined.

Lemma dot_empty_inner_witness :
  matrix_live w_empty A20 /\ matrix_live w_empty B03 /\ m A20 = 0 /\
  0 < n A20 /\ 0 < m B03 /\ n A20 * m B03 <= Size.SIZE_MAX /\
  fst (dot A20 B03 w_empty) = Some F32.zero.
Proof.
  split; [exact A20_live |]. split; [exact B03_live |]. split; [reflexivity |].
  split; [reflexivity |]. split; [reflexivity |]. split; [discriminate |].
  destruct (dot_empty_inner w_empty A20 B03 A20_live B03_live) as (_ & E);
    [reflexivity | reflexivity | reflexivity | discriminate |].
  exact E.
Defined.

Lemma dot_access_pattern_witness :
  matrix_ok w22 A22 /\ matrix_ok w22 B22 /\ m A22 = n B22 /\
  n A22 * m B22 <= Size.SIZE_MAX /\
  exists r w' c,
    dot A22 B22 w22 = (Some r, w') /\
    log w' = log w22 ++ Call_dot A22 B22 :: dot_trace A22 B22 c.
Proof.
  split; [exact A22_ok |]. split; [exact B22_ok |]. split; [reflexivity |].
  split; [discriminate |].
  destruct (dot_access_pattern w22 A22 B22 A22_ok B22_ok eq_refl)
    as (r & w' & c & E & _ & _ & _ & Hlog & _); [discriminate |].
  exists r, w', c. split; assumption.
Defined.

Lemma fill_rand_sequence_witness :
  matrix_ok w22 A22 /\
  exists w', fill_rand A22 w22 = (Some tt, w') /\
             rng w' = rand_state (rng w22) (Z.to_nat (n A22 * m A22)).
Proof.
  split; [exact A22_ok |].
  destruct (fill_rand_sequence w22 A22 A22_ok) as (w' & E & _ & Hrng & _).
  exists w'. split; assumption.
Defined.

Lemma fill_rand_empty_witness :
  (n A20 = 0 \/ m A20 = 0) /\ fill_rand A20 w_empty = (Some tt, w_empty).
Proof.
  split; [right; reflexivity |].
  apply (fill_rand_empty w_empty A20). right. reflexivity.
Defined.

Lemma fill_rand_successive_witness :
  matrix_ok w22 A22 /\ matrix_ok w22 B22 /\
  exists w1 w2,
    fill_rand A22 w22 = (Some tt, w1) /\ fill_rand B22 w1 = (Some tt, w2) /\
    rng w2 = rand_state (rng w22) (Z.to_nat (n A22 * m A22) + Z.to_nat (n B22 * m B22)).
Proof.
  split; [exact A22_ok |]. split; [exact B22_ok |].
  destruct (fill_rand_successive w22 A22 B22 A22_ok B22_ok) as (w1 & w2 & E1 & E2 & Hrng & _).
  exists w1, w2. repeat split; assumption.
Defined.

Lemma I22_unit : within_unit w22 I22.
Proof. intros i j Hr. small_cells; eexists; by_computation. Qed.

Lemma dot_bounded_witness :
  matrix_ok w22 I22 /\ m I22 = n I22 /\ n I22 * m I22 <= Size.SIZE_MAX /\
  m I22 < 2 ^ 24 /\ within_unit w22 I22 /\
  exists r, fst (dot I22 I22 w22) = Some r /\ F32.is_finite r = true.
Proof.
  split; [exact I22_ok |]. split; [reflexivity |]. split; [discriminate |].
  split; [reflexivity |]. split; [exact I22_unit |].
  destruct (dot_bounded w22 I22 I22 I22_ok I22_ok eq_refl) as (_ & r & q & E & Hf & _);
    [discriminate | reflexivity | exact I22_unit | exact I22_unit |].
  exists r. split; assumption.
Defined.

Lemma Matrix_empty_witness :
  (3 = 0 \/ 0 = 0) /\
  exists M w1, Matrix_new 3 0 w_init = (Some M, w1) /\ buffer w1 M = Some [].
Proof.
  split; [right; reflexivity |].
  destruct (Matrix_empty w_init 3 0) as (M & w1 & E & _ & _ & Hb & _); [right; reflexivity |].
  exists M, w1. split; assumption.
Defined.

Lemma A22_integers : holds_integers w22 A22 (fun i j => 1 + 2 * i + j) 8.
Proof. intros i j Hr. small_cells; by_computation. Qed.

Lemma B22_integers : holds_integers w22 B22 (fun i j => 5 + 2 * i + j) 8.
Proof. intros i j Hr. small_cells; by_computation. Qed.

Lemma dot_exact_on_integers_witness :
  matrix_ok w22 A22 /\ matrix_ok w22 B22 /\ m A22 = n B22 /\
  n A22 * m B22 <= Size.SIZE_MAX /\
  holds_integers w22 A22 (fun i j => 1 + 2 * i + j) 8 /\
  holds_integers w22 B22 (fun i j => 5 + 2 * i + j) 8 /\
  m A22 * (8 * 8) < 2 ^ 24 /\
  fst (dot A22 B22 w22) = Some (F32.of_int 19).
Proof.
  split; [exact A22_ok |]. split; [exact B22_ok |]. split; [reflexivity |].
  split; [discriminate |]. split; [exact A22_integers |]. split; [exact B22_integers |].
  split; [reflexivity |].
  destruct (dot_exact_on_integers w22 A22 B22 (fun i j => 1 + 2 * i + j)
              (fun i j => 5 + 2 * i + j) 8 A22_ok B22_ok eq_refl)
    as (_ & E); [discriminate | exact A22_integers | exact B22_integers | reflexivity |].
  exact E.
Defined.

Lemma A22_ok' : matrix_ok w_transposes A22.
Proof. by_computation. Qed.

Lemma B22_ok' : matrix_ok w_transposes B22.
Proof. by_computation. Qed.

Lemma TA22_ok : matrix_ok w_transposes TA22.
Proof. by_computation. Qed.

Lemma TB22_ok : matrix_ok w_transposes TB22.
Proof. by_computation. Qed.

Lemma TA22_transposed : transposed w_transposes A22 TA22.
Proof. split; [reflexivity |]. split; [reflexivity |]. intros i j Hr. small_cells; reflexivity. Qed.

Lemma TB22_transposed : transposed w_transposes B22 TB22.
Proof. split; [reflexivity |]. split; [reflexivity |]. intros i j Hr. small_cells; reflexivity. Qed.

Lemma dot_transpose_witness :
  matrix_ok w_transposes A22 /\ matrix_ok w_transposes B22 /\
  matrix_ok w_transposes TA22 /\ matrix_ok w_transposes TB22 /\
  m A22 = n B22 /\ n A22 * m B22 <= Size.SIZE_MAX /\
  transposed w_transposes A22 TA22 /\ transposed w_transposes B22 TB22 /\
  fst (dot TB22 TA22 w_transposes) = fst (dot A22 B22 w_transposes).
Proof.
  split; [exact A22_ok' |]. split; [exact B22_ok' |].
  split; [exact TA22_ok |]. split; [exact TB22_ok |].
  split; [reflexivity |]. split; [discriminate |].
  split; [exact TA22_transposed |]. split; [exact TB22_transposed |].
  destruct (dot_transpose w_transposes A22 B22 TA22 TB22 A22_ok' B22_ok' TA22_ok TB22_ok
              eq_refl) as (_ & E);
    [discriminate | exact TA22_transposed | exact TB22_transposed |].
  exact E.
Defined.

(** Under the coarse clock the report is [+0]. *)
Lemma main_zero_elapsed_witness :
  @system_clock_now StdC.coarse_clock 1%nat = @system_clock_now StdC.coarse_clock 0%nat /\
  F64.of_int (@system_clock_den StdC.coarse_clock) =
    S754_finite false 8388608000000000 (-23) /\
  exists w' evs s,
    @main StdC.coarse_clock w_coarse = (Some 0, w') /\
    log w' = log w_coarse ++ evs /\
    outputs evs = report s (S754_zero false).
Proof.
  split; [reflexivity |]. split; [reflexivity |].
  apply (@main_zero_elapsed StdC.coarse_clock w_coarse 8388608000000000 (-23));
    reflexivity.
Defined.

End Instances.
